(** * OARS: frugal resolvent splitting, serial and parallel engines

    A shallow embedding of [oars/algorithms/serial.py],
    [oars/algorithms/parallel.py] and of the trace projection of
    [tests/proxs.py].

    Numbers.  Every finite float is a rational number, so the floats of
    the source are modelled in exact arithmetic by the canonical
    rationals [Qc]: the operations are the exact ones, without rounding.

    Arrays.  The engines never look inside an iterate: they add and
    subtract iterates and scale them by a float.  Iterates are therefore
    elements of a type [V] with the structure [Arr] below (an [ndarray]
    of one fixed shape, with numpy's element-wise operations).  Python's
    integer [0], which numpy broadcasts to the array of zeros, is [vzero].

    Exceptions.  Code that can raise returns a [res]: [Ok] with the
    value or [Raise] with the exception. *)

From Stdlib Require Import QArith Qcanon Field Lqa.
From stdpp Require Import gmap list numbers relations.

Open Scope Qc_scope.
Set Warnings "-clear-no-such-hyp".

(** Python's integers.  (The sources name a matrix [Z].) *)
Abbreviation int := BinNums.Z.

(** ** Exceptions *)

Inductive exn : Type :=
  | NameError
  | IndexError
  | KeyError
  | TypeError
  | ValueError
  | ZeroDivisionError.

Inductive res (A : Type) : Type :=
  | Ok (a : A)
  | Raise (e : exn).
Arguments Ok {A} a.
Arguments Raise {A} e.

#[global] Instance res_ret : MRet res := fun A a => Ok a.
#[global] Instance res_bind : MBind res := fun A B f m =>
  match m with
  | Ok a => f a
  | Raise e => Raise e
  end.

(** [seq[i]] on a Python list, for [0 <= i]. *)
Definition index {A : Type} (l : list A) (i : nat) : res A :=
  match l !! i with
  | Some a => Ok a
  | None => Raise IndexError
  end.

(** [for a in l: s = body(a, s)], stopping at the first exception. *)
Fixpoint for_each {A S : Type} (l : list A) (body : A -> S -> res S) (s : S)
  : res S :=
  match l with
  | [] => Ok s
  | a :: l' => s' ← body a s; for_each l' body s'
  end.

(** [for i in range(n)]. *)
Definition for_range {S : Type} (n : nat) (body : nat -> S -> res S) (s : S)
  : res S :=
  for_each (seq 0 n) body s.

(** [[f(a) for a in l]], stopping at the first exception. *)
Fixpoint comprehension {A B : Type} (l : list A) (f : A -> res B)
  : res (list B) :=
  match l with
  | [] => Ok []
  | a :: l' => b ← f a; bs ← comprehension l' f; Ok (b :: bs)
  end.

(** ** Matrices: two-dimensional arrays of floats *)

Abbreviation matrix := (list (list Qc)).

(** [M[i, j]]: an index out of range raises. *)
Definition mget (M : matrix) (i j : nat) : res Qc :=
  row ← index M i; index row j.

(** The entry, where it exists. *)
Definition entry (M : matrix) (i j : nat) : Qc :=
  default 0 (M !! i ≫= (.!! j)).

(** [M.shape = (n, n)]. *)
Definition square (n : nat) (M : matrix) : Prop :=
  length M = n /\ Forall (fun row => length row = n) M.

Definition symmetric (n : nat) (M : matrix) : Prop :=
  forall i j, (i < n)%nat -> (j < n)%nat -> entry M i j = entry M j i.

(** [sum(f(i) for i in range(n))] on floats. *)
Fixpoint sumn (n : nat) (f : nat -> Qc) : Qc :=
  match n with
  | O => 0
  | S n' => sumn n' f + f n'
  end.

(** ** tests/proxs.py: the projection on [{X : tr(A X) = v}] *)

Module Proxs.

(** [A @ X] for [A] of shape [(n, p)] and [X] of shape [(p, q)]. *)
Definition matmul (A X : matrix) : matrix :=
  let p := length X in
  let q := length (default [] (head X)) in
  (fun i => (fun j => sumn p (fun k => entry A i k * entry X k j))
            <$> seq 0 q)
  <$> seq 0 (length A).

(** [np.trace(M)]: the sum of the main diagonal. *)
Definition trace (M : matrix) : Qc :=
  sumn (length M `min` length (default [] (head M))) (fun i => entry M i i).

(** [np.linalg.norm(A, 'fro')**2]: the square of the square root of the
    sum of the squares, in exact arithmetic the sum of the squares. *)
Definition fro2 (A : matrix) : Qc :=
  sumn (length A)
       (fun i => sumn (length (default [] (head A)))
                      (fun j => entry A i j * entry A i j)).

(** [c * M] and [X - Y], element by element. *)
Definition mscale (c : Qc) (M : matrix) : matrix :=
  (fun row : list Qc => Qcmult c <$> row) <$> M.
Definition msub (X Y : matrix) : matrix := zip_with (zip_with Qcminus) X Y.

Record traceEqualityIndicator : Type := {
  A : matrix;
  v : Qc;
  U : matrix;
}.

(** [scale]: [A/np.linalg.norm(A, 'fro')**2].  (For the zero matrix numpy
    yields an array of nan; the division of [Qc] yields zeros there, so
    the statements about [scale] assume [fro2 A <> 0].) *)
Definition scale (A0 : matrix) : matrix := mscale (/ fro2 A0) A0.

(** [__init__]. *)
Definition init (A0 : matrix) (v0 : Qc) : traceEqualityIndicator :=
  {| A := A0; v := v0; U := scale A0 |}.

(** [prox(X, t)]. *)
Definition prox (self : traceEqualityIndicator) (X : matrix) (t : Qc)
  : matrix :=
  let ax := trace (matmul (A self) X) in
  if decide (ax = v self) then X
  else msub X (mscale (ax - v self) (U self)).

End Proxs.

(** ** Iterates: arrays of one shape, in exact arithmetic *)

Class Arr (V : Type) : Type := {
  vzero : V;
  vadd : V -> V -> V;
  vopp : V -> V;
  smul : Qc -> V -> V;
  vadd_assoc : forall x y z, vadd x (vadd y z) = vadd (vadd x y) z;
  vadd_comm : forall x y, vadd x y = vadd y x;
  vadd_zero : forall x, vadd vzero x = x;
  vadd_opp : forall x, vadd x (vopp x) = vzero;
  smul_vadd : forall q x y, smul q (vadd x y) = vadd (smul q x) (smul q y);
  smul_plus : forall p q x, smul (p + q) x = vadd (smul p x) (smul q x);
  smul_mult : forall p q x, smul p (smul q x) = smul (p * q) x;
  smul_one : forall x, smul 1 x = x;
}.

(** [x - y]. *)
Definition vsub {V : Type} {AV : Arr V} (x y : V) : V := vadd x (vopp y).

(** Python's [sum(...)]: starts from [0] and adds from the left. *)
Definition py_sum {V : Type} {AV : Arr V} (l : list V) : V :=
  foldl vadd vzero l.

(** The integer [n] as a float. *)
Definition of_nat (n : nat) : Qc := Q2Qc (inject_Z (Z.of_nat n)).

(** [x / n] for an array [x] and a nonzero integer [n]. *)
Definition vdiv {V : Type} {AV : Arr V} (x : V) (n : nat) : V :=
  smul (/ of_nat n) x.

(** Arrays of shape [()]: the floats themselves. *)
#[global, refine] Instance arr_Qc : Arr Qc := {|
  vzero := 0; vadd := Qcplus; vopp := Qcopp; smul := Qcmult |}.
Proof. all: intros; ring. Defined.

(** Arrays of shape [(2,)] and the like: pairs, component by component. *)
#[global, refine] Instance arr_prod {V1 V2 : Type} {A1 : Arr V1} {A2 : Arr V2}
  : Arr (V1 * V2) := {|
  vzero := (vzero, vzero);
  vadd x y := (vadd (fst x) (fst y), vadd (snd x) (snd y));
  vopp x := (vopp (fst x), vopp (snd x));
  smul q x := (smul q (fst x), smul q (snd x)) |}.
Proof.
  - intros [] [] []; simpl; f_equal; apply vadd_assoc.
  - intros [] []; simpl; f_equal; apply vadd_comm.
  - intros []; simpl; f_equal; apply vadd_zero.
  - intros []; simpl; f_equal; apply vadd_opp.
  - intros q [] []; simpl; f_equal; apply smul_vadd.
  - intros p q []; simpl; f_equal; apply smul_plus.
  - intros p q []; simpl; f_equal; apply smul_mult.
  - intros []; simpl; f_equal; apply smul_one.
Defined.

(** A constructed resolvent: the engines call its [prox] only. *)
Record resolvent (V : Type) : Type := { prox : V -> Qc -> V }.
Arguments prox {V} r y alpha.

(** The record a node returns. *)
Record result (V : Type) : Type := { res_x : V; res_v : V }.
Arguments res_x {V} r.
Arguments res_v {V} r.

(** [l[i] = x] on a Python list. *)
Definition assign {A : Type} (l : list A) (i : nat) (x : A) : res (list A) :=
  if bool_decide (i < length l)%nat then Ok (<[i:=x]> l) else Raise IndexError.

(** [np.isclose(a, 0.0)] with numpy's defaults: [|a - 0.0| <= atol],
    where [atol = 1e-8] (the relative part vanishes against [0.0]). *)
Definition atol : Qc := Q2Qc (1 # 100000000).
Definition isclose0 (a : Qc) : bool :=
  bool_decide (- atol <= a /\ a <= atol).

(** [np.tril(Z, -1)] and [-M]. *)
Definition tril1 (Z : matrix) : matrix :=
  imap (fun i row =>
          imap (fun j z => if bool_decide (j < i)%nat then z else 0) row) Z.
Definition mneg (M : matrix) : matrix :=
  (fun row : list Qc => Qcopp <$> row) <$> M.

(** ** oars/algorithms/serial.py *)

Module Serial.
Section Engine.
Context {V : Type} {AV : Arr V}.

(** [oars.algorithms.helpers] is not among the sources.  Its
    [ConvergenceChecker] is taken as a parameter: a state [CS] and the
    method [check], which returns whether to stop and the next state. *)
Context {CS : Type}.
Variable check : CS -> list V -> bool * CS.

(** Lines 62-68: node [i] of the resolvent sweep, on the list [all_x]
    that the sweep updates in place. *)
Definition sweep_node (Z : matrix) (rs : list (resolvent V)) (alpha : Qc)
    (all_v : list V) (i : nat) (all_x : list V) : res (list V) :=
  resolvent ← index rs i;
  vi ← index all_v i;
  terms ← comprehension (seq 0 i)
            (fun j => z ← mget Z i j; xj ← index all_x j; Ok (smul z xj));
  let y := vsub vi (py_sum terms) in
  let x := prox resolvent y alpha in
  assign all_x i x.

(** Lines 71-72: node [i] of the consensus update, on the list [all_v]
    that the loop updates in place.  ([wx[i]] only holds the sum.) *)
Definition consensus_node (W : matrix) (gamma : Qc) (n : nat)
    (all_x : list V) (i : nat) (all_v : list V) : res (list V) :=
  terms ← comprehension (seq 0 n)
            (fun j => w ← mget W i j; xj ← index all_x j; Ok (smul w xj));
  let wx_i := py_sum terms in
  vi ← index all_v i;
  assign all_v i (vsub vi (smul gamma wx_i)).

(** Lines 61-72: one iteration. *)
Definition serial_iteration (n : nat) (rs : list (resolvent V))
    (W Z : matrix) (gamma alpha : Qc) (st : list V * list V)
  : res (list V * list V) :=
  all_x ← for_range n (sweep_node Z rs alpha st.2) st.1;
  all_v ← for_range n (consensus_node W gamma n all_x) st.2;
  Ok (all_x, all_v).

(** Lines 57-85: [for itr in range(itrs)], left early when the checker
    says so.  [todo] is the number of iterations left. *)
Fixpoint serial_loop (todo : nat) (n : nat) (rs : list (resolvent V))
    (W Z : matrix) (gamma alpha : Qc) (cs : CS) (st : list V * list V)
  : res (list V * list V) :=
  match todo with
  | O => Ok st
  | S todo' =>
      st' ← serial_iteration n rs W Z gamma alpha st;
      let '(stop, cs') := check cs st'.1 in
      if stop then Ok st'
      else serial_loop todo' n rs W Z gamma alpha cs' st'
  end.

(** The iterates after [k] iterations without an early exit. *)
Fixpoint serial_iterates (k : nat) (n : nat) (rs : list (resolvent V))
    (W Z : matrix) (gamma alpha : Qc) (st : list V * list V)
  : res (list V * list V) :=
  match k with
  | O => Ok st
  | S k' =>
      st' ← serial_iterates k' n rs W Z gamma alpha st;
      serial_iteration n rs W Z gamma alpha st'
  end.

(** Lines 37-44: the initial lifted point.  [serial.py] never binds the
    name [L], so evaluating the arguments of
    [getWarmPrimal(warmstartprimal, L)] raises. *)
Definition serial_seed (n : nat) (warmstartprimal : option V)
    (warmstartdual : option (list V)) : res (list V) :=
  all_v ← match warmstartprimal with
          | Some _ => Raise NameError
          | None => Ok (replicate n vzero)
          end;
  match warmstartdual with
  | Some u =>
      comprehension (seq 0 n)
        (fun i => a ← index all_v i; b ← index u i; Ok (vadd a b))
  | None => Ok all_v
  end.

(** Lines 89-97: the mean and the records. *)
Definition serial_results (n : nat) (st : list V * list V)
  : res (V * list (result V)) :=
  x ← (if bool_decide (n = O) then Raise ZeroDivisionError
       else Ok (vdiv (py_sum st.1) n));
  results ← comprehension (seq 0 n)
              (fun i => xi ← index st.1 i; vi ← index st.2 i;
                        Ok {| res_x := xi; res_v := vi |});
  Ok (x, results).

(** Lines 37-101, once the resolvents are constructed ([verbose] off).
    [new_checker] stands for the constructor call of line 51. *)
Definition serial_main (new_checker : list V -> CS) (n : nat)
    (rs : list (resolvent V)) (W Z : matrix)
    (warmstartprimal : option V) (warmstartdual : option (list V))
    (itrs : int) (gamma alpha : Qc) : res (V * list (result V)) :=
  let all_x := replicate n vzero in
  all_v ← serial_seed n warmstartprimal warmstartdual;
  st ← serial_loop (Z.to_nat itrs) n rs W Z gamma alpha
         (new_checker all_x) (all_x, all_v);
  serial_results n st.

(** *** The caller's objects

    The arguments are references to objects of the caller.  A list holds
    its items by value; the items are resolvent classes, constructed
    resolvents, data payloads and arrays. *)

Context {D : Type}.

Inductive pyval : Type :=
  | Class (build : D -> resolvent V)
  | Instance (r : resolvent V)
  | Datum (d : D)
  | Array (x : V).

Inductive pyobj : Type :=
  | PList (items : list pyval)
  | PMatrix (M : matrix)
  | PArray (x : V).

Abbreviation loc := positive.
Abbreviation heap := (gmap loc pyobj).

Definition read_list (h : heap) (l : loc) : res (list pyval) :=
  match h !! l with
  | Some (PList items) => Ok items
  | _ => Raise TypeError
  end.

(** A matrix is read when an entry is: a reference to something else
    yields no entry. *)
Definition read_matrix (h : heap) (l : loc) : matrix :=
  match h !! l with
  | Some (PMatrix M) => M
  | _ => []
  end.

Definition read_array (h : heap) (l : loc) : res V :=
  match h !! l with
  | Some (PArray x) => Ok x
  | _ => Raise TypeError
  end.

(** [c(d)]: only a class is called here. *)
Definition call (c d : pyval) : res (resolvent V) :=
  match c, d with
  | Class build, Datum d => Ok (build d)
  | _, _ => Raise TypeError
  end.

(** Line 32: [resolvents[i] = resolvents[i](data[i])]. *)
Definition setup_node (data resolvents : loc) (i : nat) (h : heap)
  : res heap :=
  rl ← read_list h resolvents;
  c ← index rl i;
  dl ← read_list h data;
  d ← index dl i;
  r ← call c d;
  rl' ← assign rl i (Instance r);
  Ok (<[resolvents := PList rl']> h).

(** Lines 31-36, with the heap as it is when the loop ends or raises. *)
Fixpoint setup (data resolvents : loc) (nodes : list nat) (h : heap)
  : heap * res unit :=
  match nodes with
  | [] => (h, Ok ())
  | i :: nodes' =>
      match setup_node data resolvents i h with
      | Ok h' => setup data resolvents nodes' h'
      | Raise e => (h, Raise e)
      end
  end.

Definition as_instance (x : pyval) : res (resolvent V) :=
  match x with
  | Instance r => Ok r
  | _ => Raise TypeError
  end.

Definition as_array (x : pyval) : res V :=
  match x with
  | Array a => Ok a
  | _ => Raise TypeError
  end.

(** [serialAlgorithm]: the heap after the call and its outcome.  After
    line 36 nothing writes to the caller's objects, so the rest runs on
    their contents. *)
Definition serialAlgorithm (new_checker : list V -> CS) (n : nat)
    (data resolvents W Z : loc)
    (warmstartprimal warmstartdual : option loc)
    (itrs : int) (gamma alpha : Qc) (h : heap)
  : heap * res (V * list (result V)) :=
  let '(h1, r) := setup data resolvents (seq 0 n) h in
  (h1,
   _ ← r;
   rl ← read_list h1 resolvents;
   rs ← comprehension (take n rl) as_instance;
   wp ← match warmstartprimal with
        | Some l => x ← read_array h1 l; Ok (Some x)
        | None => Ok None
        end;
   wd ← match warmstartdual with
        | Some l => ul ← read_list h1 l;
                    u ← comprehension ul as_array; Ok (Some u)
        | None => Ok None
        end;
   serial_main new_checker n rs (read_matrix h1 W) (read_matrix h1 Z)
     wp wd itrs gamma alpha).

End Engine.
End Serial.

(** ** oars/algorithms/parallel.py *)

Module Parallel.

(** The five peer lists of a node ([Comms_Data[i]]). *)
Record comms : Type := {
  WQ : list nat;
  up_LQ : list nat;
  down_LQ : list nat;
  up_BQ : list nat;
  down_BQ : list nat;
}.

Definition no_comms : comms :=
  {| WQ := []; up_LQ := []; down_LQ := []; up_BQ := []; down_BQ := [] |}.

(** [c[key].append(k)] for each of the five keys. *)
Definition append_WQ (k : nat) (c : comms) : comms :=
  {| WQ := WQ c ++ [k]; up_LQ := up_LQ c; down_LQ := down_LQ c;
     up_BQ := up_BQ c; down_BQ := down_BQ c |}.
Definition append_up_LQ (k : nat) (c : comms) : comms :=
  {| WQ := WQ c; up_LQ := up_LQ c ++ [k]; down_LQ := down_LQ c;
     up_BQ := up_BQ c; down_BQ := down_BQ c |}.
Definition append_down_LQ (k : nat) (c : comms) : comms :=
  {| WQ := WQ c; up_LQ := up_LQ c; down_LQ := down_LQ c ++ [k];
     up_BQ := up_BQ c; down_BQ := down_BQ c |}.
Definition append_up_BQ (k : nat) (c : comms) : comms :=
  {| WQ := WQ c; up_LQ := up_LQ c; down_LQ := down_LQ c;
     up_BQ := up_BQ c ++ [k]; down_BQ := down_BQ c |}.
Definition append_down_BQ (k : nat) (c : comms) : comms :=
  {| WQ := WQ c; up_LQ := up_LQ c; down_LQ := down_LQ c;
     up_BQ := up_BQ c; down_BQ := down_BQ c ++ [k] |}.

(** What running a process one step further gives. *)
Inductive outcome (A : Type) : Type :=
  | Stepped (a : A)
  | Blocked           (* a [get] on an empty queue *)
  | Returned          (* nothing left to run *)
  | Crashed (e : exn).
Arguments Stepped {A} a.
Arguments Blocked {A}.
Arguments Returned {A}.
Arguments Crashed {A} e.

Section Engine.
Context {V : Type} {AV : Arr V}.

(** [Queue_Array]: the queue of every channel [(sender, receiver)], with
    the messages in flight, oldest first. *)
Abbreviation queues := (gmap (nat * nat) (list V)).

(** [if (i,j) not in Queue_Array: Queue_Array[i,j] = man.Queue()]. *)
Definition new_queue (key : nat * nat) (Q : queues) : queues :=
  match Q !! key with
  | None => <[key:=[]]> Q
  | Some _ => Q
  end.

(** Lines 108-129: the pair [i > j].  The dictionaries [comms_i] and
    [comms_j] are the entries of [Comms_Data], updated in place. *)
Definition plan_pair (W L : matrix) (i j : nat)
    (st : queues * list comms) : res (queues * list comms) :=
  let '(Q, C) := st in
  w ← mget W i j;
  if negb (isclose0 w) then
    let Q := new_queue (j, i) (new_queue (i, j) Q) in
    l ← mget L i j;
    if negb (isclose0 l) then
      Ok (Q, alter (append_down_BQ i) j (alter (append_up_BQ j) i C))
    else
      Ok (Q, alter (append_WQ j) i (alter (append_WQ i) j C))
  else
    l ← mget L i j;
    if negb (isclose0 l) then
      let Q := new_queue (j, i) Q in
      Ok (Q, alter (append_down_LQ i) j (alter (append_up_LQ j) i C))
    else Ok (Q, C).

(** [requiredQueues(man, W, L)]. *)
Definition requiredQueues (W L : matrix) : res (queues * list comms) :=
  let n := length W in
  for_range n (fun i => for_range i (plan_pair W L i))
    (∅, replicate n no_comms).

(** *** The worker [subproblem] *)

(** The queue operations and the resolvent call of one round, in the
    order of lines 180-220. *)
Inductive action : Type :=
  | GetL (k : nat)     (* line 181 *)
  | GetB (k : nat)     (* lines 185-187 *)
  | ProxA              (* lines 190-194 *)
  | Tele               (* line 198 *)
  | Put (k : nat)      (* lines 203, 205, 209, 211 *)
  | GetW (k : nat).    (* lines 216, 220 *)

#[global] Instance action_eq_dec : EqDecision action.
Proof. solve_decision. Defined.

(** The loops of the body run over the lists of [comms_data], which
    nothing changes: the body is this sequence of actions, followed by
    the update of lines 223-232. *)
Definition round_prog (c : comms) (monitored : bool) : list action :=
  (GetL <$> up_LQ c) ++ (GetB <$> up_BQ c) ++ [ProxA]
  ++ (if monitored then [Tele] else [])
  ++ (Put <$> (down_LQ c ++ down_BQ c ++ WQ c ++ up_BQ c))
  ++ (GetW <$> (WQ c ++ down_BQ c)).

(** Where a worker is: at the test of the [while], at an action of the
    body (past the last one: at the update), or returned. *)
Inductive pc : Type :=
  | Head
  | At (pos : nat)
  | Done.

#[global] Instance pc_eq_dec : EqDecision pc.
Proof. solve_decision. Defined.

Record wstate : Type := {
  node : nat;                 (* [i] *)
  resolvent_ : resolvent V;   (* [problem_builder(data)] *)
  comms_data : comms;
  itr : nat;
  itrs : int;
  pc_ : pc;
  local_v : V;
  local_r : V;
  v_temp : V;
  w_value : V;
}.

(** What the workers share: the channels, and with a monitor its
    queues [queue['terminate']] and the value of [terminate]. *)
Record shared : Type := {
  queue : queues;
  monitor : option (list (list V) * int);
}.

Definition lift {A : Type} (r : res A) (k : A -> outcome (wstate * shared))
  : outcome (wstate * shared) :=
  match r with
  | Ok a => k a
  | Raise e => Crashed e
  end.

(** [queue[k,i].get()], then [k] on the message and the queues left. *)
Definition get (s : shared) (key : nat * nat)
    (k : V -> shared -> outcome (wstate * shared))
  : outcome (wstate * shared) :=
  match queue s !! key with
  | None => Crashed KeyError
  | Some [] => Blocked
  | Some (x :: q) =>
      k x {| queue := <[key:=q]> (queue s); monitor := monitor s |}
  end.

Definition set_pc (w : wstate) (p : pc) : wstate :=
  {| node := node w; resolvent_ := resolvent_ w; comms_data := comms_data w;
     itr := itr w; itrs := itrs w; pc_ := p;
     local_v := local_v w; local_r := local_r w; v_temp := v_temp w;
     w_value := w_value w |}.

Definition set_itrs (w : wstate) (n : int) : wstate :=
  {| node := node w; resolvent_ := resolvent_ w; comms_data := comms_data w;
     itr := itr w; itrs := n; pc_ := pc_ w;
     local_v := local_v w; local_r := local_r w; v_temp := v_temp w;
     w_value := w_value w |}.

(** The next state of the local arrays, at the next action. *)
Definition advance (w : wstate) (pos : nat) (r t x : V) : wstate :=
  {| node := node w; resolvent_ := resolvent_ w; comms_data := comms_data w;
     itr := itr w; itrs := itrs w; pc_ := At (S pos);
     local_v := local_v w; local_r := r; v_temp := t; w_value := x |}.

(** Lines 168-175: the test of the [while] and the early-termination
    check.  The monitor writes [terminate.value] once, so the reads of
    one pass see one value. *)
Definition loop_head (w : wstate) (s : shared) : wstate :=
  if bool_decide (Z.of_nat (itr w) < itrs w)%Z then
    match monitor s with
    | Some (_, t) =>
        if bool_decide (t <> 0%Z) then
          if bool_decide (t < Z.of_nat (itr w))%Z then set_pc w Done
          else set_pc (set_itrs w t) (At 0)
        else set_pc w (At 0)
    | None => set_pc w (At 0)
    end
  else set_pc w Done.

(** One step of a worker. *)
Definition worker_step (W L : matrix) (gamma alpha : Qc)
    (w : wstate) (s : shared) : outcome (wstate * shared) :=
  let i := node w in
  match pc_ w with
  | Done => Returned
  | Head => Stepped (loop_head w s, s)
  | At pos =>
      match round_prog (comms_data w) (bool_decide (is_Some (monitor s)))
              !! pos with
      | Some (GetL k) =>
          lift (mget L i k) (fun l =>
          get s (k, i) (fun x s' =>
          Stepped (advance w pos (vadd (local_r w) (smul l x)) (v_temp w)
                     (w_value w), s')))
      | Some (GetB k) =>
          get s (k, i) (fun temp s' =>
          lift (mget L i k) (fun l =>
          lift (mget W i k) (fun wik =>
          Stepped (advance w pos (vadd (local_r w) (smul l temp))
                     (vadd (v_temp w) (smul wik temp)) (w_value w), s'))))
      | Some ProxA =>
          let w_temp :=
            prox (resolvent_ w) (vadd (local_v w) (local_r w)) alpha in
          Stepped (advance w pos (local_r w) (v_temp w) w_temp, s)
      | Some Tele =>
          match monitor s with
          | None => Crashed KeyError
          | Some (tq, t) =>
              lift (index tq i) (fun q =>
              Stepped (advance w pos (local_r w) (v_temp w) (w_value w),
                       {| queue := queue s;
                          monitor :=
                            Some (<[i:=q ++ [w_value w]]> tq, t) |}))
          end
      | Some (Put k) =>
          match queue s !! (i, k) with
          | None => Crashed KeyError
          | Some q =>
              Stepped (advance w pos (local_r w) (v_temp w) (w_value w),
                       {| queue := <[(i, k):=q ++ [w_value w]]> (queue s);
                          monitor := monitor s |})
          end
      | Some (GetW k) =>
          lift (mget W i k) (fun wik =>
          get s (k, i) (fun x s' =>
          Stepped (advance w pos (local_r w)
                     (vadd (v_temp w) (smul wik x)) (w_value w), s')))
      | None =>
          lift (mget W i i) (fun wii =>
          let v_update :=
            smul gamma (vadd (smul wii (w_value w)) (v_temp w)) in
          Stepped ({| node := i; resolvent_ := resolvent_ w;
                      comms_data := comms_data w;
                      itr := S (itr w); itrs := itrs w; pc_ := Head;
                      local_v := vsub (local_v w) v_update;
                      local_r := vzero; v_temp := vzero;
                      w_value := w_value w |}, s))
      end
  end.

(** Lines 241-243: what a returned worker hands back. *)
Definition worker_result (w : wstate) : result V :=
  {| res_x := w_value w; res_v := local_v w |}.

(** *** The pool of workers *)

Record sys : Type := {
  workers : list wstate;
  channels : shared;
}.

(** Worker [i] takes its next step. *)
Definition sys_exec (W L : matrix) (gamma alpha : Qc) (i : nat) (s : sys)
  : outcome sys :=
  match workers s !! i with
  | None => Returned
  | Some w =>
      match worker_step W L gamma alpha w (channels s) with
      | Stepped (w', sh') =>
          Stepped {| workers := <[i:=w']> (workers s); channels := sh' |}
      | Blocked => Blocked
      | Returned => Returned
      | Crashed e => Crashed e
      end
  end.

(** The processes run in any order: a step of the pool is a step of
    one of its workers. *)
Definition sys_step (W L : matrix) (gamma alpha : Qc) (s s' : sys) : Prop :=
  exists i, sys_exec W L gamma alpha i s = Stepped s'.

(** One particular schedule: the first worker of [cands] that can
    move does, [fuel] times. *)
Fixpoint first_step (W L : matrix) (gamma alpha : Qc) (cands : list nat)
    (s : sys) : option sys :=
  match cands with
  | [] => None
  | i :: cands' =>
      match sys_exec W L gamma alpha i s with
      | Stepped s' => Some s'
      | _ => first_step W L gamma alpha cands' s
      end
  end.

Fixpoint run (W L : matrix) (gamma alpha : Qc) (fuel : nat) (s : sys) : sys :=
  match fuel with
  | O => s
  | S fuel' =>
      match first_step W L gamma alpha (seq 0 (length (workers s))) s with
      | Some s' => run W L gamma alpha fuel' s'
      | None => s
      end
  end.

(** *** The driver [parallelAlgorithm], up to the start of the pool *)

(** [getWarmPrimal] of [oars.algorithms.helpers] is not among the
    sources: it is a parameter. *)
Variable getWarmPrimal : V -> matrix -> list V.

(** Lines 44-51: the initial lifted point. *)
Definition parallel_seed (n : nat) (L : matrix) (warmstartprimal : option V)
    (warmstartdual : option (list V)) : res (list V) :=
  let all_v := match warmstartprimal with
               | Some xbar => getWarmPrimal xbar L
               | None => replicate n vzero
               end in
  match warmstartdual with
  | Some u =>
      comprehension (seq 0 n)
        (fun i => a ← index all_v i; b ← index u i; Ok (vadd a b))
  | None => Ok all_v
  end.

(** Lines 158-167: the state in which [subproblem] enters its loop. *)
Definition worker_init (i : nat) (r : resolvent V) (v0 : V) (c : comms)
    (itrs0 : int) : wstate :=
  {| node := i; resolvent_ := r; comms_data := c; itr := O; itrs := itrs0;
     pc_ := Head; local_v := v0; local_r := vzero; v_temp := vzero;
     w_value := vzero |}.

(** Lines 28-59: the pool as it starts.  [vartol] only matters here by
    being given or not; [mp.Pool(processes=0)] raises. *)
Definition parallel_init {D : Type} (n : nat) (data : list D)
    (resolvents : list (D -> resolvent V)) (W Z : matrix)
    (warmstartprimal : option V) (warmstartdual : option (list V))
    (itrs0 : int) (monitored : bool) : res sys :=
  let L := mneg (tril1 Z) in
  '(Q, C) ← requiredQueues W L;
  let mon := if monitored then Some (replicate n [], 0%Z) else None in
  all_v ← parallel_seed n L warmstartprimal warmstartdual;
  _ ← (if bool_decide (n = O) then Raise ValueError else Ok ());
  ws ← comprehension (seq 0 n)
         (fun i => d ← index data i; b ← index resolvents i;
                   v0 ← index all_v i; c ← index C i;
                   Ok (worker_init i (b d) v0 c itrs0));
  Ok {| workers := ws; channels := {| queue := Q; monitor := mon |} |}.

(** Lines 59-73: the records of the returned workers and their mean. *)
Definition parallel_results (n : nat) (s : sys) : V * list (result V) :=
  let results := worker_result <$> workers s in
  (vdiv (py_sum (res_x <$> results)) n, results).

(** *** The monitor [evaluate] *)

(** [np.linalg.norm] returns a float: a parameter of the model. *)
Variable norm : V -> Qc.

(** [[q.get() for q in tq]] over the first [n] queues: the messages
    and the queues left, [Blocked] when a queue has run empty. *)
Fixpoint get_round (n : nat) (tq : list (list V))
  : outcome (list V * list (list V)) :=
  match n with
  | O => Stepped ([], tq)
  | S n' =>
      match tq with
      | [] => Crashed IndexError
      | [] :: _ => Blocked
      | (x :: q) :: tq' =>
          match get_round n' tq' with
          | Stepped (xs, tq'') => Stepped (x :: xs, q :: tq'')
          | Blocked => Blocked
          | Returned => Returned
          | Crashed e => Crashed e
          end
      end
  end.

(** Line 270: [sum(np.linalg.norm(w[i]-prev_w[i]) for i in range(n))]. *)
Definition delta (w prev_w : list V) : Qc :=
  foldl Qcplus 0 (zip_with (fun a b => norm (vsub a b)) w prev_w).

(** Lines 265-282.  The loop counts [itr] up to the bound by one per
    pass: [todo] is the number of passes left.  The result is the value
    of [terminate] and the queues when [evaluate] returns. *)
Fixpoint monitor_loop (todo : nat) (vartol : Qc) (n : nat) (itr0 : int)
    (varcounter : nat) (w : list V) (tq : list (list V)) (terminate : int)
  : outcome (int * list (list V)) :=
  match todo with
  | O => Stepped (terminate, tq)
  | S todo' =>
      match get_round n tq with
      | Stepped (w', tq') =>
          if bool_decide (delta w' w < vartol) then
            if bool_decide (10 <= S varcounter)%nat
            then Stepped ((itr0 + 10)%Z, tq')
            else monitor_loop todo' vartol n (itr0 + 1)%Z (S varcounter)
                   w' tq' terminate
          else monitor_loop todo' vartol n (itr0 + 1)%Z O w' tq' terminate
      | Blocked => Blocked
      | Returned => Returned
      | Crashed e => Crashed e
      end
  end.

(** [evaluate(n, terminateQueue, terminate, vartol, itrs)]. *)
Definition evaluate (n : nat) (terminateQueue : list (list V))
    (terminate : int) (vartol : Qc) (itrs0 : int)
  : outcome (int * list (list V)) :=
  match get_round n terminateQueue with
  | Stepped (w, tq) =>
      monitor_loop (Z.to_nat (itrs0 - 10)) vartol n 0%Z O w tq terminate
  | Blocked => Blocked
  | Returned => Returned
  | Crashed e => Crashed e
  end.

End Engine.
End Parallel.

(** ** tests/proxs.py: the other resolvents

    [reducedCone] and [psdCone] call [np.linalg.eigh] and are left
    out. *)

(** [traceHalfspaceIndicator]: the projection on [{X : tr(A X) >= 0}]. *)
Module traceHalfspaceIndicator.

Record t : Type := {
  A : matrix;
  U : matrix;
}.

(** [scale]: [A/np.linalg.norm(A, 'fro')**2]. *)
Definition scale (A0 : matrix) : matrix :=
  Proxs.mscale (/ Proxs.fro2 A0) A0.

(** [__init__]. *)
Definition init (A0 : matrix) : t := {| A := A0; U := scale A0 |}.

(** [prox(X, t)]. *)
Definition prox (self : t) (X : matrix) (step : Qc) : matrix :=
  let ax := Proxs.trace (Proxs.matmul (A self) X) in
  if bool_decide (0 <= ax) then X
  else Proxs.msub X (Proxs.mscale ax (U self)).

End traceHalfspaceIndicator.

(** [linearSubdiff]: the resolvent of the constant operator [A]. *)
Module linearSubdiff.
Section linearSubdiff.
Context {V : Type} {AV : Arr V}.

Record t : Type := { A : V }.

(** [prox(X, t)]: [X - t*self.A]. *)
Definition prox (self : t) (X : V) (step : Qc) : V :=
  vsub X (smul step (A self)).

End linearSubdiff.
Arguments t V : clear implicits.
End linearSubdiff.

(** [absprox]: the L1 norm around [data].  Python's [max] takes the
    truth value of a comparison of arrays, so the class works on arrays
    of a single element, which stand here for their element. *)
Module absprox.

Record t : Type := { data : Qc }.

(** [abs(u)], [np.sign(u)] and Python's [max(a, b)], which returns [b]
    when [b > a] and [a] otherwise. *)
Definition abs (u : Qc) : Qc := if bool_decide (0 <= u) then u else - u.
Definition sign (u : Qc) : Qc :=
  if bool_decide (0 < u) then 1 else if bool_decide (u < 0) then - (1) else 0.
Definition max (a b : Qc) : Qc := if bool_decide (a < b) then b else a.

(** [__call__(x)]: [sum(abs(x - data))], over the single element. *)
Definition call (self : t) (x : Qc) : Qc := 0 + abs (x - data self).

(** [prox(y, tau)]: [max(abs(u)-tau, 0)*np.sign(u) + self.data]. *)
Definition prox (self : t) (y tau : Qc) : Qc :=
  let u := y - data self in
  max (abs u - tau) 0 * sign u + data self.

End absprox.

(** [sumOne]: scales the leading diagonal block to sum one.  The
    arrays are two-dimensional; an array without rows has no columns
    here. *)
Module sumOne.

Record t : Type := {
  shape : nat * nat;
  n : nat;
}.

(** [__init__]: [self.n = dim[0]//2]. *)
Definition init (dim : nat * nat) : t :=
  {| shape := dim; n := (dim.1 `div` 2)%nat |}.

(** [np.zeros(shape)] and [M.shape]. *)
Definition zeros (dim : nat * nat) : matrix :=
  replicate dim.1 (replicate dim.2 0).
Definition shape_of (M : matrix) : nat * nat :=
  (length M, length (default [] (head M))).

(** [M[i,j] = x]. *)
Definition mset (M : matrix) (i j : nat) (x : Qc) : res matrix :=
  row ← index M i;
  row' ← assign row j x;
  assign M i row'.

(** numpy's broadcasting of one dimension: equal lengths, or one of
    them is 1 and its only index serves every position. *)
Definition bdim (a b : nat) : res nat :=
  if decide (a = b) then Ok a
  else if decide (a = 1%nat) then Ok b
  else if decide (b = 1%nat) then Ok a
  else Raise ValueError.
Definition bidx (len i : nat) : nat := if decide (len = 1%nat) then O else i.

(** [X + Y]. *)
Definition madd (X Y : matrix) : res matrix :=
  let '(r1, c1) := shape_of X in
  let '(r2, c2) := shape_of Y in
  r ← bdim r1 r2;
  c ← bdim c1 c2;
  Ok ((fun i =>
         (fun j => entry X (bidx r1 i) (bidx c1 j)
                   + entry Y (bidx r2 i) (bidx c2 j)) <$> seq 0 c)
      <$> seq 0 r).

(** [X/s]. *)
Definition mdiv (X : matrix) (s : Qc) : matrix :=
  (fun row : list Qc => (fun x : Qc => x / s) <$> row) <$> X.

(** [prox(X, t)]. *)
Definition prox (self : t) (X : matrix) (step : Qc) : res matrix :=
  diag ← comprehension (seq 0 (n self)) (fun i => mget X i i);
  let s := foldl Qcplus 0 diag in
  if decide (s = 0) then
    Y ← for_range (n self)
          (fun i Y => mset Y i i (1 / of_nat (n self)))
          (zeros (shape self));
    madd X Y
  else Ok (mdiv X s).

End sumOne.

(** [M.shape = (r, c)]. *)
Definition has_shape (r c : nat) (M : matrix) : Prop :=
  length M = r /\ Forall (fun row => length row = c) M.

(** ** The recurrences, as the specification writes them *)

#[global] Instance arr_inhabited {V : Type} {AV : Arr V} : Inhabited V :=
  populate vzero.

(** [Σ_{j<n} f j], in the order of the indices. *)
Definition vsumn {V : Type} {AV : Arr V} (n : nat) (f : nat -> V) : V :=
  py_sum (f <$> seq 0 n).

#[global] Instance resolvent_inhabited {V : Type} : Inhabited (resolvent V) :=
  populate {| prox := fun y _ => y |}.

Module Recurrence.
Section Recurrence.
Context {V : Type} {AV : Arr V}.

(** [xᵢ = prox(vᵢ − Σ_{j<i} Z[i,j]·xⱼ, α)], with the new [xⱼ] on the right. *)
Definition sweep_eq (rs : list (resolvent V)) (Z : matrix) (alpha : Qc)
    (all_v all_x' : list V) (i : nat) : Prop :=
  all_x' !!! i
  = prox (rs !!! i)
      (vsub (all_v !!! i)
         (vsumn i (fun j => smul (entry Z i j) (all_x' !!! j)))) alpha.

(** [vᵢ' = vᵢ − γ·Σ_{j<n} W[i,j]·xⱼ], with the new [xⱼ]. *)
Definition consensus_eq (W : matrix) (gamma : Qc) (n : nat)
    (all_v all_x' all_v' : list V) (i : nat) : Prop :=
  all_v' !!! i
  = vsub (all_v !!! i)
      (smul gamma (vsumn n (fun j => smul (entry W i j) (all_x' !!! j)))).

(** [x̄ = (1/n)·Σᵢ xᵢ]. *)
Definition mean (n : nat) (all_x : list V) : V :=
  smul (/ of_nat n) (vsumn n (fun i => all_x !!! i)).

End Recurrence.
End Recurrence.

(** [tests/proxs.py], [quadprox]: [(y + tau*data)/(1 + tau)]. *)
Definition quadprox {V : Type} {AV : Arr V} (data : V) : resolvent V :=
  {| prox := fun y tau => smul (/ (1 + tau)) (vadd y (smul tau data)) |}.

(** ** The planner's table, as the specification writes it *)

Module Plan.
Import Parallel.

#[global] Instance comms_inhabited : Inhabited comms := populate no_comms.

(** The five classes of peers. *)
Inductive cls : Type := cWQ | cUpL | cDownL | cUpB | cDownB.

#[global] Instance cls_eq_dec : EqDecision cls.
Proof. solve_decision. Defined.

Definition peers (k : cls) (c : comms) : list nat :=
  match k with
  | cWQ => WQ c
  | cUpL => up_LQ c
  | cDownL => down_LQ c
  | cUpB => up_BQ c
  | cDownB => down_BQ c
  end.

(** The coupling of the pair [i > j], read off [W[i,j]] and [L[i,j]]
    with the tolerance of [isclose0]. *)
Inductive link : Type := NoLink | WLink | LLink | BLink.

Definition classify (W L : matrix) (i j : nat) : link :=
  match isclose0 (entry W i j), isclose0 (entry L i j) with
  | true, true => NoLink
  | false, true => WLink
  | true, false => LLink
  | false, false => BLink
  end.

(** The class in which node [a] holds its peer [b], if any. *)
Definition cls_of (W L : matrix) (a b : nat) : option cls :=
  if bool_decide (b < a)%nat then
    match classify W L a b with
    | NoLink => None
    | WLink => Some cWQ
    | LLink => Some cUpL
    | BLink => Some cUpB
    end
  else if bool_decide (a < b)%nat then
    match classify W L b a with
    | NoLink => None
    | WLink => Some cWQ
    | LLink => Some cDownL
    | BLink => Some cDownB
    end
  else None.

(** The channel from [a] to [b] is needed: upwards (to a larger index)
    for any coupling, downwards for a [W] coupling only. *)
Definition channel (W L : matrix) (a b : nat) : bool :=
  if bool_decide (a < b)%nat then
    negb (isclose0 (entry W b a)) || negb (isclose0 (entry L b a))
  else if bool_decide (b < a)%nat then negb (isclose0 (entry W a b))
  else false.

(** The rule of existence as the specification words it: a channel
    from [a] to [b] whenever [W[a,b]], [L[a,b]] or [L[b,a]] is nonzero
    within the tolerance. *)
Definition channel_by_support (W L : matrix) (a b : nat) : bool :=
  negb (isclose0 (entry W a b)) || negb (isclose0 (entry L a b))
  || negb (isclose0 (entry L b a)).

End Plan.

(** ** The monitor's rounds, as the specification writes them *)

Module Streak.
Section Streak.
Context {V : Type} {AV : Arr V}.
Variable norm : V -> Qc.

(** The [j]-th sample of every node, for the samples [tq] that the
    nodes publish. *)
Definition column (tq : list (list V)) (j : nat) : list V :=
  (fun q : list V => q !!! j) <$> tq.

(** Round [k] compares sample [k + 1] with sample [k]:
    [δᵏ = Σᵢ ‖wᵢ − wᵢ previous‖ < vartol]. *)
Definition quiet (vartol : Qc) (tq : list (list V)) (k : nat) : bool :=
  bool_decide
    (Parallel.delta norm (column tq (S k)) (column tq k) < vartol).

(** The streak at round [k]: the number of consecutive quiet rounds
    that end with round [k]. *)
Fixpoint streak (q : nat -> bool) (k : nat) : nat :=
  if q k then S (match k with O => O | S k' => streak q k' end) else O.

End Streak.
End Streak.

(** The dual warm start has an entry for every node. *)
Definition dual_fits {V : Type} (n : nat) (wd : option (list V)) : Prop :=
  match wd with
  | Some u => (n <= length u)%nat
  | None => True
  end.

(** ** Serial and parallel runs side by side *)

Module Agreement.
Import Parallel.
Section Agreement.
Context {V : Type} {AV : Arr V}.

(** The resolvents that the workers construct. *)
Definition constructed {D : Type} (resolvents : list (D -> resolvent V))
    (data : list D) : list (resolvent V) :=
  zip_with (fun build d => build d) resolvents data.

(** Every worker has returned. *)
Definition finished (s : sys (V:=V)) : Prop :=
  Forall (fun w => pc_ w = Done) (workers s).

(** The worker has passed line 194 of the round it is in. *)
Definition past_prox (w : wstate (V:=V)) : bool :=
  match pc_ w with
  | At pos =>
      bool_decide
        (ProxA ∈ take pos (round_prog (comms_data w) false))
  | _ => false
  end.

(** The worker's [local_v] is the serial [v] of its node after the
    iterations it has completed, and its [w_value] is the serial [x] of
    its node: of the iteration it is in once it has called [prox], of
    the iterations completed before that. *)
Definition agrees (n : nat) (rs : list (resolvent V)) (W Z : matrix)
    (gamma alpha : Qc) (v0 : list V) (w : wstate) : Prop :=
  exists xs vs xs' vs',
    Serial.serial_iterates (itr w) n rs W Z gamma alpha
      (replicate n vzero, v0) = Ok (xs, vs) /\
    Serial.serial_iterates (S (itr w)) n rs W Z gamma alpha
      (replicate n vzero, v0) = Ok (xs', vs') /\
    local_v w = vs !!! node w /\
    w_value w = (if past_prox w then xs' else xs) !!! node w.

(** The entries that matter are exactly zero or beyond the tolerance
    of [isclose0]. *)
Definition clear_cut (n : nat) (M : matrix) : Prop :=
  forall i j, (i < n)%nat -> (j < n)%nat ->
    isclose0 (entry M i j) = true -> entry M i j = 0.

End Agreement.
End Agreement.

(** ** Concrete runs *)

Module Examples.

(** [z] and [1/2] as floats. *)
Definition q (z : Z) : Qc := Q2Qc (inject_Z z).
Definition half : Qc := Q2Qc (1 # 2).

(** Scenario S1 of the specification: Douglas-Rachford on two nodes,
    with [L = [[0,0],[2,0]]], that is [Z = [[0,0],[-2,0]]], and two
    quadratic resolvents on arrays of shape [(2,)]. *)
Definition W_dr : matrix := [[q 1; q (-1)]; [q (-1); q 1]].
Definition Z_dr : matrix := [[q 0; q 0]; [q (-2); q 0]].
Definition data_dr : list (Qc * Qc) := [(q 1, q 0); (q 0, q 1)].
Definition builders_dr : list (Qc * Qc -> resolvent (Qc * Qc)) :=
  [quadprox; quadprox].
Definition rs_dr : list (resolvent (Qc * Qc)) :=
  [quadprox (q 1, q 0); quadprox (q 0, q 1)].
Definition zeros_dr : list (Qc * Qc) := [(q 0, q 0); (q 0, q 0)].

(** A [W] that is not symmetric, and a [Z] with entries on and above
    its diagonal. *)
Definition W_skew : matrix := [[q 0; q 1]; [q 0; q 0]].
Definition Z_full : matrix := [[q 5; q 7]; [q 0; q 3]].
Definition Z_zero : matrix := [[q 0; q 0]; [q 0; q 0]].

(** A symmetric [W] with zero row sums whose entries are within the
    tolerance of [isclose0], and payloads that outweigh them. *)
Definition tiny : Qc := Q2Qc (1 # 1000000000).
Definition W_tiny : matrix := [[tiny; - tiny]; [- tiny; tiny]].
Definition data_big : list (Qc * Qc) :=
  [(q 0, q 0); (q 10000000000, q 0)].
Definition rs_big : list (resolvent (Qc * Qc)) :=
  [quadprox (q 0, q 0); quadprox (q 10000000000, q 0)].

(** A pair coupled by [L] alone. *)
Definition L_only : matrix := [[q 0; q 0]; [q 1; q 0]].

(** Stand-ins for the helpers that are not among the sources: a
    checker that never stops the run, and a warm-start routine. *)
Definition never_stop (cs : unit) (all_x : list (Qc * Qc)) : bool * unit :=
  (false, cs).
Definition new_never_stop (all_x : list (Qc * Qc)) : unit := tt.
Definition warm_stub (xbar : Qc * Qc) (L : matrix) : list (Qc * Qc) :=
  (fun _ => xbar) <$> L.

(** The norm of an array of shape [()]: the absolute value. *)
Definition abs_norm (x : Qc) : Qc := if bool_decide (0 <= x) then x else - x.

(** A matrix that is not symmetric, for the trace projection. *)
Definition A_skew : matrix := [[q 0; q 1]; [q 0; q 0]].
Definition A_id : matrix := [[q 1; q 0]; [q 0; q 1]].

End Examples.

(** * Proofs *)

Import Serial Parallel Recurrence Plan Streak Agreement.

(** * The exception monad *)

Lemma bind_Ok {A B : Type} (m : res A) (f : A -> res B) (b : B) :
  m ≫= f = Ok b <-> exists a, m = Ok a /\ f a = Ok b.
Proof.
  destruct m as [a|e]; simpl; split.
  - intros H. by exists a.
  - by intros (a' & [= ->] & H).
  - done.
  - by intros (a' & [=] & _).
Qed.

Lemma index_Ok {A : Type} (l : list A) (i : nat) (a : A) :
  l !! i = Some a -> index l i = Ok a.
Proof. unfold index. by intros ->. Qed.

Lemma index_lt {A : Type} (l : list A) (i : nat) :
  (i < length l)%nat -> exists a, l !! i = Some a /\ index l i = Ok a.
Proof.
  intros Hi. destruct (lookup_lt_is_Some_2 l i Hi) as [a Ha].
  exists a. split; [done|]. by apply index_Ok.
Qed.

Lemma index_total `{Inhabited A} (l : list A) (i : nat) :
  (i < length l)%nat -> index l i = Ok (l !!! i).
Proof.
  intros Hi. apply index_Ok. by apply list_lookup_lookup_total_lt.
Qed.

Lemma assign_Ok {A : Type} (l : list A) (i : nat) (x : A) :
  (i < length l)%nat -> assign l i x = Ok (<[i:=x]> l).
Proof. intros Hi. unfold assign. by rewrite bool_decide_eq_true_2. Qed.

Lemma mget_entry (n : nat) (M : matrix) (i j : nat) :
  square n M -> (i < n)%nat -> (j < n)%nat -> mget M i j = Ok (entry M i j).
Proof.
  intros [Hlen Hrows] Hi Hj. unfold mget, entry.
  destruct (lookup_lt_is_Some_2 M i) as [row Hrow]; [lia|].
  rewrite (index_Ok _ _ _ Hrow), Hrow. simpl.
  eapply Forall_lookup_1 in Hrows; [|done].
  destruct (lookup_lt_is_Some_2 row j) as [x Hx]; [lia|].
  by rewrite (index_Ok _ _ _ Hx), Hx.
Qed.

Lemma comprehension_fmap {A B : Type} (l : list A) (f : A -> res B)
    (g : A -> B) :
  (forall a, a ∈ l -> f a = Ok (g a)) -> comprehension l f = Ok (g <$> l).
Proof.
  induction l as [|a l IH]; intros Hf; simpl; [done|].
  rewrite Hf by left. simpl. rewrite IH; [done|].
  intros a' Ha'. apply Hf. by right.
Qed.

Lemma for_each_inv {A S : Type} (P : list A -> S -> Prop)
    (body : A -> S -> res S) (l : list A) (s : S) :
  P [] s ->
  (forall pre a post s0, l = pre ++ a :: post -> P pre s0 ->
     exists s1, body a s0 = Ok s1 /\ P (pre ++ [a]) s1) ->
  exists s', for_each l body s = Ok s' /\ P l s'.
Proof.
  revert P s. induction l as [|a l IH]; intros P s H0 Hstep; simpl.
  - by exists s.
  - destruct (Hstep [] a l s eq_refl H0) as (s1 & -> & H1). simpl.
    apply (IH (fun pre => P (a :: pre))); [done|].
    intros pre a' post s0 -> HP.
    apply (Hstep (a :: pre) a' post s0); done.
Qed.

Lemma for_range_inv {S : Type} (P : nat -> S -> Prop) (n : nat)
    (body : nat -> S -> res S) (s : S) :
  P O s ->
  (forall i s0, (i < n)%nat -> P i s0 ->
     exists s1, body i s0 = Ok s1 /\ P (Datatypes.S i) s1) ->
  exists s', for_range n body s = Ok s' /\ P n s'.
Proof.
  intros H0 Hstep. unfold for_range.
  destruct (for_each_inv (fun pre s0 => pre = seq 0 (length pre) /\ P (length pre) s0)
              body (seq 0 n) s) as (s' & Hrun & _ & HP).
  - done.
  - intros pre a post s0 Hsplit [Hpre HP].
    assert (a = length pre /\ (length pre < n)%nat) as [-> Hlt].
    { assert (seq 0 n !! length pre = Some a) as Ha.
      { rewrite Hsplit. by rewrite list_lookup_middle. }
      apply lookup_seq in Ha. lia. }
    destruct (Hstep _ s0 Hlt HP) as (s1 & Hb & H1).
    exists s1. split; [done|]. rewrite length_app. simpl.
    rewrite Nat.add_1_r. split; [|done].
    rewrite seq_S. simpl. by rewrite <- Hpre.
  - exists s'. split; [done|]. by rewrite length_seq in HP.
Qed.

(** * Arrays *)

Section Arrays.
Context {V : Type} {AV : Arr V}.

Lemma vadd_zero_r (x : V) : vadd x vzero = x.
Proof. rewrite vadd_comm. apply vadd_zero. Qed.

Lemma vadd_cancel_l (x y z : V) : vadd x y = vadd x z -> y = z.
Proof.
  intros H.
  assert (vadd (vopp x) (vadd x y) = vadd (vopp x) (vadd x z)) as H'
    by by rewrite H.
  by rewrite !vadd_assoc, !(vadd_comm (vopp x) x), !vadd_opp, !vadd_zero in H'.
Qed.

Lemma smul_zero_l (x : V) : smul 0 x = vzero.
Proof.
  apply (vadd_cancel_l (smul 0 x)).
  rewrite <- smul_plus, vadd_zero_r. f_equal; ring.
Qed.

Lemma smul_zero_r (q : Qc) : smul q vzero = vzero.
Proof.
  apply (vadd_cancel_l (smul q vzero)).
  by rewrite <- smul_vadd, !vadd_zero_r.
Qed.

Lemma smul_opp (q : Qc) (x : V) : smul (- q) x = vopp (smul q x).
Proof.
  apply (vadd_cancel_l (smul q x)).
  rewrite <- smul_plus, vadd_opp.
  replace (q + - q) with 0 by ring. apply smul_zero_l.
Qed.

Lemma vopp_vadd (x y : V) : vopp (vadd x y) = vadd (vopp x) (vopp y).
Proof.
  apply (vadd_cancel_l (vadd x y)). rewrite vadd_opp.
  rewrite vadd_assoc, <- (vadd_assoc x y), (vadd_comm y), vadd_assoc.
  by rewrite vadd_opp, vadd_zero, vadd_opp.
Qed.

Lemma vopp_zero : vopp vzero = (vzero : V).
Proof. apply (vadd_cancel_l vzero). by rewrite vadd_opp, vadd_zero. Qed.

Lemma smul_vopp (q : Qc) (x : V) : smul q (vopp x) = vopp (smul q x).
Proof.
  apply (vadd_cancel_l (smul q x)).
  by rewrite <- smul_vadd, !vadd_opp, smul_zero_r.
Qed.

Lemma py_sum_snoc (l : list V) (x : V) : py_sum (l ++ [x]) = vadd (py_sum l) x.
Proof. unfold py_sum. by rewrite foldl_app. Qed.

Lemma foldl_vadd (a : V) (l : list V) :
  foldl vadd a l = vadd a (py_sum l).
Proof.
  unfold py_sum. revert a. induction l as [|x l IH]; intros a; simpl.
  - by rewrite vadd_zero_r.
  - rewrite IH, (IH (vadd vzero x)), vadd_zero. symmetry. apply vadd_assoc.
Qed.

Lemma py_sum_cons (x : V) (l : list V) : py_sum (x :: l) = vadd x (py_sum l).
Proof.
  unfold py_sum at 1. simpl. by rewrite foldl_vadd, vadd_zero.
Qed.

Lemma py_sum_app (l1 l2 : list V) :
  py_sum (l1 ++ l2) = vadd (py_sum l1) (py_sum l2).
Proof.
  unfold py_sum at 1. rewrite foldl_app. fold (py_sum l1).
  apply foldl_vadd.
Qed.

Lemma py_sum_singleton (x : V) : py_sum [x] = x.
Proof. by rewrite py_sum_cons, vadd_zero_r. Qed.

Lemma py_sum_perm (l1 l2 : list V) : l1 ≡ₚ l2 -> py_sum l1 = py_sum l2.
Proof.
  induction 1 as [|x l1 l2 _ IH|x y l|l1 l2 l3 _ IH1 _ IH2].
  - done.
  - by rewrite !py_sum_cons, IH.
  - rewrite !py_sum_cons, !vadd_assoc. f_equal. apply vadd_comm.
  - by rewrite IH1.
Qed.

Lemma vsumn_0 (f : nat -> V) : vsumn 0 f = vzero.
Proof. done. Qed.

Lemma vsumn_S (n : nat) (f : nat -> V) :
  vsumn (S n) f = vadd (vsumn n f) (f n).
Proof.
  unfold vsumn. rewrite seq_S, fmap_app.
  change (f <$> [Nat.add 0 n]) with [f n]. apply py_sum_snoc.
Qed.

Lemma vsumn_ext (n : nat) (f g : nat -> V) :
  (forall i, (i < n)%nat -> f i = g i) -> vsumn n f = vsumn n g.
Proof.
  induction n as [|n IH]; intros Hfg; [done|].
  rewrite !vsumn_S, IH, Hfg by (intros; try apply Hfg; lia). done.
Qed.

Lemma vsumn_zero (n : nat) : vsumn n (fun _ => vzero : V) = vzero.
Proof.
  induction n as [|n IH]; [done|]. by rewrite vsumn_S, IH, vadd_zero.
Qed.

Lemma vsumn_vadd (n : nat) (f g : nat -> V) :
  vsumn n (fun i => vadd (f i) (g i)) = vadd (vsumn n f) (vsumn n g).
Proof.
  induction n as [|n IH]; [by rewrite !vsumn_0, vadd_zero|].
  rewrite !vsumn_S, IH. rewrite !vadd_assoc. f_equal.
  rewrite <- !vadd_assoc. f_equal. apply vadd_comm.
Qed.

Lemma vsumn_vsub (n : nat) (f g : nat -> V) :
  vsumn n (fun i => vsub (f i) (g i)) = vsub (vsumn n f) (vsumn n g).
Proof.
  induction n as [|n IH].
  - rewrite !vsumn_0. unfold vsub. by rewrite vopp_zero, vadd_zero.
  - rewrite !vsumn_S, IH. unfold vsub. rewrite vopp_vadd, !vadd_assoc.
    f_equal. rewrite <- !vadd_assoc. f_equal. apply vadd_comm.
Qed.

Lemma vsumn_vopp (n : nat) (f : nat -> V) :
  vsumn n (fun i => vopp (f i)) = vopp (vsumn n f).
Proof.
  induction n as [|n IH]; [by rewrite !vsumn_0, vopp_zero|].
  by rewrite !vsumn_S, IH, vopp_vadd.
Qed.

Lemma vsumn_smul (n : nat) (q : Qc) (f : nat -> V) :
  vsumn n (fun i => smul q (f i)) = smul q (vsumn n f).
Proof.
  induction n as [|n IH]; [by rewrite !vsumn_0, smul_zero_r|].
  by rewrite !vsumn_S, IH, smul_vadd.
Qed.

Lemma vsumn_coeff (n : nat) (c : nat -> Qc) (x : V) :
  vsumn n (fun i => smul (c i) x) = smul (sumn n c) x.
Proof.
  induction n as [|n IH]; simpl; [by rewrite vsumn_0, smul_zero_l|].
  by rewrite vsumn_S, IH, smul_plus.
Qed.

Lemma vsumn_exchange (n m : nat) (f : nat -> nat -> V) :
  vsumn n (fun i => vsumn m (fun j => f i j))
  = vsumn m (fun j => vsumn n (fun i => f i j)).
Proof.
  induction n as [|n IH].
  - rewrite vsumn_0. symmetry. apply vsumn_zero.
  - rewrite vsumn_S, IH, <- vsumn_vadd. apply vsumn_ext.
    intros j _. by rewrite vsumn_S.
Qed.

Lemma vsumn_lookup (l : list V) :
  vsumn (length l) (fun i => l !!! i) = py_sum l.
Proof.
  induction l as [|x l IH] using rev_ind; [done|].
  rewrite length_app. simpl. rewrite Nat.add_1_r, vsumn_S, py_sum_snoc.
  rewrite list_lookup_total_middle by done. f_equal.
  rewrite <- IH. apply vsumn_ext. intros i Hi.
  by rewrite lookup_total_app_l.
Qed.

End Arrays.

Section SerialFacts.
Context {V : Type} {AV : Arr V}.

Lemma sweep_node_ok (n : nat) (Z : matrix) (rs : list (resolvent V))
    (alpha : Qc) (all_v all_x : list V) (i : nat) :
  square n Z -> length rs = n -> length all_v = n -> length all_x = n ->
  (i < n)%nat ->
  sweep_node Z rs alpha all_v i all_x
  = Ok (<[i:=prox (rs !!! i)
               (vsub (all_v !!! i)
                  (vsumn i (fun j => smul (entry Z i j) (all_x !!! j))))
               alpha]> all_x).
Proof.
  intros HZ Hrs Hv Hx Hi. unfold sweep_node.
  rewrite !index_total by lia. simpl.
  rewrite (comprehension_fmap _ _
             (fun j => smul (entry Z i j) (all_x !!! j))).
  - simpl. apply assign_Ok. lia.
  - intros j Hj. apply elem_of_seq in Hj.
    rewrite (mget_entry n), index_total by (done || lia). done.
Qed.

Lemma consensus_node_ok (n : nat) (W : matrix) (gamma : Qc)
    (all_x all_v : list V) (i : nat) :
  square n W -> length all_x = n -> length all_v = n -> (i < n)%nat ->
  consensus_node W gamma n all_x i all_v
  = Ok (<[i:=vsub (all_v !!! i)
               (smul gamma
                  (vsumn n (fun j => smul (entry W i j) (all_x !!! j))))]>
          all_v).
Proof.
  intros HW Hx Hv Hi. unfold consensus_node.
  rewrite (comprehension_fmap _ _
             (fun j => smul (entry W i j) (all_x !!! j))).
  - simpl. rewrite index_total by lia. simpl. apply assign_Ok. lia.
  - intros j Hj. apply elem_of_seq in Hj.
    rewrite (mget_entry n), index_total by (done || lia). done.
Qed.

(** The sweep: after node [i], the entries below [i] satisfy the
    recurrence and the others are untouched. *)
Lemma sweep_ok (n : nat) (Z : matrix) (rs : list (resolvent V))
    (alpha : Qc) (all_v all_x : list V) :
  square n Z -> length rs = n -> length all_v = n -> length all_x = n ->
  exists all_x',
    for_range n (sweep_node Z rs alpha all_v) all_x = Ok all_x' /\
    length all_x' = n /\
    forall i, (i < n)%nat -> sweep_eq rs Z alpha all_v all_x' i.
Proof.
  intros HZ Hrs Hv Hx.
  destruct (for_range_inv
    (fun i xs => length xs = n /\
                 forall k, (k < i)%nat -> sweep_eq rs Z alpha all_v xs k)
    n (sweep_node Z rs alpha all_v) all_x) as (xs & Hrun & Hlen & Heq).
  - split; [done|]. intros k Hk. lia.
  - intros i xs Hi [Hlen Heq]. eexists. split.
    { by apply (sweep_node_ok n). }
    split; [by rewrite length_insert|].
    intros k Hk. unfold sweep_eq.
    destruct (decide (k = i)) as [->|Hne].
    + rewrite list_lookup_total_insert_eq by lia. do 2 f_equal.
      apply vsumn_ext. intros j Hj.
      by rewrite list_lookup_total_insert_ne by lia.
    + rewrite list_lookup_total_insert_ne by done.
      rewrite (Heq k) by lia. do 2 f_equal.
      apply vsumn_ext. intros j Hj.
      by rewrite list_lookup_total_insert_ne by lia.
  - by exists xs.
Qed.

Lemma consensus_ok (n : nat) (W : matrix) (gamma : Qc)
    (all_x all_v : list V) :
  square n W -> length all_x = n -> length all_v = n ->
  exists all_v',
    for_range n (consensus_node W gamma n all_x) all_v = Ok all_v' /\
    length all_v' = n /\
    forall i, (i < n)%nat -> consensus_eq W gamma n all_v all_x all_v' i.
Proof.
  intros HW Hx Hv.
  destruct (for_range_inv
    (fun i vs => length vs = n /\
                 (forall k, (k < i)%nat ->
                            consensus_eq W gamma n all_v all_x vs k) /\
                 (forall k, (i <= k)%nat -> vs !!! k = all_v !!! k))
    n (consensus_node W gamma n all_x) all_v)
    as (vs & Hrun & Hlen & Heq & _).
  - split; [done|]. split; [intros k Hk; lia|done].
  - intros i vs Hi (Hlen & Heq & Hrest). eexists. split.
    { by apply (consensus_node_ok n). }
    split; [by rewrite length_insert|]. split.
    + intros k Hk. unfold consensus_eq.
      destruct (decide (k = i)) as [->|Hne].
      * rewrite list_lookup_total_insert_eq by lia. by rewrite Hrest.
      * rewrite list_lookup_total_insert_ne by done. apply Heq. lia.
    + intros k Hk. rewrite list_lookup_total_insert_ne by lia.
      apply Hrest. lia.
  - by exists vs.
Qed.

Lemma serial_iteration_ok (n : nat) (rs : list (resolvent V)) (W Z : matrix)
    (gamma alpha : Qc) (all_x all_v : list V) :
  square n W -> square n Z -> length rs = n ->
  length all_x = n -> length all_v = n ->
  exists all_x' all_v',
    serial_iteration n rs W Z gamma alpha (all_x, all_v)
    = Ok (all_x', all_v') /\
    length all_x' = n /\ length all_v' = n /\
    forall i, (i < n)%nat ->
      sweep_eq rs Z alpha all_v all_x' i /\
      consensus_eq W gamma n all_v all_x' all_v' i.
Proof.
  intros HW HZ Hrs Hx Hv. unfold serial_iteration. simpl.
  destruct (sweep_ok n Z rs alpha all_v all_x) as (xs & -> & Hlx & Hsw);
    [done..|]. simpl.
  destruct (consensus_ok n W gamma xs all_v) as (vs & -> & Hlv & Hco);
    [done..|]. simpl.
  exists xs, vs. repeat split; auto.
Qed.

Lemma serial_results_ok (n : nat) (all_x all_v : list V) :
  (0 < n)%nat -> length all_x = n -> length all_v = n ->
  serial_results n (all_x, all_v)
  = Ok (mean n all_x,
        (fun i => {| res_x := all_x !!! i; res_v := all_v !!! i |})
          <$> seq 0 n).
Proof.
  intros Hn Hx Hv. unfold serial_results. simpl.
  rewrite bool_decide_eq_false_2 by lia. simpl.
  rewrite (comprehension_fmap _ _
    (fun i => {| res_x := all_x !!! i; res_v := all_v !!! i |})).
  - simpl. unfold mean, vdiv. subst n. by rewrite vsumn_lookup.
  - intros i Hi. apply elem_of_seq in Hi.
    rewrite !index_total by lia. done.
Qed.

End SerialFacts.

(** * Sums of floats *)

Lemma sumn_ext (n : nat) (f g : nat -> Qc) :
  (forall i, (i < n)%nat -> f i = g i) -> sumn n f = sumn n g.
Proof.
  induction n as [|n IH]; intros Hfg; simpl; [done|].
  rewrite IH, Hfg by (intros; try apply Hfg; lia). done.
Qed.

Lemma sumn_minus (n : nat) (f g : nat -> Qc) :
  sumn n (fun i => f i - g i) = sumn n f - sumn n g.
Proof. induction n as [|n IH]; simpl; [ring|]. rewrite IH. ring. Qed.

Lemma sumn_scale (n : nat) (c : Qc) (f : nat -> Qc) :
  sumn n (fun i => c * f i) = c * sumn n f.
Proof. induction n as [|n IH]; simpl; [ring|]. rewrite IH. ring. Qed.

(** * Entries of matrices *)

Lemma square_head (n : nat) (M : matrix) :
  square n M -> length (default [] (head M)) = n.
Proof.
  intros [Hlen Hrows]. destruct M as [|row M]; simpl in *; [done|].
  by inversion Hrows.
Qed.

Lemma entry_mscale (c : Qc) (M : matrix) (i j : nat) :
  entry (Proxs.mscale c M) i j = c * entry M i j.
Proof.
  unfold entry, Proxs.mscale. rewrite list_lookup_fmap.
  destruct (M !! i) as [row|]; simpl; [|ring].
  rewrite list_lookup_fmap. destruct (row !! j); simpl; [done|ring].
Qed.

Lemma entry_msub (n : nat) (X Y : matrix) (i j : nat) :
  square n X -> square n Y ->
  entry (Proxs.msub X Y) i j = entry X i j - entry Y i j.
Proof.
  intros [HlX HrX] [HlY HrY]. unfold entry, Proxs.msub.
  rewrite lookup_zip_with.
  destruct (X !! i) as [rx|] eqn:Hx; simpl.
  - destruct (Y !! i) as [ry|] eqn:Hy; simpl.
    + rewrite lookup_zip_with.
      assert (length rx = n) by (eapply Forall_lookup_1 in HrX; eauto).
      assert (length ry = n) by (eapply Forall_lookup_1 in HrY; eauto).
      destruct (rx !! j) eqn:Hxj; simpl.
      * destruct (ry !! j) eqn:Hyj; simpl; [done|].
        apply lookup_lt_Some in Hxj. apply lookup_ge_None in Hyj. lia.
      * destruct (ry !! j) eqn:Hyj; simpl; [|ring].
        apply lookup_lt_Some in Hyj. apply lookup_ge_None in Hxj. lia.
    + apply lookup_lt_Some in Hx. apply lookup_ge_None in Hy. lia.
  - destruct (Y !! i) as [ry|] eqn:Hy; simpl; [|ring].
    apply lookup_lt_Some in Hy. apply lookup_ge_None in Hx. lia.
Qed.

Lemma square_mscale (n : nat) (c : Qc) (M : matrix) :
  square n M -> square n (Proxs.mscale c M).
Proof.
  intros [Hl Hr]. split; unfold Proxs.mscale.
  - by rewrite length_fmap.
  - apply Forall_fmap. eapply Forall_impl; [done|].
    intros row Hrow. simpl. by rewrite length_fmap.
Qed.

Lemma square_msub (n : nat) (X Y : matrix) :
  square n X -> square n Y -> square n (Proxs.msub X Y).
Proof.
  intros [HlX HrX] [HlY HrY]. split; unfold Proxs.msub.
  - rewrite length_zip_with. lia.
  - apply Forall_lookup_2. intros i row Hi.
    apply lookup_zip_with_Some in Hi as (rx & ry & -> & Hx & Hy).
    eapply Forall_lookup_1 in HrX; [|done].
    eapply Forall_lookup_1 in HrY; [|done].
    rewrite length_zip_with. lia.
Qed.

Lemma entry_matmul (n : nat) (A X : matrix) (i j : nat) :
  square n A -> square n X -> (i < n)%nat -> (j < n)%nat ->
  entry (Proxs.matmul A X) i j = sumn n (fun k => entry A i k * entry X k j).
Proof.
  intros HA HX Hi Hj. unfold Proxs.matmul.
  rewrite (square_head n X HX). destruct HA as [HlA _], HX as [HlX _].
  rewrite HlA, HlX. unfold entry at 1.
  rewrite list_lookup_fmap, lookup_seq_lt by done. simpl.
  rewrite list_lookup_fmap, lookup_seq_lt by done. done.
Qed.

Lemma square_matmul (n : nat) (A X : matrix) :
  square n A -> square n X -> square n (Proxs.matmul A X).
Proof.
  intros HA HX. unfold Proxs.matmul. rewrite (square_head n X HX).
  destruct HA as [HlA _], HX as [HlX _]. rewrite HlA, HlX. split.
  - by rewrite length_fmap, length_seq.
  - apply Forall_fmap, Forall_forall. intros i _. simpl.
    by rewrite length_fmap, length_seq.
Qed.

Lemma trace_matmul (n : nat) (A X : matrix) :
  square n A -> square n X ->
  Proxs.trace (Proxs.matmul A X)
  = sumn n (fun i => sumn n (fun k => entry A i k * entry X k i)).
Proof.
  intros HA HX. unfold Proxs.trace.
  pose proof (square_matmul n A X HA HX) as HM.
  rewrite (square_head n _ HM). destruct HM as [-> _].
  rewrite Nat.min_id. apply sumn_ext. intros i Hi.
  by apply entry_matmul.
Qed.

Lemma fro2_sum (n : nat) (A : matrix) :
  square n A ->
  Proxs.fro2 A = sumn n (fun i => sumn n (fun j => entry A i j * entry A i j)).
Proof.
  intros HA. unfold Proxs.fro2. rewrite (square_head n A HA).
  by destruct HA as [-> _].
Qed.

(** The trace of [A @ A] is the squared norm of a symmetric [A]. *)
Lemma trace_self (n : nat) (A : matrix) :
  square n A -> symmetric n A ->
  Proxs.trace (Proxs.matmul A A) = Proxs.fro2 A.
Proof.
  intros HA Hsym. rewrite (trace_matmul n), (fro2_sum n) by done.
  apply sumn_ext. intros i Hi. apply sumn_ext. intros k Hk.
  by rewrite (Hsym k i).
Qed.

Lemma trace_step (n : nat) (A X : matrix) (c : Qc) :
  square n A -> square n X ->
  Proxs.trace (Proxs.matmul A (Proxs.msub X (Proxs.mscale c (Proxs.scale A))))
  = Proxs.trace (Proxs.matmul A X)
    - c * (/ Proxs.fro2 A) * Proxs.trace (Proxs.matmul A A).
Proof.
  intros HA HX. unfold Proxs.scale.
  assert (square n (Proxs.mscale c (Proxs.mscale (/ Proxs.fro2 A) A))) as HU
    by by do 2 apply square_mscale.
  rewrite !(trace_matmul n) by (done || by apply square_msub).
  rewrite <- sumn_scale, <- sumn_minus. apply sumn_ext. intros i Hi.
  rewrite <- sumn_scale, <- sumn_minus. apply sumn_ext. intros k Hk.
  rewrite (entry_msub n), !entry_mscale by done. ring.
Qed.

Lemma prox_on_plane (n : nat) (A0 X : matrix) (v0 t : Qc) :
  square n A0 -> symmetric n A0 -> Proxs.fro2 A0 <> 0 -> square n X ->
  Proxs.trace (Proxs.matmul A0 (Proxs.prox (Proxs.init A0 v0) X t)) = v0.
Proof.
  intros HA Hsym Hnz HX. unfold Proxs.prox. simpl.
  destruct (decide _) as [Heq|Hne]; [done|].
  rewrite (trace_step n), (trace_self n) by done. field. done.
Qed.

(** C10 (amended).  For a symmetric [n × n] matrix [A] that is not the
    zero matrix and any [n × n] matrix [X], the output [Y] of [prox]
    satisfies [tr(A·Y) = v], so a second application returns [Y]
    unchanged: [prox(prox(X, t), t) = prox(X, t)]. *)
Theorem prox_idempotent (n : nat) (A0 X : matrix) (v0 t : Qc) :
  square n A0 -> symmetric n A0 -> Proxs.fro2 A0 <> 0 -> square n X ->
  let self := Proxs.init A0 v0 in
  Proxs.trace (Proxs.matmul A0 (Proxs.prox self X t)) = v0 /\
  Proxs.prox self (Proxs.prox self X t) t = Proxs.prox self X t.
Proof.
  intros HA Hsym Hnz HX self.
  pose proof (prox_on_plane n A0 X v0 t HA Hsym Hnz HX) as Hplane.
  split; [done|].
  unfold Proxs.prox at 1. fold self. simpl.
  fold self in Hplane. by rewrite decide_True.
Qed.

Section SerialRuns.
Context {V : Type} {AV : Arr V} {CS : Type}.
Variable check : CS -> list V -> bool * CS.

Lemma serial_loop_ok (todo n : nat) (rs : list (resolvent V)) (W Z : matrix)
    (gamma alpha : Qc) (cs : CS) (all_x all_v : list V) :
  square n W -> square n Z -> length rs = n ->
  length all_x = n -> length all_v = n ->
  exists all_x' all_v',
    serial_loop check todo n rs W Z gamma alpha cs (all_x, all_v)
    = Ok (all_x', all_v') /\
    length all_x' = n /\ length all_v' = n.
Proof.
  intros HW HZ Hrs. revert cs all_x all_v.
  induction todo as [|todo IH]; intros cs all_x all_v Hx Hv; simpl.
  - by exists all_x, all_v.
  - destruct (serial_iteration_ok n rs W Z gamma alpha all_x all_v)
      as (xs & vs & -> & Hlx & Hlv & _); [done..|]. simpl.
    destruct (check cs xs) as [[] cs'].
    + by exists xs, vs.
    + by apply IH.
Qed.

Lemma serial_iterates_ok (k n : nat) (rs : list (resolvent V)) (W Z : matrix)
    (gamma alpha : Qc) (all_x all_v : list V) :
  square n W -> square n Z -> length rs = n ->
  length all_x = n -> length all_v = n ->
  exists all_x' all_v',
    serial_iterates k n rs W Z gamma alpha (all_x, all_v)
    = Ok (all_x', all_v') /\
    length all_x' = n /\ length all_v' = n.
Proof.
  intros HW HZ Hrs Hx Hv. induction k as [|k IH]; simpl.
  - by exists all_x, all_v.
  - destruct IH as (xs & vs & -> & Hlx & Hlv). simpl.
    destruct (serial_iteration_ok n rs W Z gamma alpha xs vs)
      as (xs' & vs' & -> & Hlx' & Hlv' & _); [done..|].
    by exists xs', vs'.
Qed.

End SerialRuns.

Section Claims.
Context {V : Type} {AV : Arr V}.

(** C6.  One iteration of the serial reference, on [n] nodes with
    [n × n] matrices, returns lists [all_x'] and [all_v'] with
    [xᵢ' = prox(vᵢ − Σ_{j<i} Z[i,j]·xⱼ', α)] (the entries of [Z], the
    already updated [xⱼ'] for [j < i]) and
    [vᵢ' = vᵢ − γ·Σ_{j<n} W[i,j]·xⱼ'] over all [n] new values, and the
    function returns the mean [(1/n)·Σᵢ xᵢ] of the final [x]. *)
Theorem serial_iteration_recurrence (n : nat) (rs : list (resolvent V))
    (W Z : matrix) (gamma alpha : Qc) (all_x all_v : list V) :
  (0 < n)%nat -> square n W -> square n Z -> length rs = n ->
  length all_x = n -> length all_v = n ->
  exists all_x' all_v',
    serial_iteration n rs W Z gamma alpha (all_x, all_v)
    = Ok (all_x', all_v') /\
    (forall i, (i < n)%nat ->
       sweep_eq rs Z alpha all_v all_x' i /\
       consensus_eq W gamma n all_v all_x' all_v' i) /\
    exists results,
      serial_results n (all_x', all_v') = Ok (mean n all_x', results).
Proof.
  intros Hn HW HZ Hrs Hx Hv.
  destruct (serial_iteration_ok n rs W Z gamma alpha all_x all_v)
    as (xs & vs & Hrun & Hlx & Hlv & Heq); [done..|].
  exists xs, vs. split; [done|]. split; [done|].
  eexists. by apply serial_results_ok.
Qed.

(** The consensus update leaves the sum of the [vᵢ] alone when the
    columns of [W] sum to zero. *)
Lemma consensus_sum (n : nat) (W : matrix) (gamma : Qc)
    (all_v all_x' all_v' : list V) :
  (forall j, (j < n)%nat -> sumn n (fun i => entry W i j) = 0) ->
  (forall i, (i < n)%nat -> consensus_eq W gamma n all_v all_x' all_v' i) ->
  vsumn n (fun i => all_v' !!! i) = vsumn n (fun i => all_v !!! i).
Proof.
  intros Hcol Heq.
  rewrite (vsumn_ext n _
    (fun i => vsub (all_v !!! i)
                (smul gamma
                   (vsumn n (fun j => smul (entry W i j) (all_x' !!! j))))))
    by (intros i Hi; by apply Heq).
  rewrite vsumn_vsub, vsumn_smul, vsumn_exchange.
  rewrite (vsumn_ext n (fun j => vsumn n _) (fun _ => vzero)).
  - rewrite vsumn_zero, smul_zero_r. unfold vsub.
    by rewrite vopp_zero, vadd_zero_r.
  - intros j Hj. rewrite vsumn_coeff, Hcol by done. apply smul_zero_l.
Qed.

(** C7.  If [W] is symmetric with zero row sums and the initial [vᵢ]
    sum to zero, the serial engine runs any number [k] of iterations
    and the [vᵢ] still sum to zero after them. *)
Theorem serial_sum_zero (k n : nat) (rs : list (resolvent V)) (W Z : matrix)
    (gamma alpha : Qc) (all_x all_v : list V) :
  square n W -> square n Z -> length rs = n ->
  length all_x = n -> length all_v = n ->
  symmetric n W ->
  (forall i, (i < n)%nat -> sumn n (fun j => entry W i j) = 0) ->
  py_sum all_v = vzero ->
  exists all_x' all_v',
    serial_iterates k n rs W Z gamma alpha (all_x, all_v)
    = Ok (all_x', all_v') /\
    py_sum all_v' = vzero.
Proof.
  intros HW HZ Hrs Hx Hv Hsym Hrow Hsum.
  assert (forall j, (j < n)%nat -> sumn n (fun i => entry W i j) = 0) as Hcol.
  { intros j Hj. rewrite <- (Hrow j Hj). apply sumn_ext.
    intros i Hi. by apply Hsym. }
  cut (exists all_x' all_v',
         serial_iterates k n rs W Z gamma alpha (all_x, all_v)
         = Ok (all_x', all_v') /\
         length all_x' = n /\ length all_v' = n /\ py_sum all_v' = vzero).
  { intros (xs & vs & ? & _ & _ & ?). by exists xs, vs. }
  induction k as [|k IH]; simpl.
  - by exists all_x, all_v.
  - destruct IH as (xs & vs & -> & Hlx & Hlv & Hz). simpl.
    destruct (serial_iteration_ok n rs W Z gamma alpha xs vs)
      as (xs' & vs' & -> & Hlx' & Hlv' & Heq); [done..|].
    exists xs', vs'. repeat split; [done..|].
    rewrite <- vsumn_lookup, Hlv'.
    rewrite (consensus_sum n W gamma vs xs' vs' Hcol)
      by (intros i Hi; by apply Heq).
    by rewrite <- Hlv, vsumn_lookup.
Qed.

End Claims.

(** * The planner *)

Section Planner.
Context {V : Type}.
Implicit Types (Q : gmap (nat * nat) (list V)) (C : list comms).

(** The pairs that the loops have handled when the outer index is [I]
    and the inner one [J]. *)
Definition handled (I J a b : nat) : Prop :=
  let hi := a `max` b in
  let lo := a `min` b in
  (lo < hi)%nat /\ ((hi < I)%nat \/ (hi = I /\ (lo < J)%nat)).

Definition plan_inv (W L : matrix) (n I J : nat)
    (st : gmap (nat * nat) (list V) * list comms) : Prop :=
  length st.2 = n /\
  (forall a b k, b ∈ peers k (st.2 !!! a) <->
     (a < n)%nat /\ (b < n)%nat /\ handled I J a b /\
     cls_of W L a b = Some k) /\
  (forall a k, NoDup (peers k (st.2 !!! a))) /\
  (forall a b, is_Some (st.1 !! (a, b)) <->
     (a < n)%nat /\ (b < n)%nat /\ handled I J a b /\
     channel W L a b = true) /\
  (forall key q, st.1 !! key = Some q -> q = []).

Definition append_peer (k : cls) (x : nat) (c : comms) : comms :=
  match k with
  | cWQ => append_WQ x c
  | cUpL => append_up_LQ x c
  | cDownL => append_down_LQ x c
  | cUpB => append_up_BQ x c
  | cDownB => append_down_BQ x c
  end.

Lemma peers_append (k k' : cls) (x : nat) (c : comms) :
  peers k' (append_peer k x c)
  = if decide (k' = k) then peers k' c ++ [x] else peers k' c.
Proof. by destruct k, k'. Qed.

Lemma handled_next (I J a b : nat) :
  handled I (S J) a b <->
  handled I J a b \/
  ((J < I)%nat /\ ((a = I /\ b = J) \/ (a = J /\ b = I))).
Proof. unfold handled. lia. Qed.

Lemma handled_row (I a b : nat) : handled I I a b <-> handled (S I) 0 a b.
Proof. unfold handled. lia. Qed.

Lemma handled_lt (n I J a b : nat) :
  (I < n)%nat -> (J <= I)%nat -> handled I J a b -> (a < n)%nat /\ (b < n)%nat.
Proof. unfold handled. lia. Qed.

Lemma new_queue_lookup Q (key key' : nat * nat) :
  is_Some (new_queue key Q !! key') <-> key' = key \/ is_Some (Q !! key').
Proof.
  unfold new_queue. case_match eqn:Hkey.
  - split; [intros; by right|]. intros [->|H]; [by eexists|done].
  - destruct (decide (key' = key)) as [->|Hne].
    + rewrite lookup_insert_eq. split; [intros; by left|by eexists].
    + rewrite lookup_insert_ne by done. naive_solver.
Qed.

Lemma new_queue_empty Q (key : nat * nat) :
  (forall key' q, Q !! key' = Some q -> q = []) ->
  forall key' q, new_queue key Q !! key' = Some q -> q = [].
Proof.
  intros HQ key' q. unfold new_queue.
  case_match eqn:Hkey; [by apply HQ|].
  destruct (decide (key' = key)) as [->|Hne].
  - rewrite lookup_insert_eq. by intros [= <-].
  - rewrite lookup_insert_ne by done. by apply HQ.
Qed.

(** Appending the peers of the pair [i > j] keeps the description of
    the lists. *)
Lemma alter_pair_inv (W L : matrix) (n i j : nat) C (ki kj : cls) :
  (j < i)%nat -> (i < n)%nat -> length C = n ->
  cls_of W L i j = Some ki -> cls_of W L j i = Some kj ->
  (forall a b k, b ∈ peers k (C !!! a) <->
     (a < n)%nat /\ (b < n)%nat /\ handled i j a b /\
     cls_of W L a b = Some k) ->
  (forall a k, NoDup (peers k (C !!! a))) ->
  let C' := alter (append_peer kj i) j (alter (append_peer ki j) i C) in
  length C' = n /\
  (forall a b k, b ∈ peers k (C' !!! a) <->
     (a < n)%nat /\ (b < n)%nat /\ handled i (S j) a b /\
     cls_of W L a b = Some k) /\
  (forall a k, NoDup (peers k (C' !!! a))).
Proof.
  intros Hji Hin Hlen Hki Hkj Hmem Hnd C'.
  assert (forall a,
    C' !!! a = if decide (a = i) then append_peer ki j (C !!! i)
               else if decide (a = j) then append_peer kj i (C !!! j)
               else C !!! a) as HC'.
  { intros a. unfold C'. destruct (decide (a = i)) as [->|Hai].
    - rewrite list_lookup_total_alter_ne by lia.
      apply list_lookup_total_alter_eq. lia.
    - destruct (decide (a = j)) as [->|Haj].
      + rewrite list_lookup_total_alter_eq by (rewrite length_alter; lia).
        by rewrite list_lookup_total_alter_ne by lia.
      + by rewrite !list_lookup_total_alter_ne by done. }
  split; [unfold C'; by rewrite !length_alter|]. split.
  - intros a b k. rewrite HC', handled_next.
    destruct (decide (a = i)) as [->|Hai]; [|destruct (decide (a = j)) as [->|Haj]].
    + rewrite peers_append. destruct (decide (k = ki)) as [->|Hk].
      * rewrite elem_of_app, list_elem_of_singleton, Hmem. split.
        -- intros [?| ->]; [naive_solver|]. repeat split; [lia..| |done].
           right. lia.
        -- intros (? & ? & [?|[? [[_ ->]|[Heq _]]]] & ?); [by left| by right|lia].
      * rewrite Hmem. split; [naive_solver|].
        intros (? & ? & [?|[? [[_ ->]|[Heq _]]]] & ?); [done| congruence|lia].
    + rewrite peers_append. destruct (decide (k = kj)) as [->|Hk].
      * rewrite elem_of_app, list_elem_of_singleton, Hmem. split.
        -- intros [?| ->]; [naive_solver|]. repeat split; [lia..| |done].
           right. lia.
        -- intros (? & ? & [?|[? [[Heq _]|[_ ->]]]] & ?); [by left|lia|by right].
      * rewrite Hmem. split; [naive_solver|].
        intros (? & ? & [?|[? [[Heq _]|[_ ->]]]] & ?); [done|lia|congruence].
    + rewrite Hmem. split; [naive_solver|].
      intros (? & ? & [?|[? [[? _]|[? _]]]] & ?); [done|lia|lia].
  - intros a k. rewrite HC'.
    destruct (decide (a = i)) as [->|Hai]; [|destruct (decide (a = j)) as [->|Haj]].
    + rewrite peers_append. destruct (decide (k = ki)) as [->|Hk]; [|done].
      apply NoDup_app. split; [done|]. split; [|apply NoDup_singleton].
      intros x Hx ->%list_elem_of_singleton.
      apply Hmem in Hx as (_ & _ & Hh & _). unfold handled in Hh. lia.
    + rewrite peers_append. destruct (decide (k = kj)) as [->|Hk]; [|done].
      apply NoDup_app. split; [done|]. split; [|apply NoDup_singleton].
      intros x Hx ->%list_elem_of_singleton.
      apply Hmem in Hx as (_ & _ & Hh & _). unfold handled in Hh. lia.
    + done.
Qed.

Lemma alter_commute {A : Type} (f g : A -> A) (i j : nat) (l : list A) :
  i <> j -> alter f i (alter g j l) = alter g j (alter f i l).
Proof.
  intros Hij. apply list_eq. intros k.
  rewrite !list_lookup_alter. repeat case_decide; subst; try done.
  all: rewrite ?list_lookup_alter_eq, ?list_lookup_alter_ne by done; done.
Qed.

Lemma cls_of_pair (W L : matrix) (i j : nat) :
  (j < i)%nat ->
  cls_of W L i j
  = match classify W L i j with
    | NoLink => None | WLink => Some cWQ
    | LLink => Some cUpL | BLink => Some cUpB
    end /\
  cls_of W L j i
  = match classify W L i j with
    | NoLink => None | WLink => Some cWQ
    | LLink => Some cDownL | BLink => Some cDownB
    end /\
  channel W L j i = negb (isclose0 (entry W i j))
                    || negb (isclose0 (entry L i j)) /\
  channel W L i j = negb (isclose0 (entry W i j)).
Proof.
  intros Hji. unfold cls_of, channel.
  rewrite (bool_decide_eq_true_2 (j < i)%nat) by done.
  rewrite (bool_decide_eq_false_2 (i < j)%nat) by lia. done.
Qed.

(** Creating the queues of the pair [i > j] keeps the description of
    the channels. *)
Lemma queue_pair_inv (W L : matrix) (n i j : nat) Q Q' :
  (j < i)%nat -> (i < n)%nat ->
  (forall a b, is_Some (Q' !! (a, b)) <->
     is_Some (Q !! (a, b)) \/
     (a = i /\ b = j /\ channel W L i j = true) \/
     (a = j /\ b = i /\ channel W L j i = true)) ->
  (forall a b, is_Some (Q !! (a, b)) <->
     (a < n)%nat /\ (b < n)%nat /\ handled i j a b /\
     channel W L a b = true) ->
  forall a b, is_Some (Q' !! (a, b)) <->
     (a < n)%nat /\ (b < n)%nat /\ handled i (S j) a b /\
     channel W L a b = true.
Proof.
  intros Hji Hin HQ' HQ a b. rewrite HQ', HQ, handled_next. split.
  - intros [(?&?&?&?)|[(->&->&?)|(->&->&?)]].
    + naive_solver.
    + repeat split; [lia..| |done]. right. lia.
    + repeat split; [lia..| |done]. right. lia.
  - intros (?&?&[?|[? [[-> ->]|[-> ->]]]]&?); [left|right; left|right; right];
      done.
Qed.

Lemma plan_pair_step (W L : matrix) (n i j : nat)
    (st : gmap (nat * nat) (list V) * list comms) :
  square n W -> square n L -> (j < i)%nat -> (i < n)%nat ->
  plan_inv W L n i j st ->
  exists st', plan_pair W L i j st = Ok st' /\ plan_inv W L n i (S j) st'.
Proof.
  intros HW HL Hji Hin. destruct st as [Q C].
  intros (Hlen & Hmem & Hnd & HQ & Hempty). simpl in *.
  unfold plan_pair.
  rewrite (mget_entry n W), (mget_entry n L) by (done || lia). simpl.
  destruct (cls_of_pair W L i j Hji) as (Hci & Hcj & Hchj & Hchi).
  unfold classify in Hci, Hcj.
  destruct (isclose0 (entry W i j)) eqn:Hw;
    destruct (isclose0 (entry L i j)) eqn:Hl; simpl in *.
  - (* no coupling *)
    eexists. split; [done|]. unfold plan_inv. simpl.
    split; [done|]. split; [|split; [done|split; [|done]]].
    + intros a b k. rewrite Hmem, handled_next. split; [naive_solver|].
      intros (?&?&[?|[? [[-> ->]|[-> ->]]]]&?); [done|congruence..].
    + apply (queue_pair_inv W L n i j Q Q Hji Hin); [|done].
      intros a b. rewrite Hchi, Hchj. naive_solver.
  - (* L only *)
    eexists. split; [done|].
    destruct (alter_pair_inv W L n i j C cUpL cDownL) as (HlC & HmC & HnC);
      [done..|].
    unfold plan_inv. simpl. split; [done|]. split; [done|]. split; [done|].
    split; [|by apply new_queue_empty].
    apply (queue_pair_inv W L n i j Q); [done..| |done].
    intros a b. rewrite new_queue_lookup, Hchi, Hchj. naive_solver.
  - (* W only *)
    eexists. split; [done|].
    destruct (alter_pair_inv W L n i j C cWQ cWQ) as (HlC & HmC & HnC);
      [done..|].
    rewrite alter_commute by lia.
    unfold plan_inv. simpl. split; [done|]. split; [done|]. split; [done|].
    split; [|by do 2 apply new_queue_empty].
    apply (queue_pair_inv W L n i j Q); [done..| |done].
    intros a b. rewrite !new_queue_lookup, Hchi, Hchj. naive_solver.
  - (* both *)
    eexists. split; [done|].
    destruct (alter_pair_inv W L n i j C cUpB cDownB) as (HlC & HmC & HnC);
      [done..|].
    unfold plan_inv. simpl. split; [done|]. split; [done|]. split; [done|].
    split; [|by do 2 apply new_queue_empty].
    apply (queue_pair_inv W L n i j Q); [done..| |done].
    intros a b. rewrite !new_queue_lookup, Hchi, Hchj. naive_solver.
Qed.

Lemma plan_inv_row (W L : matrix) (n i : nat)
    (st : gmap (nat * nat) (list V) * list comms) :
  plan_inv W L n i i st <-> plan_inv W L n (S i) 0 st.
Proof.
  unfold plan_inv.
  by repeat (setoid_rewrite handled_row).
Qed.

Lemma requiredQueues_inv (n : nat) (W L : matrix) :
  square n W -> square n L ->
  exists st, requiredQueues W L = Ok st /\ plan_inv W L n n 0 st.
Proof.
  intros HW HL. unfold requiredQueues.
  replace (length W) with n by (by destruct HW).
  apply (for_range_inv (fun i st => plan_inv W L n i 0 st)).
  - unfold plan_inv. simpl. split; [apply length_replicate|].
    assert (forall a k, peers k (replicate n no_comms !!! a) = []) as Hnil.
    { intros a k. destruct (decide (a < n)%nat).
      - rewrite lookup_total_replicate_2 by done. by destruct k.
      - rewrite list_lookup_total_alt, (proj1 (lookup_replicate_None _ _ _))
          by lia. by destruct k. }
    split; [|split; [|split]].
    + intros a b k. rewrite Hnil. split; [by intros ?%not_elem_of_nil|].
      unfold handled. lia.
    + intros a k. rewrite Hnil. constructor.
    + intros a b. rewrite lookup_empty. split; [by intros []|].
      unfold handled. lia.
    + intros key q. by rewrite lookup_empty.
  - intros i st Hi Hinv.
    destruct (for_range_inv (fun j st => plan_inv W L n i j st) i
                (plan_pair W L i) st) as (st' & Hrun & Hinv').
    + done.
    + intros j st0 Hj Hinv0. by apply plan_pair_step.
    + exists st'. split; [done|]. by apply plan_inv_row.
Qed.

(** The plan, once the loops are over. *)
Lemma requiredQueues_facts (n : nat) (W L : matrix) :
  square n W -> square n L ->
  exists (Q : gmap (nat * nat) (list V)) (C : list comms),
    requiredQueues W L = Ok (Q, C) /\ length C = n /\
    (forall a b, is_Some (Q !! (a, b)) <->
       (a < n)%nat /\ (b < n)%nat /\ channel W L a b = true) /\
    (forall a b k, b ∈ peers k (C !!! a) <->
       (a < n)%nat /\ (b < n)%nat /\ cls_of W L a b = Some k) /\
    (forall a k, NoDup (peers k (C !!! a))) /\
    (forall key q, Q !! key = Some q -> q = []).
Proof.
  intros HW HL.
  destruct (requiredQueues_inv n W L HW HL)
    as ([Q C] & Hrun & Hlen & Hmem & Hnd & HQ & Hempty).
  simpl in *. exists Q, C. split; [done|]. split; [done|].
  split; [|split; [|done]].
  - intros a b. rewrite HQ. split; [naive_solver|].
    intros (Ha & Hb & Hch). repeat split; try done.
    + unfold channel in Hch. repeat case_bool_decide; try done; lia.
    + unfold channel in Hch. repeat case_bool_decide; try done; lia.
  - intros a b k. rewrite Hmem. split; [naive_solver|].
    intros (Ha & Hb & Hc). repeat split; try done.
    + unfold cls_of in Hc. repeat case_bool_decide; try done; lia.
    + unfold cls_of in Hc. repeat case_bool_decide; try done; lia.
Qed.

End Planner.

(** C5 (amended).  For [n × n] matrices the planner returns queues
    and peer lists with: a queue from [a] to [b] exactly when [channel]
    asks for one, upwards for any coupling of the pair and downwards for
    a [W] coupling only; node [a] holds [b] in class [k] exactly when
    the table [cls_of] says so, hence in at most one class; and no list
    holds a peer twice. *)
Theorem requiredQueues_plan {V : Type} (n : nat) (W L : matrix) :
  square n W -> square n L ->
  exists (Q : gmap (nat * nat) (list V)) (C : list comms),
    requiredQueues W L = Ok (Q, C) /\ length C = n /\
    (forall a b, is_Some (Q !! (a, b)) <->
       (a < n)%nat /\ (b < n)%nat /\ channel W L a b = true) /\
    (forall a b k, b ∈ peers k (C !!! a) <->
       (a < n)%nat /\ (b < n)%nat /\ cls_of W L a b = Some k) /\
    (forall a k, NoDup (peers k (C !!! a))).
Proof.
  intros HW HL.
  destruct (requiredQueues_facts (V:=V) n W L HW HL)
    as (Q & C & Hrun & Hlen & HQ & Hmem & Hnd & _).
  by exists Q, C.
Qed.

Section MonitorFacts.
Context {V : Type} {AV : Arr V}.
Variable norm : V -> Qc.

Lemma get_round_drop (tq : list (list V)) (j : nat) :
  Forall (fun q => (j < length q)%nat) tq ->
  get_round (length tq) ((fun q : list V => drop j q) <$> tq)
  = Stepped (column tq j, (fun q : list V => drop (S j) q) <$> tq).
Proof.
  induction tq as [|q tq IH]; intros Hlen; [done|].
  inversion Hlen as [|? ? Hq Htq]; subst.
  destruct (lookup_lt_is_Some_2 q j Hq) as [x Hx].
  rewrite !fmap_cons. cbn [length get_round].
  rewrite (drop_S q x j Hx). cbn [get_round]. rewrite (IH Htq).
  unfold column. rewrite fmap_cons.
  by rewrite (list_lookup_total_correct q j x Hx).
Qed.

(** The streak before round [j]. *)
Definition before (q : nat -> bool) (j : nat) : nat :=
  match j with O => O | S j' => streak q j' end.

Lemma streak_before (q : nat -> bool) (k : nat) :
  streak q k = if q k then S (before q k) else O.
Proof. by destruct k. Qed.

Lemma monitor_loop_run (vartol : Qc) (tq : list (list V)) (terminate : int)
    (todo j : nat) :
  let q := quiet norm vartol tq in
  Forall (fun s => (j + todo < length s)%nat) tq ->
  (forall k, (j <= k < j + todo)%nat -> (10 <= streak q k)%nat ->
     (forall k', (j <= k' < k)%nat -> (streak q k' < 10)%nat) ->
     monitor_loop norm todo vartol (length tq) (Z.of_nat j) (before q j)
       (column tq j) ((fun s : list V => drop (S j) s) <$> tq) terminate
     = Stepped ((Z.of_nat k + 10)%Z,
                (fun s : list V => drop (S (S k)) s) <$> tq)) /\
  ((forall k, (j <= k < j + todo)%nat -> (streak q k < 10)%nat) ->
     monitor_loop norm todo vartol (length tq) (Z.of_nat j) (before q j)
       (column tq j) ((fun s : list V => drop (S j) s) <$> tq) terminate
     = Stepped (terminate,
                (fun s : list V => drop (S (j + todo)) s) <$> tq)).
Proof.
  intros q. revert j. induction todo as [|todo IH]; intros j Hlen.
  { split; [intros k Hk; lia|]. intros _. simpl. by rewrite Nat.add_0_r. }
  assert (Forall (fun s => (S j < length s)%nat) tq) as Hlen1.
  { eapply Forall_impl; [exact Hlen|]. intros s Hs. simpl in *. lia. }
  assert (Forall (fun s => (S j + todo < length s)%nat) tq) as Hlen2.
  { eapply Forall_impl; [exact Hlen|]. intros s Hs. simpl in *. lia. }
  destruct (IH (S j) Hlen2) as [IHhit IHnone].
  simpl monitor_loop. rewrite (get_round_drop tq (S j) Hlen1).
  fold (quiet norm vartol tq j). fold q.
  pose proof (streak_before q j) as Hs.
  change (before q (S j)) with (streak q j) in IHhit, IHnone.
  replace (Z.of_nat j + 1)%Z with (Z.of_nat (S j)) by lia.
  destruct (q j) eqn:Hq; rewrite Hs in IHhit, IHnone.
  - destruct (decide (10 <= S (before q j))%nat) as [Hten|Hten].
    + rewrite bool_decide_eq_true_2 by done. split.
      * intros k Hk Hhit Hfirst.
        destruct (decide (k = j)) as [->|Hne]; [done|].
        specialize (Hfirst j). lia.
      * intros Hnone. specialize (Hnone j). lia.
    + rewrite bool_decide_eq_false_2 by done. split.
      * intros k Hk Hhit Hfirst.
        destruct (decide (k = j)) as [->|Hne]; [lia|].
        apply IHhit; [lia|done|]. intros k' Hk'. apply Hfirst. lia.
      * intros Hnone. rewrite IHnone.
        -- by replace (S j + todo)%nat with (j + S todo)%nat by lia.
        -- intros k Hk. apply Hnone. lia.
  - split.
    + intros k Hk Hhit Hfirst.
      destruct (decide (k = j)) as [->|Hne]; [lia|].
      apply IHhit; [lia|done|]. intros k' Hk'. apply Hfirst. lia.
    + intros Hnone. rewrite IHnone.
      * by replace (S j + todo)%nat with (j + S todo)%nat by lia.
      * intros k Hk. apply Hnone. lia.
Qed.


End MonitorFacts.

(** * The matrix [L = -np.tril(Z, -1)] *)

Lemma square_L (n : nat) (Z : matrix) :
  square n Z -> square n (mneg (tril1 Z)).
Proof.
  intros [Hlen Hrows]. unfold mneg, tril1. split.
  - by rewrite length_fmap, length_imap.
  - apply Forall_fmap, Forall_lookup_2. intros i row Hi.
    apply list_lookup_imap_Some in Hi as (row' & Hrow & ->). simpl.
    rewrite length_fmap, length_imap.
    by eapply Forall_lookup_1 in Hrows.
Qed.

Lemma entry_L (n : nat) (Z : matrix) (i j : nat) :
  square n Z -> (i < n)%nat -> (j < n)%nat ->
  entry (mneg (tril1 Z)) i j
  = if bool_decide (j < i)%nat then - entry Z i j else 0.
Proof.
  intros [Hlen Hrows] Hi Hj. unfold entry, mneg, tril1.
  rewrite list_lookup_fmap, list_lookup_imap.
  destruct (lookup_lt_is_Some_2 Z i) as [row Hrow]; [lia|].
  rewrite Hrow. simpl. rewrite list_lookup_fmap, list_lookup_imap.
  eapply Forall_lookup_1 in Hrows; [|done].
  destruct (lookup_lt_is_Some_2 row j) as [z Hz]; [lia|].
  rewrite Hz. simpl. case_bool_decide; [done|]. ring.
Qed.

(** * The serial iterates *)

Section Reference.
Context {V : Type} {AV : Arr V}.
Variables (n : nat) (rs : list (resolvent V)) (W Z : matrix).
Variables (gamma alpha : Qc) (v0 : list V).
Hypothesis HW : square n W.
Hypothesis HZ : square n Z.
Hypothesis Hrs : length rs = n.
Hypothesis Hv0 : length v0 = n.

Definition next (st : list V * list V) : list V * list V :=
  match Serial.serial_iteration n rs W Z gamma alpha st with
  | Ok st' => st'
  | Raise _ => st
  end.

Definition ref (k : nat) : list V * list V :=
  Nat.iter k next (replicate n vzero, v0).

Lemma ref_length (k : nat) : length (ref k).1 = n /\ length (ref k).2 = n.
Proof.
  induction k as [|k [IHx IHv]]; simpl.
  - by rewrite length_replicate.
  - unfold next. destruct (ref k) as [xs vs] eqn:Hk. simpl in *.
    destruct (serial_iteration_ok n rs W Z gamma alpha xs vs)
      as (xs' & vs' & -> & Hlx & Hlv & _); done.
Qed.

Lemma ref_step (k : nat) :
  Serial.serial_iteration n rs W Z gamma alpha (ref k) = Ok (ref (S k)) /\
  forall i, (i < n)%nat ->
    sweep_eq rs Z alpha (ref k).2 (ref (S k)).1 i /\
    consensus_eq W gamma n (ref k).2 (ref (S k)).1 (ref (S k)).2 i.
Proof.
  destruct (ref_length k) as [Hlx Hlv].
  change (ref (S k)) with (next (ref k)). unfold next.
  destruct (ref k) as [xs vs]. simpl in *.
  destruct (serial_iteration_ok n rs W Z gamma alpha xs vs)
    as (xs' & vs' & -> & _ & _ & Heq); done.
Qed.

Lemma ref_iterates (k : nat) :
  Serial.serial_iterates k n rs W Z gamma alpha (replicate n vzero, v0)
  = Ok (ref k).
Proof.
  induction k as [|k IH]; [done|].
  cbn [Serial.serial_iterates]. rewrite IH. simpl. apply ref_step.
Qed.

End Reference.

(** * Lists *)

Lemma take_covers {A : Type} (l1 l2 : list A) (p : nat) (x y : A) :
  (l1 ++ l2) !! p = Some y -> y ∉ l1 -> x ∈ l1 -> x ∈ take p (l1 ++ l2).
Proof.
  intros Hp Hy Hx.
  assert (length l1 <= p)%nat as Hle.
  { destruct (decide (p < length l1)%nat) as [Hlt|]; [|lia].
    rewrite lookup_app_l in Hp by done.
    apply list_elem_of_lookup_2 in Hp. done. }
  rewrite take_app_ge by done. apply elem_of_app. by left.
Qed.

Lemma lookup_once {A : Type} (l1 l2 : list A) (p : nat) (x : A) :
  NoDup (l1 ++ x :: l2) -> (l1 ++ x :: l2) !! p = Some x -> p = length l1.
Proof.
  intros Hnd Hp. eapply NoDup_lookup; [done..|].
  by rewrite list_lookup_middle.
Qed.

Lemma elem_of_take_S {A : Type} (l : list A) (p : nat) (x : A) :
  x ∈ take (S p) l <-> x ∈ take p l \/ l !! p = Some x.
Proof.
  destruct (l !! p) as [y|] eqn:Hp.
  - rewrite (take_S_r l p y Hp), elem_of_app, list_elem_of_singleton.
    naive_solver.
  - apply lookup_ge_None in Hp. rewrite !take_ge by lia. naive_solver.
Qed.

Lemma not_elem_of_take {A : Type} (l : list A) (p : nat) (x : A) :
  NoDup l -> l !! p = Some x -> x ∉ take p l.
Proof.
  intros Hnd Hp Hin. apply list_elem_of_lookup in Hin as [q Hq].
  pose proof (lookup_lt_Some _ _ _ Hq) as Hlt. rewrite length_take in Hlt.
  rewrite lookup_take_lt in Hq by lia.
  pose proof (NoDup_lookup l p q x Hnd Hp Hq). lia.
Qed.

(** * Sums over lists of peers *)

Section Sums.
Context {V : Type} {AV : Arr V}.

Lemma py_sum_zero {A : Type} (f : A -> V) (l : list A) :
  (forall a, a ∈ l -> f a = vzero) -> py_sum (f <$> l) = vzero.
Proof.
  induction l as [|a l IH]; intros Hf; [done|].
  rewrite fmap_cons, py_sum_cons, Hf, IH, vadd_zero; [done| |left].
  intros a' Ha'. apply Hf. by right.
Qed.

Lemma vsumn_single (n i : nat) (x : V) :
  (i < n)%nat ->
  vsumn n (fun j => if bool_decide (j = i) then x else vzero) = x.
Proof.
  induction n as [|n IH]; intros Hi; [lia|]. rewrite vsumn_S.
  destruct (decide (i = n)) as [->|Hne].
  - rewrite bool_decide_eq_true_2 by done.
    rewrite (vsumn_ext n _ (fun _ => vzero)).
    + by rewrite vsumn_zero, vadd_zero.
    + intros j Hj. by rewrite bool_decide_eq_false_2 by lia.
  - rewrite IH by lia. rewrite bool_decide_eq_false_2 by done.
    apply vadd_zero_r.
Qed.

Lemma vsumn_shorter (n m : nat) (f : nat -> V) :
  (m <= n)%nat -> (forall j, (m <= j < n)%nat -> f j = vzero) ->
  vsumn n f = vsumn m f.
Proof.
  intros Hmn Hf. induction n as [|n IH].
  - by replace m with O by lia.
  - destruct (decide (m = S n)) as [->|Hne]; [done|].
    rewrite vsumn_S, Hf, vadd_zero_r by lia. apply IH; [lia|].
    intros j Hj. apply Hf. lia.
Qed.

(** The sum over a list of distinct peers is the sum over the nodes
    that the list holds. *)
Lemma py_sum_peers (n : nat) (P : nat -> bool) (f : nat -> V)
    (l : list nat) :
  NoDup l -> (forall j, j ∈ l <-> (j < n)%nat /\ P j = true) ->
  py_sum (f <$> l) = vsumn n (fun j => if P j then f j else vzero).
Proof.
  revert l. induction n as [|n IH]; intros l Hnd Hmem.
  - destruct l as [|j l]; [done|].
    destruct (proj1 (Hmem j)) as [Hj _]; [left|lia].
  - rewrite vsumn_S. destruct (P n) eqn:HP.
    + assert (n ∈ l) as Hn by (apply Hmem; split; [lia|done]).
      apply elem_of_Permutation in Hn as [l' Hl'].
      rewrite (py_sum_perm _ (f <$> (n :: l')))
        by (by apply fmap_Permutation).
      rewrite Hl' in Hnd. apply NoDup_cons in Hnd as [Hnl' Hnd'].
      rewrite fmap_cons, py_sum_cons, (IH l' Hnd'), vadd_comm; [done|].
      intros j. split.
      * intros Hj. assert (j ∈ l) as Hjl by (rewrite Hl'; by right).
        apply Hmem in Hjl as [Hlt HPj]. split; [|done].
        assert (j <> n) by (intros ->; done). lia.
      * intros [Hlt HPj].
        assert (j ∈ l) as Hjl by (apply Hmem; split; [lia|done]).
        rewrite Hl' in Hjl. apply elem_of_cons in Hjl as [->|]; [lia|done].
    + rewrite vadd_zero_r. apply IH; [done|]. intros j. rewrite Hmem.
      split; [|intros []; split; [lia|done]].
      intros [Hlt HPj]. split; [|done].
      assert (j <> n) by (intros ->; congruence). lia.
Qed.

End Sums.

(** * The round of a worker under a plan *)

#[global] Instance GetL_inj : Inj eq eq GetL.
Proof. by intros ?? [=]. Qed.
#[global] Instance GetB_inj : Inj eq eq GetB.
Proof. by intros ?? [=]. Qed.
#[global] Instance Put_inj : Inj eq eq Put.
Proof. by intros ?? [=]. Qed.
#[global] Instance GetW_inj : Inj eq eq GetW.
Proof. by intros ?? [=]. Qed.

Section Program.
Variables (n : nat) (W L : matrix) (C : list comms).
Hypothesis HC_mem : forall a b k, b ∈ peers k (C !!! a) <->
  (a < n)%nat /\ (b < n)%nat /\ cls_of W L a b = Some k.
Hypothesis HC_nd : forall a k, NoDup (peers k (C !!! a)).

Definition prog (i : nat) : list action := round_prog (C !!! i) false.

Definition pre (i : nat) : list action :=
  (GetL <$> up_LQ (C !!! i)) ++ (GetB <$> up_BQ (C !!! i)).
Definition mid (i : nat) : list action :=
  Put <$> (down_LQ (C !!! i) ++ down_BQ (C !!! i) ++ WQ (C !!! i)
           ++ up_BQ (C !!! i)).
Definition post (i : nat) : list action :=
  GetW <$> (WQ (C !!! i) ++ down_BQ (C !!! i)).

Lemma prog_eq (i : nat) : prog i = pre i ++ ProxA :: (mid i ++ post i).
Proof. unfold prog, round_prog, pre, mid, post. by rewrite <- app_assoc. Qed.

Lemma peers_disjoint (a b : nat) (k k' : cls) :
  k <> k' -> b ∈ peers k (C !!! a) -> b ∉ peers k' (C !!! a).
Proof.
  intros Hne Hk Hk'. apply HC_mem in Hk as (_ & _ & Hk).
  apply HC_mem in Hk' as (_ & _ & Hk'). congruence.
Qed.

Lemma targets_NoDup (i : nat) :
  NoDup (down_LQ (C !!! i) ++ down_BQ (C !!! i) ++ WQ (C !!! i)
         ++ up_BQ (C !!! i)).
Proof.
  rewrite !NoDup_app. repeat split.
  - apply (HC_nd i cDownL).
  - intros x Hx. rewrite !elem_of_app. intros [H|[H|H]].
    + by apply (peers_disjoint i x cDownL cDownB).
    + by apply (peers_disjoint i x cDownL cWQ).
    + by apply (peers_disjoint i x cDownL cUpB).
  - apply (HC_nd i cDownB).
  - intros x Hx. rewrite !elem_of_app. intros [H|H].
    + by apply (peers_disjoint i x cDownB cWQ).
    + by apply (peers_disjoint i x cDownB cUpB).
  - apply (HC_nd i cWQ).
  - intros x Hx. by apply (peers_disjoint i x cWQ cUpB).
  - apply (HC_nd i cUpB).
Qed.

Lemma pre_NoDup (i : nat) : NoDup (pre i).
Proof.
  unfold pre. apply NoDup_app. repeat split.
  - apply (NoDup_fmap_2 _), (HC_nd i cUpL).
  - intros x Hx Hx'. apply list_elem_of_fmap in Hx as (a & -> & _).
    by apply list_elem_of_fmap in Hx' as (a' & [=] & _).
  - apply (NoDup_fmap_2 _), (HC_nd i cUpB).
Qed.

Lemma post_NoDup (i : nat) : NoDup (post i).
Proof.
  unfold post. apply (NoDup_fmap_2 _), NoDup_app. repeat split.
  - apply (HC_nd i cWQ).
  - intros x Hx. by apply (peers_disjoint i x cWQ cDownB).
  - apply (HC_nd i cDownB).
Qed.

Lemma prog_NoDup (i : nat) : NoDup (prog i).
Proof.
  rewrite prog_eq. apply NoDup_app. split; [apply pre_NoDup|]. split.
  - intros x Hx Hx'. unfold pre in Hx.
    apply elem_of_app in Hx as [Hx|Hx];
      apply list_elem_of_fmap in Hx as (a & -> & _);
      apply elem_of_cons in Hx' as [[=]|Hx'];
      apply elem_of_app in Hx' as [Hx'|Hx'];
      by apply list_elem_of_fmap in Hx' as (a' & [=] & _).
  - apply NoDup_cons. split.
    + intros Hx. apply elem_of_app in Hx as [Hx|Hx];
        by apply list_elem_of_fmap in Hx as (a' & [=] & _).
    + apply NoDup_app. split; [apply (NoDup_fmap_2 _), targets_NoDup|].
      split; [|apply post_NoDup].
      intros x Hx Hx'. apply list_elem_of_fmap in Hx as (a & -> & _).
      by apply list_elem_of_fmap in Hx' as (a' & [=] & _).
Qed.

(** What the round holds. *)
Lemma GetL_in_prog (i a : nat) :
  GetL a ∈ prog i <->
  (i < n)%nat /\ (a < n)%nat /\ cls_of W L i a = Some cUpL.
Proof.
  rewrite <- (HC_mem i a cUpL). unfold prog, round_prog. simpl.
  rewrite !elem_of_app, !elem_of_cons, !elem_of_app, !list_elem_of_fmap. split.
  - intros [(x & [= ->] & ?)|[(x & [=] & ?)|[[=]|[(x & [=] & ?)|(x & [=] & ?)]]]].
    done.
  - intros ?. left. by exists a.
Qed.

Lemma GetB_in_prog (i a : nat) :
  GetB a ∈ prog i <->
  (i < n)%nat /\ (a < n)%nat /\ cls_of W L i a = Some cUpB.
Proof.
  rewrite <- (HC_mem i a cUpB). unfold prog, round_prog. simpl.
  rewrite !elem_of_app, !elem_of_cons, !elem_of_app, !list_elem_of_fmap. split.
  - intros [(x & [=] & ?)|[(x & [= ->] & ?)|[[=]|[(x & [=] & ?)|(x & [=] & ?)]]]].
    done.
  - intros ?. right. left. by exists a.
Qed.

Lemma GetW_in_prog (i a : nat) :
  GetW a ∈ prog i <->
  (i < n)%nat /\ (a < n)%nat /\
  (cls_of W L i a = Some cWQ \/ cls_of W L i a = Some cDownB).
Proof.
  unfold prog, round_prog. simpl.
  rewrite !elem_of_app, !elem_of_cons, !elem_of_app, !list_elem_of_fmap. split.
  - intros [(x & [=] & ?)|[(x & [=] & ?)|[[=]|[(x & [=] & ?)|(x & [= ->] & Hx)]]]].
    apply elem_of_app in Hx as [Hx|Hx].
    + apply (HC_mem i x cWQ) in Hx. naive_solver.
    + apply (HC_mem i x cDownB) in Hx. naive_solver.
  - intros (Hi & Ha & Hc). do 4 right. exists a. split; [done|].
    apply elem_of_app. destruct Hc as [Hc|Hc].
    + left. by apply (HC_mem i a cWQ).
    + right. by apply (HC_mem i a cDownB).
Qed.

Lemma Put_in_prog (i b : nat) :
  Put b ∈ prog i <->
  (i < n)%nat /\ (b < n)%nat /\
  (cls_of W L i b = Some cDownL \/ cls_of W L i b = Some cDownB \/
   cls_of W L i b = Some cWQ \/ cls_of W L i b = Some cUpB).
Proof.
  unfold prog, round_prog. simpl.
  rewrite !elem_of_app, !elem_of_cons, !elem_of_app, !list_elem_of_fmap. split.
  - intros [(x & [=] & ?)|[(x & [=] & ?)|[[=]|[(x & [= ->] & Hx)|(x & [=] & ?)]]]].
    rewrite !elem_of_app in Hx. destruct Hx as [Hx|[Hx|[Hx|Hx]]].
    + apply (HC_mem i x cDownL) in Hx. naive_solver.
    + apply (HC_mem i x cDownB) in Hx. naive_solver.
    + apply (HC_mem i x cWQ) in Hx. naive_solver.
    + apply (HC_mem i x cUpB) in Hx. naive_solver.
  - intros (Hi & Hb & Hc). do 3 right. left. exists b. split; [done|].
    rewrite !elem_of_app. destruct Hc as [Hc|[Hc|[Hc|Hc]]].
    + left. by apply (HC_mem i b cDownL).
    + right. left. by apply (HC_mem i b cDownB).
    + do 2 right. left. by apply (HC_mem i b cWQ).
    + do 3 right. by apply (HC_mem i b cUpB).
Qed.

Lemma ProxA_in_prog (i : nat) : ProxA ∈ prog i.
Proof. rewrite prog_eq. apply elem_of_app. right. left. Qed.

Lemma Tele_not_in_prog (i : nat) : Tele ∉ prog i.
Proof.
  unfold prog, round_prog. simpl.
  rewrite !elem_of_app, !elem_of_cons, !elem_of_app, !list_elem_of_fmap.
  intros [(x & [=] & ?)|[(x & [=] & ?)|[[=]|[(x & [=] & ?)|(x & [=] & ?)]]]].
Qed.

(** Where the actions stand. *)
Lemma at_ProxA (i p : nat) :
  prog i !! p = Some ProxA -> take p (prog i) = pre i.
Proof.
  intros Hp. pose proof (prog_NoDup i) as Hnd. rewrite prog_eq in Hp, Hnd |- *.
  rewrite (lookup_once _ _ _ _ Hnd Hp). by rewrite take_app_length.
Qed.

Lemma prog_eq_mid (i : nat) :
  prog i = (pre i ++ [ProxA]) ++ (mid i ++ post i).
Proof. rewrite prog_eq. by rewrite <- app_assoc. Qed.

Lemma prog_eq_post (i : nat) :
  prog i = ((pre i ++ [ProxA]) ++ mid i) ++ post i.
Proof. rewrite prog_eq_mid. by rewrite <- !app_assoc. Qed.

Lemma ProxA_before_Put (i p b : nat) :
  prog i !! p = Some (Put b) -> ProxA ∈ take p (prog i).
Proof.
  intros Hp. clear HC_mem HC_nd. rewrite prog_eq_mid in Hp |- *.
  eapply take_covers; [done| |].
  - rewrite elem_of_app, list_elem_of_singleton. unfold pre.
    rewrite elem_of_app, !list_elem_of_fmap. naive_solver.
  - apply elem_of_app. right. by left.
Qed.

Lemma Put_before_GetW (i p a b : nat) :
  prog i !! p = Some (GetW a) -> Put b ∈ prog i -> Put b ∈ take p (prog i).
Proof.
  intros Hp Hb. clear HC_mem HC_nd. rewrite prog_eq_post in Hp, Hb |- *.
  eapply take_covers; [done| |].
  - rewrite !elem_of_app, list_elem_of_singleton. unfold pre, mid.
    rewrite elem_of_app, !list_elem_of_fmap. naive_solver.
  - apply elem_of_app in Hb as [Hb|Hb]; [done|].
    unfold post in Hb. by apply list_elem_of_fmap in Hb as (? & [=] & _).
Qed.

Lemma ProxA_before_GetW (i p a : nat) :
  prog i !! p = Some (GetW a) -> ProxA ∈ take p (prog i).
Proof.
  intros Hp. clear HC_mem HC_nd. rewrite prog_eq_mid in Hp |- *.
  eapply take_covers; [done| |].
  - rewrite !elem_of_app, list_elem_of_singleton. unfold pre.
    rewrite elem_of_app, !list_elem_of_fmap. naive_solver.
  - apply elem_of_app. right. by left.
Qed.

End Program.

(** * The tolerance *)

Lemma isclose0_opp (z : Qc) : isclose0 (- z) = isclose0 z.
Proof.
  unfold isclose0. apply bool_decide_ext. split; intros [H1 H2]; split.
  - apply Qcopp_le_compat in H2. rewrite Qcopp_involutive in H2. exact H2.
  - apply Qcopp_le_compat in H1. rewrite !Qcopp_involutive in H1. exact H1.
  - apply Qcopp_le_compat in H2. exact H2.
  - apply Qcopp_le_compat in H1. rewrite Qcopp_involutive in H1. exact H1.
Qed.

Lemma isclose0_zero : isclose0 0 = true.
Proof. done. Qed.

Lemma clear_cut_L (n : nat) (Z : matrix) :
  square n Z -> clear_cut n Z -> clear_cut n (mneg (tril1 Z)).
Proof.
  intros HZ Hc i j Hi Hj. rewrite (entry_L n) by done.
  case_bool_decide; [|done]. rewrite isclose0_opp. intros Hz.
  rewrite (Hc i j) by done. ring.
Qed.

(** * Channels and classes *)

Lemma channel_send (W L : matrix) (a b : nat) :
  channel W L a b = true <->
  cls_of W L a b = Some cDownL \/ cls_of W L a b = Some cDownB \/
  cls_of W L a b = Some cWQ \/ cls_of W L a b = Some cUpB.
Proof.
  unfold channel, cls_of, classify.
  repeat case_bool_decide; try lia;
    repeat (destruct (isclose0 _)); simpl; naive_solver.
Qed.

Lemma channel_recv (W L : matrix) (a b : nat) :
  channel W L a b = true <->
  cls_of W L b a = Some cUpL \/ cls_of W L b a = Some cUpB \/
  cls_of W L b a = Some cWQ \/ cls_of W L b a = Some cDownB.
Proof.
  unfold channel, cls_of, classify.
  repeat case_bool_decide; try lia;
    repeat (destruct (isclose0 _)); simpl; naive_solver.
Qed.

Lemma cls_of_up (W L : matrix) (a b : nat) :
  cls_of W L a b = Some cUpL \/ cls_of W L a b = Some cUpB -> (b < a)%nat.
Proof.
  unfold cls_of. repeat case_bool_decide; try done;
    destruct (classify W L b a); naive_solver.
Qed.

(** * What a round accumulates *)

Section Accumulate.
Context {V : Type} {AV : Arr V}.
Variables (n : nat) (W Z : matrix) (C : list comms).
Let L := mneg (tril1 Z).
Hypothesis HW : square n W.
Hypothesis HZ : square n Z.
Hypothesis Hsym : symmetric n W.
Hypothesis HcW : clear_cut n W.
Hypothesis HcZ : clear_cut n Z.
Hypothesis HC_mem : forall a b k, b ∈ peers k (C !!! a) <->
  (a < n)%nat /\ (b < n)%nat /\ cls_of W L a b = Some k.
Hypothesis HC_nd : forall a k, NoDup (peers k (C !!! a)).

(** What an action adds to [local_r] and to [v_temp], for the
    messages [x j] of the round. *)
Definition rterm (i : nat) (x : nat -> V) (a : action) : V :=
  match a with
  | GetL j | GetB j => smul (entry L i j) (x j)
  | _ => vzero
  end.

Definition tterm (i : nat) (x : nat -> V) (a : action) : V :=
  match a with
  | GetB j | GetW j => smul (entry W i j) (x j)
  | _ => vzero
  end.

Lemma pre_sum (i : nat) (x : nat -> V) :
  (i < n)%nat ->
  py_sum (rterm i x <$> pre C i)
  = vsumn i (fun j => smul (entry L i j) (x j)).
Proof.
  intros Hi. unfold pre. rewrite fmap_app, <- !list_fmap_compose.
  change (rterm i x ∘ GetL) with (fun j => smul (entry L i j) (x j)).
  change (rterm i x ∘ GetB) with (fun j => smul (entry L i j) (x j)).
  rewrite <- fmap_app.
  rewrite (py_sum_peers n
    (fun j => bool_decide (cls_of W L i j = Some cUpL \/
                           cls_of W L i j = Some cUpB))).
  - rewrite (vsumn_shorter n i) by
      (lia || (intros j Hj; rewrite bool_decide_eq_false_2; [done|];
               intros Hc%cls_of_up; lia)).
    apply vsumn_ext. intros j Hj. case_bool_decide as Hc; [done|].
    unfold cls_of, classify in Hc.
    rewrite bool_decide_eq_true_2 in Hc by done.
    destruct (isclose0 (entry L i j)) eqn:Hl.
    + pose proof (clear_cut_L n Z HZ HcZ i j) as Hzero. fold L in Hzero.
      rewrite Hzero by (done || lia). by rewrite smul_zero_l.
    + destruct (isclose0 (entry W i j)); naive_solver.
  - apply NoDup_app. split; [apply (HC_nd i cUpL)|].
    split; [|apply (HC_nd i cUpB)]. intros j Hj.
    by apply (peers_disjoint n W L C HC_mem i j cUpL cUpB).
  - intros j. rewrite elem_of_app, (HC_mem i j cUpL), (HC_mem i j cUpB).
    rewrite bool_decide_eq_true. naive_solver.
Qed.

Lemma round_sum (i : nat) (x : nat -> V) :
  (i < n)%nat ->
  vadd (smul (entry W i i) (x i)) (py_sum (tterm i x <$> prog C i))
  = vsumn n (fun j => smul (entry W i j) (x j)).
Proof.
  intros Hi. rewrite prog_eq.
  rewrite fmap_app, fmap_cons, fmap_app, py_sum_app, py_sum_cons, py_sum_app.
  rewrite (py_sum_zero (tterm i x) (mid C i))
    by (by intros a (b & -> & _)%list_elem_of_fmap).
  unfold pre, post. rewrite fmap_app, py_sum_app, <- !list_fmap_compose.
  rewrite (py_sum_zero (tterm i x ∘ GetL)) by done.
  change (tterm i x ∘ GetB) with (fun j => smul (entry W i j) (x j)).
  change (tterm i x ∘ GetW) with (fun j => smul (entry W i j) (x j)).
  change (tterm i x ProxA) with (vzero : V).
  rewrite !vadd_zero, <- py_sum_app, <- fmap_app.
  rewrite (py_sum_peers n
    (fun j => bool_decide (cls_of W L i j = Some cUpB \/
                           cls_of W L i j = Some cWQ \/
                           cls_of W L i j = Some cDownB))).
  - rewrite <- (vsumn_single n i (smul (entry W i i) (x i))) at 1 by done.
    rewrite <- vsumn_vadd. apply vsumn_ext. intros j Hj.
    destruct (decide (j = i)) as [->|Hne].
    + rewrite bool_decide_eq_true_2 by done.
      rewrite bool_decide_eq_false_2; [apply vadd_zero_r|].
      unfold cls_of. rewrite !bool_decide_eq_false_2 by lia. naive_solver.
    + rewrite (bool_decide_eq_false_2 (j = i)) by done. rewrite vadd_zero.
      case_bool_decide as Hc; [done|].
      assert (entry W i j = 0) as ->; [|by rewrite smul_zero_l].
      unfold cls_of, classify in Hc.
      destruct (decide (j < i)%nat) as [Hlt|Hge].
      * rewrite bool_decide_eq_true_2 in Hc by done.
        apply HcW; [done..|].
        destruct (isclose0 (entry W i j)); [done|].
        destruct (isclose0 (entry L i j)); naive_solver.
      * rewrite bool_decide_eq_false_2 in Hc by done.
        rewrite bool_decide_eq_true_2 in Hc by lia.
        rewrite (Hsym i j) by done. apply HcW; [done..|].
        destruct (isclose0 (entry W j i)); [done|].
        destruct (isclose0 (entry L j i)); naive_solver.
  - rewrite !NoDup_app. repeat split.
    + apply (HC_nd i cUpB).
    + intros j Hj. rewrite elem_of_app. intros [H|H].
      * by apply (peers_disjoint n W L C HC_mem i j cUpB cWQ).
      * by apply (peers_disjoint n W L C HC_mem i j cUpB cDownB).
    + apply (HC_nd i cWQ).
    + intros j Hj. by apply (peers_disjoint n W L C HC_mem i j cWQ cDownB).
    + apply (HC_nd i cDownB).
  - intros j. rewrite !elem_of_app, (HC_mem i j cUpB), (HC_mem i j cWQ),
      (HC_mem i j cDownB), bool_decide_eq_true. naive_solver.
Qed.

End Accumulate.

(** * The invariant of the pool *)


#[global] Instance wstate_inhabited {V : Type} {AV : Arr V}
  : Inhabited (wstate (V:=V)) :=
  populate (worker_init O inhabitant vzero no_comms 0%Z).

Section Pool.
Context {V : Type} {AV : Arr V}.
Variables (n : nat) (W Z : matrix) (gamma alpha : Qc).
Variables (rs : list (resolvent V)) (v0 : list V) (itrs0 : int).
Variable C : list comms.
Let L := mneg (tril1 Z).
Hypothesis HW : square n W.
Hypothesis HZ : square n Z.
Hypothesis Hrs : length rs = n.
Hypothesis Hv0 : length v0 = n.
Hypothesis Hsym : symmetric n W.
Hypothesis HcW : clear_cut n W.
Hypothesis HcZ : clear_cut n Z.
Hypothesis HC_len : length C = n.
Hypothesis HC_mem : forall a b k, b ∈ peers k (C !!! a) <->
  (a < n)%nat /\ (b < n)%nat /\ cls_of W L a b = Some k.
Hypothesis HC_nd : forall a k, NoDup (peers k (C !!! a)).

(** The serial iterates: [X k j] is [x] of node [j] after [k]
    iterations, [Vr k j] its [v]. *)
Definition X (k j : nat) : V := (ref n rs W Z gamma alpha v0 k).1 !!! j.
Definition Vr (k j : nat) : V := (ref n rs W Z gamma alpha v0 k).2 !!! j.

(** The actions of the current round that a worker has run. *)
Definition prefix (w : wstate (V:=V)) : list action :=
  match pc_ w with
  | At p => take p (round_prog (comms_data w) false)
  | _ => []
  end.

Definition got (a : nat) (l : list action) : Prop :=
  GetL a ∈ l \/ GetB a ∈ l \/ GetW a ∈ l.

(** How many messages a worker has sent to [b] and taken from [a]. *)
Definition sent (w : wstate (V:=V)) (b : nat) : nat :=
  itr w + (if bool_decide (Put b ∈ prefix w) then 1 else 0).
Definition rcvd (w : wstate (V:=V)) (a : nat) : nat :=
  itr w + (if bool_decide (got a (prefix w)) then 1 else 0).

Definition winv (i : nat) (w : wstate (V:=V)) : Prop :=
  node w = i /\ resolvent_ w = rs !!! i /\ comms_data w = C !!! i /\
  itrs w = itrs0 /\
  local_v w = Vr (itr w) i /\
  w_value w = (if bool_decide (ProxA ∈ prefix w) then X (S (itr w)) i
               else X (itr w) i) /\
  (Z.of_nat (itr w) <= Z.max itrs0 0)%Z /\
  match pc_ w with
  | Head => local_r w = vzero /\ v_temp w = vzero
  | Done => ~ (Z.of_nat (itr w) < itrs0)%Z
  | At p =>
      (Z.of_nat (itr w) < itrs0)%Z /\ (p <= length (prog C i))%nat /\
      local_r w = py_sum (rterm Z i (X (S (itr w))) <$> take p (prog C i)) /\
      v_temp w = py_sum (tterm W i (X (S (itr w))) <$> take p (prog C i))
  end.

(** The queue from [a] to [b] holds the [x] of [a] for the rounds that
    [a] has sent and [b] has not yet taken, oldest first. *)
Definition cinv (s : sys (V:=V)) : Prop :=
  forall a b q, queue (channels s) !! (a, b) = Some q ->
    (rcvd (workers s !!! b) a <= sent (workers s !!! a) b)%nat /\
    q = (fun t => X (S t) a)
          <$> seq (rcvd (workers s !!! b) a)
                  (sent (workers s !!! a) b - rcvd (workers s !!! b) a).

Definition dinv (Q : gmap (nat * nat) (list V)) : Prop :=
  forall a b, is_Some (Q !! (a, b)) <->
    (a < n)%nat /\ (b < n)%nat /\ channel W L a b = true.

Definition inv (s : sys (V:=V)) : Prop :=
  length (workers s) = n /\ monitor (channels s) = None /\
  (forall i, (i < n)%nat -> winv i (workers s !!! i)) /\
  dinv (queue (channels s)) /\ cinv s.

(** What a step does to the channels. *)
Inductive effect : Type := Quiet | Sent (b : nat) | Received (a : nat).

Definition effect_ok (i : nat) (w w' : wstate (V:=V))
    (Q Q' : gmap (nat * nat) (list V)) (e : effect) : Prop :=
  match e with
  | Quiet =>
      Q' = Q /\
      (forall b, is_Some (Q !! (i, b)) -> sent w' b = sent w b) /\
      (forall a, is_Some (Q !! (a, i)) -> rcvd w' a = rcvd w a)
  | Sent b =>
      exists l, Q !! (i, b) = Some l /\
        Q' = <[(i, b):=l ++ [X (S (itr w)) i]]> Q /\
        sent w b = itr w /\ sent w' b = S (itr w) /\
        (forall b', b' <> b -> sent w' b' = sent w b') /\
        (forall a, rcvd w' a = rcvd w a)
  | Received a =>
      exists x l, Q !! (a, i) = Some (x :: l) /\
        Q' = <[(a, i):=l]> Q /\
        rcvd w a = itr w /\ rcvd w' a = S (itr w) /\
        (forall a', a' <> a -> rcvd w' a' = rcvd w a') /\
        (forall b, sent w' b = sent w b)
  end.

(** ** Facts about the round of node [i] *)

Lemma prog_channel_out (i b : nat) :
  Put b ∈ prog C i <-> (i < n)%nat /\ (b < n)%nat /\ channel W L i b = true.
Proof. rewrite (Put_in_prog n W L C HC_mem), channel_send. naive_solver. Qed.

Lemma prog_channel_in (i a : nat) :
  got a (prog C i) <-> (i < n)%nat /\ (a < n)%nat /\ channel W L a i = true.
Proof.
  unfold got. rewrite (GetL_in_prog n W L C HC_mem),
    (GetB_in_prog n W L C HC_mem), (GetW_in_prog n W L C HC_mem),
    channel_recv. naive_solver.
Qed.

(** A node takes one message per peer and round. *)
Lemma got_fresh (i p a : nat) (A : action) :
  prog C i !! p = Some A -> A = GetL a \/ A = GetB a \/ A = GetW a ->
  ~ got a (take p (prog C i)).
Proof.
  intros Hp HA Hgot.
  pose proof (not_elem_of_take _ _ _ (prog_NoDup n W L C HC_mem HC_nd i) Hp)
    as Hfresh.
  assert (A ∈ prog C i) as HAin by by eapply list_elem_of_lookup_2.
  assert (forall B, B ∈ take p (prog C i) -> B ∈ prog C i) as Hsub.
  { intros B HB. apply list_elem_of_lookup in HB as [q Hq].
    apply lookup_take_Some in Hq as [Hq _].
    by eapply list_elem_of_lookup_2. }
  assert (GetL a ∈ prog C i -> cls_of W L i a = Some cUpL) as HL
    by (rewrite (GetL_in_prog n W L C HC_mem); naive_solver).
  assert (GetB a ∈ prog C i -> cls_of W L i a = Some cUpB) as HB
    by (rewrite (GetB_in_prog n W L C HC_mem); naive_solver).
  assert (GetW a ∈ prog C i ->
          cls_of W L i a = Some cWQ \/ cls_of W L i a = Some cDownB) as HGW
    by (rewrite (GetW_in_prog n W L C HC_mem); naive_solver).
  destruct Hgot as [Hg|[Hg|Hg]]; pose proof (Hsub _ Hg) as Hg';
    destruct HA as [-> | [-> | ->]]; try done.
  - specialize (HL Hg'). specialize (HB HAin). congruence.
  - specialize (HL Hg'). specialize (HGW HAin). naive_solver.
  - specialize (HB Hg'). specialize (HL HAin). congruence.
  - specialize (HB Hg'). specialize (HGW HAin). naive_solver.
  - specialize (HGW Hg'). specialize (HL HAin). naive_solver.
  - specialize (HGW Hg'). specialize (HB HAin). naive_solver.
Qed.


(** ** One action further *)

Lemma advance_prefix (i p : nat) (A : action) (w : wstate) (r t x : V) :
  comms_data w = C !!! i -> prog C i !! p = Some A ->
  prefix (advance w p r t x) = take p (prog C i) ++ [A].
Proof.
  intros Hc Hp. unfold prefix, advance. simpl. rewrite Hc.
  by apply take_S_r.
Qed.

Lemma prefix_At (i p : nat) (w : wstate) :
  comms_data w = C !!! i -> pc_ w = At p -> prefix w = take p (prog C i).
Proof. intros Hc Hpc. unfold prefix. by rewrite Hpc, Hc. Qed.

Lemma sent_advance (i p b : nat) (A : action) (w : wstate) (r t x : V) :
  comms_data w = C !!! i -> pc_ w = At p -> prog C i !! p = Some A ->
  sent (advance w p r t x) b
  = (sent w b + (if bool_decide (A = Put b) then 1 else 0))%nat.
Proof.
  intros Hc Hpc Hp. unfold sent.
  rewrite (advance_prefix i p A) by done.
  rewrite (prefix_At i p) by done.
  change (itr (advance w p r t x)) with (itr w).
  pose proof (not_elem_of_take _ _ _ (prog_NoDup n W L C HC_mem HC_nd i) Hp).
  repeat case_bool_decide; subst; try lia; set_solver.
Qed.

Lemma rcvd_advance (i p a : nat) (A : action) (w : wstate) (r t x : V) :
  comms_data w = C !!! i -> pc_ w = At p -> prog C i !! p = Some A ->
  rcvd (advance w p r t x) a
  = (rcvd w a
     + (if bool_decide (A = GetL a \/ A = GetB a \/ A = GetW a)
        then 1 else 0))%nat.
Proof.
  intros Hc Hpc Hp. unfold rcvd.
  rewrite (advance_prefix i p A) by done.
  rewrite (prefix_At i p) by done.
  change (itr (advance w p r t x)) with (itr w).
  pose proof (got_fresh i p a A Hp) as Hfresh. unfold got in *.
  repeat case_bool_decide; try lia; set_solver.
Qed.

Lemma winv_advance (i p : nat) (A : action) (w : wstate) (r t x : V) :
  winv i w -> pc_ w = At p -> prog C i !! p = Some A ->
  r = vadd (local_r w) (rterm Z i (X (S (itr w))) A) ->
  t = vadd (v_temp w) (tterm W i (X (S (itr w))) A) ->
  x = (if bool_decide (A = ProxA) then X (S (itr w)) i else w_value w) ->
  winv i (advance w p r t x).
Proof.
  intros (Hnode & Hres & Hc & Hitrs & Hv & Hx & Hrange & Hpc) Hat Hp Hr Ht Hx'.
  rewrite Hat in Hpc. destruct Hpc as (Hlt & Hle & Hlr & Hvt).
  pose proof (lookup_lt_Some _ _ _ Hp) as Hplt.
  unfold winv. rewrite (advance_prefix i p A) by done.
  rewrite (prefix_At i p) in Hx by done.
  cbn [advance node resolvent_ comms_data itrs itr local_v local_r v_temp
       w_value pc_].
  repeat split; try done; try lia.
  - rewrite Hx'. pose proof
      (not_elem_of_take _ _ _ (prog_NoDup n W L C HC_mem HC_nd i) Hp).
    rewrite Hx. repeat case_bool_decide; subst; try done; set_solver.
  - rewrite (take_S_r _ _ _ Hp), fmap_app, py_sum_app. cbn [fmap list_fmap].
    by rewrite py_sum_singleton, Hr, Hlr.
  - rewrite (take_S_r _ _ _ Hp), fmap_app, py_sum_app. cbn [fmap list_fmap].
    by rewrite py_sum_singleton, Ht, Hvt.
Qed.


(** ** A step of a worker keeps its invariant *)

Lemma rcvd_fresh (i p a : nat) (A : action) (w : wstate) :
  comms_data w = C !!! i -> pc_ w = At p -> prog C i !! p = Some A ->
  A = GetL a \/ A = GetB a \/ A = GetW a -> rcvd w a = itr w.
Proof.
  intros Hc Hpc Hp HA. unfold rcvd. rewrite (prefix_At i p) by done.
  rewrite bool_decide_eq_false_2; [lia|]. by eapply got_fresh.
Qed.

Lemma sent_fresh (i p b : nat) (w : wstate) :
  comms_data w = C !!! i -> pc_ w = At p -> prog C i !! p = Some (Put b) ->
  sent w b = itr w.
Proof.
  intros Hc Hpc Hp. unfold sent. rewrite (prefix_At i p) by done.
  rewrite bool_decide_eq_false_2; [lia|].
  by apply not_elem_of_take; [apply (prog_NoDup n W L C HC_mem HC_nd)|].
Qed.

(** The message that the resolvent call hands on is the serial [x]. *)
Lemma prox_value (i k : nat) :
  (i < n)%nat ->
  prox (rs !!! i)
    (vadd (Vr k i) (py_sum (rterm Z i (X (S k)) <$> pre C i))) alpha
  = X (S k) i.
Proof.
  intros Hi.
  destruct (ref_step n rs W Z gamma alpha v0 HW HZ Hrs Hv0 k) as [_ Heq].
  destruct (Heq i Hi) as [Hsw _]. unfold sweep_eq in Hsw.
  unfold X at 2. rewrite Hsw. f_equal. unfold Vr, vsub. f_equal.
  rewrite (pre_sum n W Z C HZ HcZ HC_mem HC_nd i _ Hi).
  rewrite <- vsumn_vopp. apply vsumn_ext. intros j Hj.
  rewrite (entry_L n Z i j HZ) by lia.
  rewrite bool_decide_eq_true_2 by done. by rewrite smul_opp.
Qed.

(** The update of lines 223-227 gives the serial [v]. *)
Lemma update_value (i k : nat) :
  (i < n)%nat ->
  vsub (Vr k i)
    (smul gamma
       (vadd (smul (entry W i i) (X (S k) i))
          (py_sum (tterm W i (X (S k)) <$> prog C i))))
  = Vr (S k) i.
Proof.
  intros Hi.
  destruct (ref_step n rs W Z gamma alpha v0 HW HZ Hrs Hv0 k) as [_ Heq].
  destruct (Heq i Hi) as [_ Hco]. unfold consensus_eq in Hco.
  unfold Vr at 2. rewrite Hco.
  by rewrite (round_sum n W Z C Hsym HcW HC_mem HC_nd i _ Hi).
Qed.


Lemma worker_step_ok (i : nat) (w w' : wstate) (s s' : shared) :
  (i < n)%nat -> winv i w -> monitor s = None -> dinv (queue s) ->
  (forall a x l, queue s !! (a, i) = Some (x :: l) ->
                 x = X (S (rcvd w a)) a) ->
  worker_step W L gamma alpha w s = Stepped (w', s') ->
  winv i w' /\ monitor s' = None /\
  exists e, effect_ok i w w' (queue s) (queue s') e.
Proof.
  intros Hi Hw Hmon Hdom Hin Hstep.
  pose proof Hw as (Hnode & Hres & Hc & Hitrs & Hv & Hx & Hrange & Hpc).
  pose proof (square_L n Z HZ) as HL. fold L in HL.
  unfold worker_step in Hstep. rewrite Hnode, Hc, Hmon in Hstep.
  change (round_prog (C !!! i) (bool_decide (is_Some None)))
    with (prog C i) in Hstep.
  destruct (pc_ w) as [|p|] eqn:Hat; [| |done].
  - (* the test of the loop *)
    injection Hstep as <- <-. split; [|split; [done|]].
    + unfold loop_head. rewrite Hmon.
      destruct Hpc as [Hr Ht].
      assert (prefix w = []) as Hpre by (unfold prefix; by rewrite Hat).
      rewrite Hpre in Hx.
      destruct (bool_decide (Z.of_nat (itr w) < itrs w)%Z) eqn:Hlt.
      * apply bool_decide_eq_true in Hlt. rewrite Hitrs in Hlt.
        unfold winv, prefix. simpl.
        repeat split; try done; try lia.
      * apply bool_decide_eq_false in Hlt. rewrite Hitrs in Hlt.
        unfold winv, prefix. simpl.
        repeat split; try done; try lia.
    + exists Quiet. unfold loop_head. rewrite Hmon. split; [done|].
      assert (forall w0 : wstate,
                pc_ w0 = At 0 \/ pc_ w0 = Done \/ pc_ w0 = Head ->
                prefix w0 = []) as Hnil.
      { intros w0 [H|[H|H]]; unfold prefix; by rewrite H. }
      unfold sent, rcvd. rewrite (Hnil w) by auto.
      destruct (bool_decide (Z.of_nat (itr w) < itrs w)%Z);
        rewrite Hnil by (simpl; auto); done.
  - destruct Hpc as (Hlt & Hle & Hlr & Hvt).
    destruct (prog C i !! p) as [A|] eqn:Hp.
    + assert (A ∈ prog C i) as HA by by eapply list_elem_of_lookup_2.
      destruct A as [k|k| | |k|k].
      * (* GetL *)
        pose proof (proj1 (GetL_in_prog n W L C HC_mem i k) HA)
          as (_ & Hk & Hcls).
        rewrite (mget_entry n L i k) in Hstep by done. simpl in Hstep.
        unfold get in Hstep.
        destruct (queue s !! (k, i)) as [[|x q]|] eqn:Hq; try done.
        injection Hstep as <- <-. simpl.
        pose proof (rcvd_fresh i p k _ w Hc Hat Hp (or_introl eq_refl)) as Hr.
        pose proof (Hin k x q Hq) as ->. rewrite Hr.
        split; [|split; [done|]].
        -- apply (winv_advance i p (GetL k)); try done.
           ++ simpl. by rewrite vadd_zero_r.
        -- exists (Received k). simpl. exists (X (S (itr w)) k), q.
           rewrite Hr in Hq. repeat split; try done.
           ++ rewrite (rcvd_advance i p k (GetL k)) by done.
              rewrite bool_decide_eq_true_2 by (by left). lia.
           ++ intros a' Ha'. rewrite (rcvd_advance i p a' (GetL k)) by done.
              rewrite bool_decide_eq_false_2 by naive_solver. lia.
           ++ intros b. rewrite (sent_advance i p b (GetL k)) by done.
              rewrite bool_decide_eq_false_2 by done. lia.
      * (* GetB *)
        pose proof (proj1 (GetB_in_prog n W L C HC_mem i k) HA)
          as (_ & Hk & Hcls).
        unfold get in Hstep.
        destruct (queue s !! (k, i)) as [[|x q]|] eqn:Hq; try done.
        rewrite (mget_entry n L i k), (mget_entry n W i k) in Hstep by done.
        simpl in Hstep. injection Hstep as <- <-. simpl.
        pose proof (rcvd_fresh i p k _ w Hc Hat Hp
                      (or_intror (or_introl eq_refl))) as Hr.
        pose proof (Hin k x q Hq) as ->. rewrite Hr.
        split; [|split; [done|]].
        -- by apply (winv_advance i p (GetB k)).
        -- exists (Received k). simpl. exists (X (S (itr w)) k), q.
           rewrite Hr in Hq. repeat split; try done.
           ++ rewrite (rcvd_advance i p k (GetB k)) by done.
              rewrite bool_decide_eq_true_2 by (right; by left). lia.
           ++ intros a' Ha'. rewrite (rcvd_advance i p a' (GetB k)) by done.
              rewrite bool_decide_eq_false_2 by naive_solver. lia.
           ++ intros b. rewrite (sent_advance i p b (GetB k)) by done.
              rewrite bool_decide_eq_false_2 by done. lia.
      * (* the resolvent *)
        injection Hstep as <- <-. split; [|split; [done|]].
        -- apply (winv_advance i p ProxA); try done.
           ++ simpl. by rewrite vadd_zero_r.
           ++ simpl. by rewrite vadd_zero_r.
           ++ rewrite bool_decide_eq_true_2 by done.
              rewrite Hres, Hv, Hlr, (at_ProxA n W L C HC_mem HC_nd i p Hp).
              by apply prox_value.
        -- exists Quiet. split; [done|]. split.
           ++ intros b _. rewrite (sent_advance i p b ProxA) by done.
              rewrite bool_decide_eq_false_2 by done. lia.
           ++ intros a _. rewrite (rcvd_advance i p a ProxA) by done.
              rewrite bool_decide_eq_false_2 by naive_solver. lia.
      * (* no monitor, no telemetry *)
        by apply (Tele_not_in_prog C) in HA.
      * (* Put *)
        destruct (queue s !! (i, k)) as [q|] eqn:Hq; [|done].
        injection Hstep as <- <-. simpl.
        pose proof (ProxA_before_Put C i p k Hp) as Hprox.
        rewrite (prefix_At i p) in Hx by done.
        rewrite bool_decide_eq_true_2 in Hx by done.
        split; [|split; [done|]].
        -- apply (winv_advance i p (Put k)); try done.
           ++ simpl. by rewrite vadd_zero_r.
           ++ simpl. by rewrite vadd_zero_r.
        -- exists (Sent k). simpl. exists q. rewrite Hx.
           pose proof (sent_fresh i p k w Hc Hat Hp) as Hs.
           repeat split; try done.
           ++ rewrite (sent_advance i p k (Put k)) by done.
              rewrite bool_decide_eq_true_2 by done. lia.
           ++ intros b' Hb'. rewrite (sent_advance i p b' (Put k)) by done.
              rewrite bool_decide_eq_false_2 by naive_solver. lia.
           ++ intros a. rewrite (rcvd_advance i p a (Put k)) by done.
              rewrite bool_decide_eq_false_2 by naive_solver. lia.
      * (* GetW *)
        pose proof (proj1 (GetW_in_prog n W L C HC_mem i k) HA)
          as (_ & Hk & Hcls).
        rewrite (mget_entry n W i k) in Hstep by done. simpl in Hstep.
        unfold get in Hstep.
        destruct (queue s !! (k, i)) as [[|x q]|] eqn:Hq; try done.
        injection Hstep as <- <-. simpl.
        pose proof (rcvd_fresh i p k _ w Hc Hat Hp
                      (or_intror (or_intror eq_refl))) as Hr.
        pose proof (Hin k x q Hq) as ->. rewrite Hr.
        split; [|split; [done|]].
        -- apply (winv_advance i p (GetW k)); try done.
           ++ simpl. by rewrite vadd_zero_r.
        -- exists (Received k). simpl. exists (X (S (itr w)) k), q.
           rewrite Hr in Hq. repeat split; try done.
           ++ rewrite (rcvd_advance i p k (GetW k)) by done.
              rewrite bool_decide_eq_true_2 by (right; by right). lia.
           ++ intros a' Ha'. rewrite (rcvd_advance i p a' (GetW k)) by done.
              rewrite bool_decide_eq_false_2 by naive_solver. lia.
           ++ intros b. rewrite (sent_advance i p b (GetW k)) by done.
              rewrite bool_decide_eq_false_2 by done. lia.
    + (* the update *)
      rewrite (mget_entry n W i i) in Hstep by done. simpl in Hstep.
      injection Hstep as <- <-.
      apply lookup_ge_None in Hp.
      rewrite (prefix_At i p) in Hx by done.
      rewrite take_ge in Hx, Hvt by done.
      rewrite bool_decide_eq_true_2 in Hx by apply ProxA_in_prog.
      split; [|split; [done|]].
      * unfold winv, prefix. simpl.
        repeat split; try done; try lia.
        rewrite Hv, Hx, Hvt. by apply update_value.
      * exists Quiet. split; [done|].
        unfold sent, rcvd. rewrite (prefix_At i p w) by done.
        rewrite take_ge by done. unfold prefix. simpl. split.
        -- intros b Hb. apply Hdom in Hb.
           rewrite bool_decide_eq_true_2 by (by apply prog_channel_out).
           lia.
        -- intros a Ha. apply Hdom in Ha as (Ha & _ & Hch).
           rewrite bool_decide_eq_true_2 by (by apply prog_channel_in).
           lia.
Qed.


(** ** A step of the pool keeps the invariant *)

Lemma channel_irrefl (a : nat) : channel W L a a = false.
Proof. unfold channel. by rewrite !bool_decide_eq_false_2 by lia. Qed.

Lemma head_message (s : sys) (a i : nat) (x : V) (l : list V) :
  cinv s -> queue (channels s) !! (a, i) = Some (x :: l) ->
  x = X (S (rcvd (workers s !!! i) a)) a.
Proof.
  intros Hc Hq. destruct (Hc a i _ Hq) as [Hle Heq].
  destruct (sent (workers s !!! a) i - rcvd (workers s !!! i) a)%nat;
    simpl in Heq; [done|]. by injection Heq as -> _.
Qed.

Lemma sys_exec_inv (i : nat) (s s' : sys) :
  inv s -> sys_exec W L gamma alpha i s = Stepped s' -> inv s'.
Proof.
  intros (Hlen & Hmon & Hws & Hdom & Hc) Hstep. unfold sys_exec in Hstep.
  destruct (workers s !! i) as [w|] eqn:Hw; [|done].
  assert (i < n)%nat as Hi by (apply lookup_lt_Some in Hw; lia).
  pose proof (list_lookup_total_correct _ _ _ Hw) as Hwi.
  destruct (worker_step W L gamma alpha w (channels s))
    as [[w' sh']| | |] eqn:Hstep'; try done.
  injection Hstep as <-.
  destruct (worker_step_ok i w w' (channels s) sh') as (Hw' & Hmon' & e & He);
    [done|by rewrite <- Hwi; apply Hws|done|done| |done|].
  { intros a x l Hq. rewrite <- Hwi. by apply (head_message s a i x l). }
  assert (forall a, (<[i:=w']> (workers s)) !!! a
                    = if decide (a = i) then w' else workers s !!! a) as Hlook.
  { intros a. case_decide as Ha.
    - subst a. apply list_lookup_total_insert_eq. lia.
    - by rewrite list_lookup_total_insert_ne by done. }
  unfold inv, cinv. simpl. split; [by rewrite length_insert|].
  split; [done|]. split; [|split].
  - intros j Hj. rewrite Hlook. case_decide; [by subst j|by apply Hws].
  - destruct e as [|b0|a0]; simpl in He.
    + destruct He as (-> & _). done.
    + destruct He as (l & Hl & -> & _). intros a b.
      rewrite <- (Hdom a b). destruct (decide ((a, b) = (i, b0))) as [[= -> ->]|].
      * rewrite lookup_insert_eq, Hl. split; by eexists.
      * by rewrite lookup_insert_ne.
    + destruct He as (x & l & Hl & -> & _). intros a b.
      rewrite <- (Hdom a b). destruct (decide ((a, b) = (a0, i))) as [[= -> ->]|].
      * rewrite lookup_insert_eq, Hl. split; by eexists.
      * by rewrite lookup_insert_ne.
  - intros a b q Hq. rewrite !Hlook.
    destruct e as [|b0|a0]; simpl in He.
    + destruct He as (HQ & Hs & Hr). rewrite HQ in Hq.
      destruct (Hc a b q Hq) as [Hle Heq].
      assert (sent (if decide (a = i) then w' else workers s !!! a) b
              = sent (workers s !!! a) b) as ->.
      { case_decide; [|done]. subst a. rewrite Hwi. apply Hs. by eexists. }
      assert (rcvd (if decide (b = i) then w' else workers s !!! b) a
              = rcvd (workers s !!! b) a) as ->.
      { case_decide; [|done]. subst b. rewrite Hwi. apply Hr. by eexists. }
      done.
    + destruct He as (l & Hl & HQ & Hs0 & Hs1 & Hs & Hr). rewrite HQ in Hq.
      assert (rcvd (if decide (b = i) then w' else workers s !!! b) a
              = rcvd (workers s !!! b) a) as ->.
      { case_decide; [|done]. subst b. rewrite Hwi. apply Hr. }
      destruct (decide ((a, b) = (i, b0))) as [[= -> ->]|Hne].
      * rewrite lookup_insert_eq in Hq. injection Hq as <-.
        rewrite decide_True by done. rewrite Hs1.
        destruct (Hc i b0 l Hl) as [Hle Heq]. rewrite Hwi, Hs0 in Hle, Heq.
        split; [lia|].
        replace (S (itr w) - rcvd (workers s !!! b0) i)%nat
          with (S (itr w - rcvd (workers s !!! b0) i)) by lia.
        rewrite seq_S, fmap_app, <- Heq. simpl. do 3 f_equal. lia.
      * rewrite lookup_insert_ne in Hq by done.
        destruct (Hc a b q Hq) as [Hle Heq].
        assert (sent (if decide (a = i) then w' else workers s !!! a) b
                = sent (workers s !!! a) b) as ->; [|done].
        case_decide; [|done]. subst a. rewrite Hwi. apply Hs. congruence.
    + destruct He as (x & l & Hl & HQ & Hr0 & Hr1 & Hr & Hs). rewrite HQ in Hq.
      assert (sent (if decide (a = i) then w' else workers s !!! a) b
              = sent (workers s !!! a) b) as ->.
      { case_decide; [|done]. subst a. rewrite Hwi. apply Hs. }
      destruct (decide ((a, b) = (a0, i))) as [[= -> ->]|Hne].
      * rewrite lookup_insert_eq in Hq. injection Hq as <-.
        rewrite decide_True by done. rewrite Hr1.
        destruct (Hc a0 i _ Hl) as [Hle Heq]. rewrite Hwi, Hr0 in Hle, Heq.
        destruct (sent (workers s !!! a0) i - itr w)%nat as [|m] eqn:Hm;
          simpl in Heq; [done|]. injection Heq as _ ->.
        split; [lia|]. by replace (sent (workers s !!! a0) i - S (itr w))%nat
          with m by lia.
      * rewrite lookup_insert_ne in Hq by done.
        destruct (Hc a b q Hq) as [Hle Heq].
        assert (rcvd (if decide (b = i) then w' else workers s !!! b) a
                = rcvd (workers s !!! b) a) as ->; [|done].
        case_decide; [|done]. subst b. rewrite Hwi. apply Hr. congruence.
Qed.


(** ** No worker crashes, and what a blocked worker waits for *)

Lemma worker_step_cases (i : nat) (w : wstate) (s : shared) :
  (i < n)%nat -> winv i w -> monitor s = None -> dinv (queue s) ->
  match worker_step W L gamma alpha w s with
  | Stepped _ => True
  | Returned => pc_ w = Done
  | Crashed _ => False
  | Blocked =>
      exists p A a, pc_ w = At p /\ prog C i !! p = Some A /\
        (A = GetL a \/ A = GetB a \/ A = GetW a) /\
        queue s !! (a, i) = Some []
  end.
Proof.
  intros Hi (Hnode & Hres & Hc & Hitrs & Hv & Hx & Hrange & Hpc) Hmon Hdom.
  pose proof (square_L n Z HZ) as HL. fold L in HL.
  unfold worker_step. rewrite Hnode, Hc, Hmon.
  change (round_prog (C !!! i) (bool_decide (is_Some None))) with (prog C i).
  destruct (pc_ w) as [|p|] eqn:Hat; [done| |done].
  destruct (prog C i !! p) as [A|] eqn:Hp.
  - assert (A ∈ prog C i) as HA by by eapply list_elem_of_lookup_2.
    assert (forall a, A = GetL a \/ A = GetB a \/ A = GetW a ->
              (a < n)%nat /\ is_Some (queue s !! (a, i))) as Hsrc.
    { intros a HAa.
      assert (got a (prog C i)) as Hgot
        by (unfold got; destruct HAa as [<- | [<- | <-]]; auto).
      apply prog_channel_in in Hgot as (_ & Ha & Hch).
      split; [done|]. by apply Hdom. }
    destruct A as [k|k| | |k|k].
    + destruct (Hsrc k) as [Hk [q Hq]]; [by left|].
      rewrite (mget_entry n L i k) by done. simpl. unfold get. rewrite Hq.
      destruct q; [|done]. by exists p, (GetL k), k; repeat split; auto.
    + destruct (Hsrc k) as [Hk [q Hq]]; [right; by left|].
      unfold get. rewrite Hq. destruct q.
      * by exists p, (GetB k), k; repeat split; auto.
      * by rewrite (mget_entry n L i k), (mget_entry n W i k) by done.
    + done.
    + by apply (Tele_not_in_prog C) in HA.
    + apply prog_channel_out in HA as (_ & Hk & Hch).
      destruct (proj2 (Hdom i k)) as [q Hq]; [done|]. by rewrite Hq.
    + destruct (Hsrc k) as [Hk [q Hq]]; [right; by right|].
      rewrite (mget_entry n W i k) by done. simpl. unfold get. rewrite Hq.
      destruct q; [|done]. by exists p, (GetW k), k; repeat split; auto.
  - by rewrite (mget_entry n W i i) by done.
Qed.

Lemma sys_exec_safe (i : nat) (s : sys) (e : exn) :
  inv s -> sys_exec W L gamma alpha i s <> Crashed e.
Proof.
  intros (Hlen & Hmon & Hws & Hdom & Hc). unfold sys_exec.
  destruct (workers s !! i) as [w|] eqn:Hw; [|done].
  assert (i < n)%nat as Hi by (apply lookup_lt_Some in Hw; lia).
  pose proof (list_lookup_total_correct _ _ _ Hw) as Hwi.
  pose proof (worker_step_cases i w (channels s) Hi) as Hcases.
  rewrite <- Hwi in Hcases at 1. specialize (Hcases (Hws i Hi) Hmon Hdom).
  destruct (worker_step W L gamma alpha w (channels s)) as [[]| | |]; done.
Qed.


(** ** The pool never deadlocks *)

Definition stage (w : wstate (V:=V)) : nat :=
  if bool_decide (ProxA ∈ prefix w) then 1 else 0.

(** A blocked worker waits for one that is behind it: in an earlier
    round, or in the same round before its resolvent call, or there
    too and of smaller index. *)
Definition rank (w : wstate (V:=V)) : nat :=
  ((2 * itr w + stage w) * n + node w)%nat.

Lemma pre_get_stage (i p a : nat) (A : action) :
  prog C i !! p = Some A -> A = GetL a \/ A = GetB a ->
  ProxA ∉ take p (prog C i).
Proof.
  intros Hp HA Hin.
  pose proof (prog_NoDup n W L C HC_mem HC_nd i) as Hnd.
  apply list_elem_of_lookup in Hin as [q Hq].
  apply lookup_take_Some in Hq as [Hq Hqp].
  rewrite prog_eq in Hp, Hq, Hnd.
  pose proof (lookup_once _ _ _ _ Hnd Hq) as ->.
  assert (A ∈ pre C i) as HApre.
  { unfold pre. rewrite elem_of_app, !list_elem_of_fmap.
    assert (A ∈ prog C i) as HAin
      by (rewrite prog_eq; by eapply list_elem_of_lookup_2).
    destruct HA as [-> | ->].
    - apply (GetL_in_prog n W L C HC_mem) in HAin.
      left. exists a. split; [done|]. by apply (HC_mem i a cUpL).
    - apply (GetB_in_prog n W L C HC_mem) in HAin.
      right. exists a. split; [done|]. by apply (HC_mem i a cUpB). }
  apply list_elem_of_lookup in HApre as [q' Hq'].
  pose proof (lookup_lt_Some _ _ _ Hq') as Hlt.
  assert ((pre C i ++ ProxA :: mid C i ++ post C i) !! q' = Some A) as Hq''
    by by rewrite lookup_app_l.
  pose proof (NoDup_lookup _ _ _ _ Hnd Hp Hq''). lia.
Qed.

Lemma exec_stepped (j : nat) (s : sys) (w' : wstate) (sh' : shared) :
  (j < length (workers s))%nat ->
  worker_step W L gamma alpha (workers s !!! j) (channels s)
  = Stepped (w', sh') ->
  exists s', sys_exec W L gamma alpha j s = Stepped s'.
Proof.
  intros Hj Hstep. unfold sys_exec.
  rewrite (list_lookup_lookup_total_lt _ _ Hj), Hstep. by eexists.
Qed.

Lemma blocked_progress (s : sys) (m : nat) :
  inv s ->
  forall i, (i < n)%nat -> (rank (workers s !!! i) < m)%nat ->
    worker_step W L gamma alpha (workers s !!! i) (channels s) = Blocked ->
    exists j s', sys_exec W L gamma alpha j s = Stepped s'.
Proof.
  intros Hinv. pose proof Hinv as (Hlen & Hmon & Hws & Hdom & Hc).
  induction m as [|m IH]; intros i Hi Hrank Hblk; [lia|].
  pose proof (worker_step_cases i _ (channels s) Hi (Hws i Hi) Hmon Hdom)
    as Hcase. rewrite Hblk in Hcase.
  destruct Hcase as (p & A & a & Hat & Hp & HA & Hq).
  pose proof (Hws i Hi) as (Hnode & _ & Hci & _ & _ & _ & _ & Hpc).
  rewrite Hat in Hpc. destruct Hpc as (Hlt & _).
  (* the peer [a] has sent as many messages as [i] has taken *)
  destruct (Hc a i _ Hq) as [Hle Hnil].
  symmetry in Hnil. apply fmap_nil_inv in Hnil.
  assert (sent (workers s !!! a) i = rcvd (workers s !!! i) a) as Hsent.
  { destruct (sent (workers s !!! a) i - rcvd (workers s !!! i) a)%nat
      eqn:Hd; [lia|done]. }
  rewrite (rcvd_fresh i p a A _ Hci Hat Hp HA) in Hsent.
  assert (got a (prog C i)) as Hgot.
  { assert (A ∈ prog C i) by by eapply list_elem_of_lookup_2.
    unfold got. destruct HA as [<- | [<- | <-]]; auto. }
  apply prog_channel_in in Hgot as (_ & Ha & Hch).
  pose proof (Hws a Ha) as Hwa.
  pose proof (worker_step_cases a _ (channels s) Ha Hwa Hmon Hdom) as Hcase.
  destruct (worker_step W L gamma alpha (workers s !!! a) (channels s))
    as [[w' sh']| | |] eqn:Hstep; [| | |done].
  - exists a. apply (exec_stepped a s w' sh'); [lia|done].
  - (* [a] is blocked too, and behind [i] *)
    destruct Hcase as (pa & A' & c & Hata & Hpa & HA' & _).
    destruct Hwa as (Hnodea & _ & Hca & _).
    apply (IH a Ha); [|done].
    assert (stage (workers s !!! a) = 0%nat \/
            (Put i ∈ prefix (workers s !!! a))) as Hst.
    { destruct HA' as [-> | [-> | ->]].
      - left. unfold stage. rewrite (prefix_At a pa) by done.
        rewrite bool_decide_eq_false_2; [done|].
        eapply pre_get_stage; [done|by left].
      - left. unfold stage. rewrite (prefix_At a pa) by done.
        rewrite bool_decide_eq_false_2; [done|].
        eapply pre_get_stage; [done|by right].
      - right. rewrite (prefix_At a pa) by done.
        eapply Put_before_GetW; [done|]. by apply prog_channel_out. }
    unfold rank in *. rewrite Hnode in Hrank. rewrite Hnodea.
    unfold sent in Hsent.
    assert (stage (workers s !!! a) <= 1)%nat
      by (unfold stage; destruct (bool_decide (ProxA ∈ _)); lia).
    destruct Hst as [Hst|Hput].
    + case_bool_decide as Hput.
      * assert (itr (workers s !!! a) < itr (workers s !!! i))%nat by lia.
        nia.
      * assert (itr (workers s !!! a) = itr (workers s !!! i)) as Hk by lia.
        rewrite Hst, Hk.
        destruct HA as [-> | [-> | ->]].
        -- assert (GetL a ∈ prog C i) as Hin
             by by eapply list_elem_of_lookup_2.
           apply (GetL_in_prog n W L C HC_mem) in Hin as (_ & _ & Hcls).
           assert (a < i)%nat by (eapply cls_of_up; by left). nia.
        -- assert (GetB a ∈ prog C i) as Hin
             by by eapply list_elem_of_lookup_2.
           apply (GetB_in_prog n W L C HC_mem) in Hin as (_ & _ & Hcls).
           assert (a < i)%nat by (eapply cls_of_up; by right). nia.
        -- assert (stage (workers s !!! i) = 1%nat) as Hsti.
           { unfold stage. rewrite (prefix_At i p) by done.
             rewrite bool_decide_eq_true_2; [done|].
             by eapply ProxA_before_GetW. }
           rewrite Hsti in Hrank. nia.
    + rewrite bool_decide_eq_true_2 in Hsent by done.
      assert (itr (workers s !!! a) < itr (workers s !!! i))%nat by lia.
      nia.
  - (* [a] has returned, yet [i] waits for its message *)
    destruct Hwa as (_ & _ & _ & _ & _ & _ & _ & Hpca).
    rewrite Hcase in Hpca. unfold sent, prefix in Hsent.
    rewrite Hcase in Hsent.
    rewrite bool_decide_eq_false_2 in Hsent by apply not_elem_of_nil. lia.
Qed.

Lemma progress (s : sys) :
  inv s -> ~ finished s -> exists j s', sys_exec W L gamma alpha j s = Stepped s'.
Proof.
  intros Hinv Hnf. pose proof Hinv as (Hlen & Hmon & Hws & Hdom & Hc).
  unfold finished in Hnf. apply not_Forall_Exists in Hnf; [|apply _].
  apply Exists_exists in Hnf as (w & Hin & Hpc).
  apply list_elem_of_lookup in Hin as [i Hi].
  assert (i < n)%nat as Hlt by (apply lookup_lt_Some in Hi; lia).
  pose proof (list_lookup_total_correct _ _ _ Hi) as Hwi. subst w.
  pose proof (worker_step_cases i _ (channels s) Hlt (Hws i Hlt) Hmon Hdom)
    as Hcase.
  destruct (worker_step W L gamma alpha (workers s !!! i) (channels s))
    as [[w' sh']| | |] eqn:Hstep; [| |done|done].
  - exists i. apply (exec_stepped i s w' sh'); [lia|done].
  - apply (blocked_progress s (S (rank (workers s !!! i))) Hinv i);
      [done|lia|done].
Qed.


(** ** The pool runs to the end *)

(** The steps that a worker has left. *)
Definition todo_w (w : wstate (V:=V)) : nat :=
  let len := length (round_prog (comms_data w) false) in
  let rounds := (Z.to_nat (itrs w) - itr w)%nat in
  match pc_ w with
  | Done => 0
  | Head => rounds * (len + 2) + 1
  | At p => rounds * (len + 2) - p
  end.

Definition todo (s : sys (V:=V)) : nat := sum_list_with todo_w (workers s).

Lemma worker_step_advance (w w' : wstate) (s s' : shared) (p : nat)
    (A : action) :
  pc_ w = At p ->
  round_prog (comms_data w) (bool_decide (is_Some (monitor s))) !! p
  = Some A ->
  worker_step W L gamma alpha w s = Stepped (w', s') ->
  exists r t x, w' = advance w p r t x.
Proof.
  intros Hat Hp Hstep. unfold worker_step in Hstep. rewrite Hat, Hp in Hstep.
  unfold lift, get in Hstep.
  destruct A; repeat case_match; try done; injection Hstep as <- <-; eauto.
Qed.

Lemma worker_step_todo (i : nat) (w w' : wstate) (s s' : shared) :
  winv i w -> monitor s = None ->
  worker_step W L gamma alpha w s = Stepped (w', s') ->
  (todo_w w' < todo_w w)%nat.
Proof.
  intros (Hnode & Hres & Hc & Hitrs & Hv & Hx & Hrange & Hpc) Hmon Hstep.
  destruct (pc_ w) as [|p|] eqn:Hat.
  - unfold worker_step in Hstep. rewrite Hat in Hstep.
    injection Hstep as <- <-. unfold loop_head. rewrite Hmon.
    unfold todo_w. rewrite Hat.
    destruct (bool_decide (Z.of_nat (itr w) < itrs w)%Z) eqn:Hb; simpl.
    2:{ rewrite Nat.add_1_r. apply Nat.lt_0_succ. }
    apply bool_decide_eq_true in Hb.
    assert (0 < Z.to_nat (itrs w) - itr w)%nat by lia. nia.
  - destruct Hpc as (Hlt & Hle & _).
    destruct (round_prog (comms_data w) (bool_decide (is_Some (monitor s)))
                !! p) as [A|] eqn:Hp.
    + destruct (worker_step_advance w w' s s' p A Hat Hp Hstep)
        as (r & t & x & ->).
      rewrite Hmon in Hp. apply lookup_lt_Some in Hp.
      change (round_prog (comms_data w) (bool_decide (is_Some None)))
        with (round_prog (comms_data w) false) in Hp.
      unfold todo_w. rewrite Hat. simpl.
      assert (0 < Z.to_nat (itrs w) - itr w)%nat by lia. nia.
    + unfold worker_step in Hstep. rewrite Hat, Hp in Hstep.
      unfold lift in Hstep. case_match; [|done].
      injection Hstep as <- <-.
      rewrite Hmon in Hp. apply lookup_ge_None in Hp.
      change (round_prog (comms_data w) (bool_decide (is_Some None)))
        with (round_prog (comms_data w) false) in Hp.
      unfold todo_w. rewrite Hat. simpl.
      rewrite Hc in Hp |- *. unfold prog in Hle.
      assert (0 < Z.to_nat (itrs w) - itr w)%nat by lia. nia.
  - unfold worker_step in Hstep. by rewrite Hat in Hstep.
Qed.

Lemma sum_list_with_insert {A : Type} (f : A -> nat) (l : list A) (i : nat)
    (x y : A) :
  l !! i = Some x -> (f y < f x)%nat ->
  (sum_list_with f (<[i:=y]> l) < sum_list_with f l)%nat.
Proof.
  revert i. induction l as [|a l IH]; intros [|i] Hi Hlt; simpl in *;
    try done.
  - injection Hi as ->. lia.
  - specialize (IH i Hi Hlt). lia.
Qed.

Lemma sys_exec_todo (i : nat) (s s' : sys) :
  inv s -> sys_exec W L gamma alpha i s = Stepped s' ->
  (todo s' < todo s)%nat.
Proof.
  intros (Hlen & Hmon & Hws & Hdom & Hc) Hstep. unfold sys_exec in Hstep.
  destruct (workers s !! i) as [w|] eqn:Hw; [|done].
  assert (i < n)%nat as Hi by (apply lookup_lt_Some in Hw; lia).
  pose proof (list_lookup_total_correct _ _ _ Hw) as Hwi.
  destruct (worker_step W L gamma alpha w (channels s))
    as [[w' sh']| | |] eqn:Hstep'; try done.
  injection Hstep as <-. unfold todo. simpl.
  apply (sum_list_with_insert _ _ _ w); [done|].
  apply (worker_step_todo i w w' (channels s) sh'); [|done..].
  rewrite <- Hwi. by apply Hws.
Qed.

Lemma terminates (s : sys) :
  inv s ->
  exists s', rtc (sys_step W L gamma alpha) s s' /\ finished s' /\ inv s'.
Proof.
  remember (todo s) as m eqn:Hm. revert s Hm.
  induction m as [m IH] using lt_wf_ind. intros s -> Hinv.
  destruct (decide (finished s)) as [Hfin|Hnf].
  - by exists s.
  - destruct (progress s Hinv Hnf) as (j & s1 & Hstep).
    destruct (IH (todo s1) (sys_exec_todo j s s1 Hinv Hstep) s1 eq_refl)
      as (s2 & Hrtc & Hfin & Hinv2).
    { by eapply sys_exec_inv. }
    exists s2. split; [|done]. eapply rtc_l; [|done]. by exists j.
Qed.

Lemma reachable_inv (s s' : sys) :
  inv s -> rtc (sys_step W L gamma alpha) s s' -> inv s'.
Proof.
  intros Hinv Hrtc. induction Hrtc as [|s s1 s2 [j Hstep] _ IH]; [done|].
  apply IH. by eapply sys_exec_inv.
Qed.

(** ** The pool at the start *)

Definition pool0 (Q0 : gmap (nat * nat) (list V)) : sys :=
  {| workers :=
       (fun i => worker_init i (rs !!! i) (v0 !!! i) (C !!! i) itrs0)
         <$> seq 0 n;
     channels := {| queue := Q0; monitor := None |} |}.

Lemma pool0_inv (Q0 : gmap (nat * nat) (list V)) :
  dinv Q0 -> (forall key q, Q0 !! key = Some q -> q = []) -> inv (pool0 Q0).
Proof.
  intros Hdom Hempty.
  assert (forall i, (i < n)%nat ->
            workers (pool0 Q0) !!! i
            = worker_init i (rs !!! i) (v0 !!! i) (C !!! i) itrs0) as Hlook.
  { intros i Hi. apply list_lookup_total_correct. simpl.
    by rewrite list_lookup_fmap, lookup_seq_lt. }
  unfold inv. split; [simpl; by rewrite length_fmap, length_seq|].
  split; [done|]. split; [|split; [done|]].
  - intros i Hi. rewrite Hlook by done. unfold winv, prefix. simpl.
    repeat split; try done; try lia.
    unfold X, ref. simpl. by rewrite lookup_total_replicate_2.
  - intros a b q Hq. pose proof (Hempty _ _ Hq) as ->.
    destruct (proj1 (Hdom a b)) as (Ha & Hb & _); [by eexists|].
    simpl in Hq. rewrite !Hlook by done. unfold sent, rcvd, prefix. simpl.
    split; [lia|done].
Qed.


(** ** What the invariant says about the iterates *)

Lemma past_prox_prefix (w : wstate) :
  past_prox w = bool_decide (ProxA ∈ prefix w).
Proof.
  unfold past_prox, prefix. destruct (pc_ w); [|done|].
  - symmetry. apply bool_decide_eq_false_2, not_elem_of_nil.
  - symmetry. apply bool_decide_eq_false_2, not_elem_of_nil.
Qed.

Lemma inv_agrees (s : sys) (w : wstate) :
  inv s -> w ∈ workers s -> agrees n rs W Z gamma alpha v0 w.
Proof.
  intros (Hlen & Hmon & Hws & Hdom & Hc) Hin.
  apply list_elem_of_lookup in Hin as [i Hi].
  assert (i < n)%nat as Hlt by (apply lookup_lt_Some in Hi; lia).
  pose proof (list_lookup_total_correct _ _ _ Hi) as Hwi. subst w.
  destruct (Hws i Hlt) as (Hnode & _ & _ & _ & Hv & Hx & _).
  unfold agrees.
  exists (ref n rs W Z gamma alpha v0 (itr (workers s !!! i))).1,
         (ref n rs W Z gamma alpha v0 (itr (workers s !!! i))).2,
         (ref n rs W Z gamma alpha v0 (S (itr (workers s !!! i)))).1,
         (ref n rs W Z gamma alpha v0 (S (itr (workers s !!! i)))).2.
  rewrite <- !surjective_pairing.
  rewrite !(ref_iterates n rs W Z gamma alpha v0 HW HZ Hrs Hv0).
  rewrite Hnode, past_prox_prefix. repeat split; [done|].
  rewrite Hx. by case_bool_decide.
Qed.

Lemma inv_finished (s : sys) (w : wstate) :
  inv s -> finished s -> w ∈ workers s -> itr w = Z.to_nat itrs0.
Proof.
  intros (Hlen & Hmon & Hws & Hdom & Hc) Hfin Hin.
  pose proof (proj1 (Forall_forall _ _) Hfin w Hin) as Hdone.
  apply list_elem_of_lookup in Hin as [i Hi].
  assert (i < n)%nat as Hlt by (apply lookup_lt_Some in Hi; lia).
  pose proof (list_lookup_total_correct _ _ _ Hi) as Hwi. subst w.
  destruct (Hws i Hlt) as (_ & _ & _ & _ & _ & _ & Hrange & Hpc).
  rewrite Hdone in Hpc. lia.
Qed.

End Pool.

Section Equivalence.
Context {V : Type} {AV : Arr V} {D : Type}.
Variable getWarmPrimal : V -> matrix -> list V.

Lemma constructed_lookup (resolvents : list (D -> resolvent V))
    (data : list D) (i : nat) (b : D -> resolvent V) (d : D) :
  resolvents !! i = Some b -> data !! i = Some d ->
  constructed resolvents data !!! i = b d.
Proof.
  intros Hb Hd. apply list_lookup_total_correct. unfold constructed.
  rewrite lookup_zip_with, Hb. simpl. by rewrite Hd.
Qed.

(** The driver starts the pool [pool0] over the plan. *)
Lemma parallel_init_ok (n : nat) (data : list D)
    (resolvents : list (D -> resolvent V)) (W Z : matrix)
    (wp : option V) (wd : option (list V)) (itrs0 : int) (v0 : list V)
    (Q : gmap (nat * nat) (list V)) (C : list comms) :
  (0 < n)%nat -> length data = n -> length resolvents = n ->
  length v0 = n -> length C = n ->
  requiredQueues W (mneg (tril1 Z)) = Ok (Q, C) ->
  parallel_seed getWarmPrimal n (mneg (tril1 Z)) wp wd = Ok v0 ->
  parallel_init getWarmPrimal n data resolvents W Z wp wd itrs0 false
  = Ok (pool0 n (constructed resolvents data) v0 itrs0 C Q).
Proof.
  intros Hn Hdata Hres Hv0 HC Hplan Hseed. unfold parallel_init.
  rewrite Hplan. simpl. rewrite Hseed. simpl.
  rewrite bool_decide_eq_false_2 by lia. simpl.
  rewrite (comprehension_fmap _ _
    (fun i => worker_init i (constructed resolvents data !!! i) (v0 !!! i)
                (C !!! i) itrs0)); [done|].
  intros i Hi. apply elem_of_seq in Hi.
  destruct (lookup_lt_is_Some_2 data i) as [d Hd]; [lia|].
  destruct (lookup_lt_is_Some_2 resolvents i) as [b Hb]; [lia|].
  rewrite (index_Ok _ _ _ Hd), (index_Ok _ _ _ Hb). simpl.
  rewrite !index_total by lia. simpl.
  by rewrite (constructed_lookup resolvents data i b d).
Qed.


End Equivalence.

#[global] Instance pyval_inhabited {V : Type} {AV : Arr V} {D : Type}
  : Inhabited (pyval (V:=V) (D:=D)) := populate (Array vzero).

Section Frame.
Context {V : Type} {AV : Arr V} {CS D : Type}.
Variable check : CS -> list V -> bool * CS.
Implicit Types (h : gmap positive (pyobj (V:=V) (D:=D))).

Lemma setup_node_frame (data resolvents l : positive) (i : nat) h h' :
  setup_node data resolvents i h = Ok h' -> l <> resolvents ->
  h' !! l = h !! l.
Proof.
  unfold setup_node. intros Hrun Hne.
  repeat (apply bind_Ok in Hrun as (? & _ & Hrun)).
  injection Hrun as <-. by rewrite lookup_insert_ne.
Qed.

(** Whatever the loop of lines 31-36 does, and whether it ends or
    raises, only the list [resolvents] changes. *)
Lemma setup_frame (data resolvents l : positive) (nodes : list nat) h :
  l <> resolvents -> (setup data resolvents nodes h).1 !! l = h !! l.
Proof.
  intros Hne. revert h. induction nodes as [|i nodes IH]; intros h; [done|].
  simpl. destruct (setup_node data resolvents i h) as [h'|e] eqn:Hnode;
    [|done].
  rewrite IH. by eapply setup_node_frame.
Qed.

(** The loop over the nodes [a, a+1, ..., a+m-1] of a list whose
    entries from [a] on are still the caller's. *)
Lemma setup_run (data resolvents : positive) (rl dl : list (pyval (V:=V) (D:=D)))
    (m a : nat) h (cur : list pyval) :
  h !! resolvents = Some (PList cur) -> h !! data = Some (PList dl) ->
  length cur = length rl ->
  (forall i, (a <= i)%nat -> cur !! i = rl !! i) ->
  (forall i, (a <= i < a + m)%nat ->
     exists r, call (rl !!! i) (dl !!! i) = Ok r /\
               (i < length rl)%nat /\ (i < length dl)%nat) ->
  exists fin,
    setup data resolvents (seq a m) h
    = (<[resolvents:=PList fin]> h, Ok ()) /\
    length fin = length rl /\
    (forall i, (i < a)%nat -> fin !! i = cur !! i) /\
    (forall i, (a <= i < a + m)%nat ->
       exists r, call (rl !!! i) (dl !!! i) = Ok r /\
                 fin !! i = Some (Instance r)) /\
    (forall i, (a + m <= i)%nat -> fin !! i = rl !! i).
Proof.
  revert a h cur. induction m as [|m IH]; intros a h cur Hres Hdata Hlen Hrest Hok.
  - exists cur. simpl. rewrite insert_id by done.
    repeat split; try done; [lia|]. intros i Hi. apply Hrest. lia.
  - destruct (Hok a) as (r & Hcall & Hra & Hda); [lia|].
    assert (data <> resolvents) as Hne.
    { intros ->. rewrite Hres in Hdata. injection Hdata as <-.
      rewrite (list_lookup_total_correct cur a (rl !!! a)) in Hcall
        by (rewrite Hrest by lia; by apply list_lookup_lookup_total_lt).
      by destruct (rl !!! a). }
    assert (setup_node data resolvents a h
            = Ok (<[resolvents:=PList (<[a:=Instance r]> cur)]> h)) as Hnode.
    { unfold setup_node, read_list. rewrite Hres, Hdata. simpl.
      rewrite (index_Ok cur a (rl !!! a))
        by (rewrite Hrest by lia; by apply list_lookup_lookup_total_lt).
      simpl. rewrite (index_Ok dl a (dl !!! a))
        by by apply list_lookup_lookup_total_lt.
      simpl. rewrite Hcall. simpl. rewrite assign_Ok by lia. done. }
    cbn [seq setup]. rewrite Hnode.
    destruct (IH (S a) (<[resolvents:=PList (<[a:=Instance r]> cur)]> h)
                 (<[a:=Instance r]> cur))
      as (fin & Hrun & Hlfin & Hlow & Hmid & Hhigh).
    + by rewrite lookup_insert_eq.
    + by rewrite lookup_insert_ne.
    + by rewrite length_insert.
    + intros i Hi. rewrite list_lookup_insert_ne by lia. apply Hrest. lia.
    + intros i Hi. apply Hok. lia.
    + exists fin. rewrite Hrun, insert_insert_eq.
      repeat split; try done.
      * intros i Hi. rewrite Hlow by lia. by rewrite list_lookup_insert_ne by lia.
      * intros i Hi. destruct (decide (i = a)) as [->|Hia].
        -- exists r. split; [done|]. rewrite Hlow by lia.
           apply list_lookup_insert_eq. lia.
        -- apply Hmid. lia.
      * intros i Hi. apply Hhigh. lia.
Qed.

(** C9.  Whatever its outcome, the serial entry point leaves every
    object of the caller but the list [resolvents] as it was; and when
    the first [n] entries of that list are classes that construct on the
    first [n] payloads of [data], the call replaces each of them by the
    instance [resolvents[i](data[i])] and leaves the entries from [n]
    on alone. *)
Theorem serialAlgorithm_frame (new_checker : list V -> CS) (n : nat)
    (data resolvents W Z : positive) (wp wd : option positive)
    (itrs : int) (gamma alpha : Qc) h (rl dl : list pyval) :
  h !! resolvents = Some (PList rl) -> h !! data = Some (PList dl) ->
  (forall i, (i < n)%nat ->
     exists r, call (rl !!! i) (dl !!! i) = Ok r /\
               (i < length rl)%nat /\ (i < length dl)%nat) ->
  let h' := (serialAlgorithm check new_checker n data resolvents W Z wp wd
               itrs gamma alpha h).1 in
  (forall l, l <> resolvents -> h' !! l = h !! l) /\
  exists fin, h' !! resolvents = Some (PList fin) /\
    length fin = length rl /\
    (forall i, (i < n)%nat ->
       exists r, call (rl !!! i) (dl !!! i) = Ok r /\
                 fin !! i = Some (Instance r)) /\
    (forall i, (n <= i)%nat -> fin !! i = rl !! i).
Proof.
  intros Hres Hdata Hok h'.
  assert (h' = (setup data resolvents (seq 0 n) h).1) as ->.
  { unfold h', serialAlgorithm.
    by destruct (setup data resolvents (seq 0 n) h). }
  split; [intros l Hl; by apply setup_frame|].
  destruct (setup_run data resolvents rl dl n 0 h rl Hres Hdata eq_refl)
    as (fin & Hrun & Hlen & _ & Hmid & Hhigh).
  - done.
  - intros i Hi. apply Hok. lia.
  - exists fin. rewrite Hrun. simpl. rewrite lookup_insert_eq.
    split; [done|]. split; [done|]. split.
    + intros i Hi. apply Hmid. lia.
    + intros i Hi. apply Hhigh. lia.
Qed.

End Frame.

Section Setup.
Context {V : Type} {AV : Arr V} {CS D : Type}.
Variable check : CS -> list V -> bool * CS.
Variable getWarmPrimal : V -> matrix -> list V.

Lemma seed_dual_ok (n : nat) (all_v u : list V) :
  (n <= length all_v)%nat -> (n <= length u)%nat ->
  exists v0,
    comprehension (seq 0 n)
      (fun i => a ← index all_v i; b ← index u i; Ok (vadd a b)) = Ok v0 /\
    length v0 = n.
Proof.
  intros Ha Hu. eexists. split.
  - apply (comprehension_fmap _ _
             (fun i => vadd (all_v !!! i) (u !!! i))).
    intros i Hi. apply elem_of_seq in Hi.
    rewrite !index_total by lia. done.
  - by rewrite length_fmap, length_seq.
Qed.

Lemma serial_seed_ok (n : nat) (wd : option (list V)) :
  dual_fits n wd ->
  exists v0, Serial.serial_seed n None wd = Ok v0 /\ length v0 = n.
Proof.
  intros Hwd. unfold Serial.serial_seed. simpl. destruct wd as [u|].
  - apply seed_dual_ok; [by rewrite length_replicate|done].
  - exists (replicate n vzero). by rewrite length_replicate.
Qed.

Lemma parallel_seed_ok (n : nat) (L : matrix) (wd : option (list V)) :
  dual_fits n wd ->
  exists v0, parallel_seed getWarmPrimal n L None wd = Ok v0 /\ length v0 = n.
Proof.
  intros Hwd. unfold parallel_seed. destruct wd as [u|].
  - apply seed_dual_ok; [by rewrite length_replicate|done].
  - exists (replicate n vzero). by rewrite length_replicate.
Qed.

Lemma serial_main_ok (new_checker : list V -> CS) (n : nat)
    (rs : list (resolvent V)) (W Z : matrix) (wd : option (list V))
    (itrs0 : int) (gamma alpha : Qc) :
  (0 < n)%nat -> square n W -> square n Z -> length rs = n ->
  dual_fits n wd ->
  exists r, Serial.serial_main check new_checker n rs W Z None wd itrs0
              gamma alpha = Ok r.
Proof.
  intros Hn HW HZ Hrs Hwd. unfold Serial.serial_main.
  destruct (serial_seed_ok n wd Hwd) as (v0 & -> & Hv0). simpl.
  destruct (serial_loop_ok check (Z.to_nat itrs0) n rs W Z gamma alpha
              (new_checker (replicate n vzero)) (replicate n vzero) v0)
    as (xs & vs & -> & Hlx & Hlv); [done..|by rewrite length_replicate|done|].
  simpl. rewrite serial_results_ok by done. by eexists.
Qed.

Lemma serial_main_idle (new_checker : list V -> CS) (n : nat)
    (rs : list (resolvent V)) (W Z : matrix) (wd : option (list V))
    (itrs0 : int) (gamma alpha : Qc) :
  (0 < n)%nat -> dual_fits n wd -> (itrs0 <= 0)%Z ->
  exists r, Serial.serial_main check new_checker n rs W Z None wd itrs0
              gamma alpha = Ok r.
Proof.
  intros Hn Hwd Hitrs. unfold Serial.serial_main.
  destruct (serial_seed_ok n wd Hwd) as (v0 & -> & Hv0). simpl.
  replace (Z.to_nat itrs0) with O by lia. simpl.
  rewrite serial_results_ok by (done || by rewrite length_replicate).
  by eexists.
Qed.

Lemma parallel_init_starts (n : nat) (data : list D)
    (resolvents : list (D -> resolvent V)) (W Z : matrix)
    (wd : option (list V)) (itrs0 : int) (monitored : bool) :
  (0 < n)%nat -> square n W -> square n Z ->
  length data = n -> length resolvents = n -> dual_fits n wd ->
  exists s0,
    parallel_init getWarmPrimal n data resolvents W Z None wd itrs0 monitored
    = Ok s0 /\ length (workers s0) = n.
Proof.
  intros Hn HW HZ Hdata Hres Hwd. unfold parallel_init.
  destruct (requiredQueues_facts (V:=V) n W (mneg (tril1 Z)) HW
              (square_L n Z HZ)) as (Q & C & -> & HC & _).
  simpl.
  destruct (parallel_seed_ok n (mneg (tril1 Z)) wd Hwd) as (v0 & -> & Hv0).
  simpl. rewrite bool_decide_eq_false_2 by lia. simpl.
  assert (exists ws,
    comprehension (seq 0 n)
      (fun i => d ← index data i; b ← index resolvents i;
                v ← index v0 i; c ← index C i;
                Ok (worker_init i (b d) v c itrs0)) = Ok ws /\
    length ws = n) as (ws & -> & Hws).
  { assert (forall m, (m <= n)%nat -> forall a, (a + m <= n)%nat ->
      exists ws, comprehension (seq a m)
        (fun i => d ← index data i; b ← index resolvents i;
                  v ← index v0 i; c ← index C i;
                  Ok (worker_init i (b d) v c itrs0)) = Ok ws /\
        length ws = m) as Hgen.
    { induction m as [|m IH]; intros Hm a Ha; [by exists []|].
      destruct (index_lt data a) as (d & _ & Hd); [lia|].
      destruct (index_lt resolvents a) as (b & _ & Hb); [lia|].
      destruct (index_lt v0 a) as (v & _ & Hv); [lia|].
      destruct (index_lt C a) as (c & _ & Hc); [lia|].
      destruct (IH ltac:(lia) (S a) ltac:(lia)) as (ws & Hrun & Hlen).
      exists (worker_init a (b d) v c itrs0 :: ws).
      cbn [seq comprehension]. rewrite Hd. simpl. rewrite Hb. simpl.
      rewrite Hv. simpl. rewrite Hc. simpl.
      rewrite Hrun. simpl. by rewrite Hlen. }
    apply Hgen; lia. }
  simpl. by eexists.
Qed.


End Setup.

Section EarlyTermination.
Context {V : Type} {AV : Arr V}.
Implicit Types (w : wstate (V:=V)) (s : shared (V:=V)).

(** A worker past the target stops at the test of the loop. *)
Lemma loop_head_past_target w s (tq : list (list V)) (t : int) :
  monitor s = Some (tq, t) -> (0 < t)%Z -> (t < Z.of_nat (itr w))%Z ->
  pc_ (loop_head w s) = Done.
Proof.
  intros Hmon Ht Hlt. unfold loop_head. rewrite Hmon.
  destruct (bool_decide (Z.of_nat (itr w) < itrs w)%Z); [|done].
  rewrite bool_decide_eq_true_2 by lia.
  by rewrite bool_decide_eq_true_2 by lia.
Qed.

(** A worker that has not reached the target takes it as its bound and
    enters the round. *)
Lemma loop_head_up_to_target w s (tq : list (list V)) (t : int) :
  monitor s = Some (tq, t) -> (0 < t)%Z ->
  (Z.of_nat (itr w) <= t)%Z -> (Z.of_nat (itr w) < itrs w)%Z ->
  loop_head w s = set_pc (set_itrs w t) (At 0).
Proof.
  intros Hmon Ht Hle Hlt. unfold loop_head. rewrite Hmon.
  rewrite bool_decide_eq_true_2 by lia.
  rewrite bool_decide_eq_true_2 by lia.
  by rewrite bool_decide_eq_false_2 by lia.
Qed.

(** X6.  A worker returns from the test of the loop only: a round that has
    begun runs through the update of line 227. *)
Lemma worker_returns_at_head (W L : matrix) (gamma alpha : Qc) w s w' s' :
  worker_step W L gamma alpha w s = Stepped (w', s') ->
  pc_ w' = Done -> pc_ w = Head.
Proof.
  unfold worker_step. destruct (pc_ w) as [|pos|]; [done| |done].
  intros Hstep Hdone. exfalso.
  destruct (round_prog _ _ !! pos) as [[k|k| | |k|k]|]; unfold get, lift in Hstep;
    repeat (match type of Hstep with
            | context [match ?x with _ => _ end] => destruct x
            end; try discriminate);
    injection Hstep as <- <-; discriminate.
Qed.

End EarlyTermination.

Import Examples.

(** Equalities and inequalities of concrete values, by computation. *)
Ltac by_compute := apply (bool_decide_unpack _); vm_compute; exact I.

Ltac square2 := split; [reflexivity|repeat constructor].

Lemma symmetric_W_dr : symmetric 2 W_dr.
Proof.
  intros i j Hi Hj.
  destruct i as [|[|i]], j as [|[|j]]; try lia; reflexivity.
Qed.

Lemma prox_idempotent_witness :
  Proxs.trace (Proxs.matmul A_id (Proxs.prox (Proxs.init A_id (q 1)) Z_full (q 1)))
  = q 1 /\
  Proxs.prox (Proxs.init A_id (q 1))
    (Proxs.prox (Proxs.init A_id (q 1)) Z_full (q 1)) (q 1)
  = Proxs.prox (Proxs.init A_id (q 1)) Z_full (q 1).
Proof.
  apply (prox_idempotent 2 A_id Z_full (q 1) (q 1)).
  - square2.
  - intros i j Hi Hj.
    destruct i as [|[|i]], j as [|[|j]]; try lia; reflexivity.
  - by_compute.
  - square2.
Defined.

(** With [A = [[0,1],[0,0]]], [v = 1] and [X = 0] the output of [prox]
    misses the plane and a second application moves it again. *)
Lemma prox_not_idempotent :
  Proxs.prox (Proxs.init A_skew (q 1))
    (Proxs.prox (Proxs.init A_skew (q 1)) Z_zero (q 1)) (q 1)
  <> Proxs.prox (Proxs.init A_skew (q 1)) Z_zero (q 1).
Proof. by_compute. Qed.

(** ** The planner at a pair coupled by [L] alone *)

Lemma requiredQueues_plan_witness :
  exists (Q : gmap (nat * nat) (list Qc)) (C : list comms),
    requiredQueues Z_zero L_only = Ok (Q, C) /\ length C = 2%nat /\
    (forall a b, is_Some (Q !! (a, b)) <->
       (a < 2)%nat /\ (b < 2)%nat /\ channel Z_zero L_only a b = true) /\
    (forall a b k, b ∈ peers k (C !!! a) <->
       (a < 2)%nat /\ (b < 2)%nat /\ cls_of Z_zero L_only a b = Some k) /\
    (forall a k, NoDup (peers k (C !!! a))).
Proof.
  apply (requiredQueues_plan 2 Z_zero L_only); square2.
Defined.

(** With [W = 0] and [L[1,0] = 1] the planner creates the queue from
    [0] to [1] and none from [1] to [0], where the rule of existence
    asks for one. *)
Lemma requiredQueues_no_down_channel :
  ~ (forall (Q : gmap (nat * nat) (list Qc)) (C : list comms),
       requiredQueues Z_zero L_only = Ok (Q, C) ->
       forall a b, (a < 2)%nat -> (b < 2)%nat -> a <> b ->
         (is_Some (Q !! (a, b)) <->
          channel_by_support Z_zero L_only a b = true)).
Proof.
  intros Hrule.
  assert (exists (Q : gmap (nat * nat) (list Qc)) C,
            requiredQueues Z_zero L_only = Ok (Q, C) /\
            Q !! (1%nat, 0%nat) = None) as (Q & C & Hrun & Hnone).
  { eexists _, _. split; vm_compute; reflexivity. }
  destruct (proj2 (Hrule Q C Hrun 1%nat 0%nat ltac:(lia) ltac:(lia) ltac:(lia)))
    as [x Hx].
  - by_compute.
  - rewrite Hnone in Hx. discriminate.
Qed.

(** ** The serial reference on scenario S1 *)

Lemma serial_iteration_recurrence_witness :
  exists all_x' all_v',
    Serial.serial_iteration 2 rs_dr W_dr Z_dr half (q 1) (zeros_dr, zeros_dr)
    = Ok (all_x', all_v') /\
    (forall i, (i < 2)%nat ->
       sweep_eq rs_dr Z_dr (q 1) zeros_dr all_x' i /\
       consensus_eq W_dr half 2 zeros_dr all_x' all_v' i) /\
    exists results,
      Serial.serial_results 2 (all_x', all_v') = Ok (mean 2 all_x', results).
Proof.
  apply (serial_iteration_recurrence 2 rs_dr W_dr Z_dr half (q 1)
           zeros_dr zeros_dr); [lia|square2|square2|reflexivity..].
Defined.

Lemma row_sums_W_dr (i : nat) :
  (i < 2)%nat -> sumn 2 (fun j => entry W_dr i j) = 0.
Proof. intros Hi. destruct i as [|[|i]]; [by_compute..|lia]. Qed.

Lemma serial_sum_zero_witness :
  exists all_x' all_v',
    Serial.serial_iterates 3 2 rs_dr W_dr Z_dr half (q 1) (zeros_dr, zeros_dr)
    = Ok (all_x', all_v') /\
    py_sum all_v' = vzero.
Proof.
  apply (serial_sum_zero 3 2 rs_dr W_dr Z_dr half (q 1) zeros_dr zeros_dr);
    [square2|square2|reflexivity..|exact symmetric_W_dr|exact row_sums_W_dr
    |by_compute].
Defined.

(** ** The monitor on seventeen identical samples of one node *)

Definition still : list (list Qc) := [replicate 17 (q 0)].


(** ** The caller's objects on scenario S1 *)

Definition classes_dr : list (Serial.pyval (V:=Qc * Qc) (D:=Qc * Qc)) :=
  [Serial.Class quadprox; Serial.Class quadprox].
Definition payloads_dr : list (Serial.pyval (V:=Qc * Qc) (D:=Qc * Qc)) :=
  [Serial.Datum (q 1, q 0); Serial.Datum (q 0, q 1)].

(** [resolvents] at 1, [data] at 2, [W] at 3 and [Z] at 4. *)
Definition heap_dr : gmap positive (Serial.pyobj (V:=Qc * Qc) (D:=Qc * Qc)) :=
  {[ 1%positive := Serial.PList classes_dr;
     2%positive := Serial.PList payloads_dr;
     3%positive := Serial.PMatrix W_dr;
     4%positive := Serial.PMatrix Z_dr ]}.

Lemma serialAlgorithm_frame_witness :
  let h' := (Serial.serialAlgorithm never_stop new_never_stop 2
               2%positive 1%positive 3%positive 4%positive None None
               2%Z half (q 1) heap_dr).1 in
  (forall l, l <> 1%positive -> h' !! l = heap_dr !! l) /\
  exists fin, h' !! 1%positive = Some (Serial.PList fin) /\
    length fin = length classes_dr /\
    (forall i, (i < 2)%nat ->
       exists r, Serial.call (classes_dr !!! i) (payloads_dr !!! i) = Ok r /\
                 fin !! i = Some (Serial.Instance r)) /\
    (forall i, (2 <= i)%nat -> fin !! i = classes_dr !! i).
Proof.
  apply (serialAlgorithm_frame never_stop new_never_stop 2
           2%positive 1%positive 3%positive 4%positive None None
           2%Z half (q 1) heap_dr classes_dr payloads_dr).
  - reflexivity.
  - reflexivity.
  - intros i Hi. destruct i as [|[|i]]; [| |lia].
    + eexists. split; [reflexivity|]. simpl. lia.
    + eexists. split; [reflexivity|]. simpl. lia.
Defined.

(** ** Matrices that break the invariants of the design *)


(** The pool on two nodes without any queue. *)
Lemma pool_without_queues (data : list (Qc * Qc)) (W Z : matrix) :
  length data = 2%nat ->
  requiredQueues (V:=Qc * Qc) W (mneg (tril1 Z))
  = Ok (∅, [no_comms; no_comms]) ->
  parallel_init warm_stub 2 data builders_dr W Z None None 2 false
  = Ok (pool0 2 (constructed builders_dr data) zeros_dr 2
          [no_comms; no_comms] ∅).
Proof.
  intros Hdata Hplan.
  apply (parallel_init_ok warm_stub 2 data builders_dr W Z None None
           2%Z zeros_dr ∅ [no_comms; no_comms]);
    [lia|exact Hdata|reflexivity..|exact Hplan|reflexivity].
Qed.


(** ** A worker that reads the target at the round of the target *)

(** A node without peers that has completed three rounds of ten, and
    the shared state once the monitor has set the target to three. *)
Definition at_target : wstate (V:=Qc) :=
  {| node := 0; resolvent_ := quadprox (q 1); comms_data := no_comms;
     itr := 3; itrs := 10; pc_ := Head;
     local_v := q 0; local_r := q 0; v_temp := q 0; w_value := q 0 |}.
Definition target_three : shared (V:=Qc) :=
  {| queue := ∅; monitor := Some ([[]], 3%Z) |}.

(** C2.  The test of line 172 is [terminate.value < itr]: the worker
    that reads the target [t = 3] at the start of round [k = 3] does
    not stop there.  It enters the round with [itrs = 3], completes it
    and returns after four rounds. *)
Theorem worker_overruns_target :
  loop_head at_target target_three = set_pc (set_itrs at_target 3%Z) (At 0) /\
  (let s := run [[q 0]] [[q 0]] half (q 1) 10
              {| workers := [at_target]; channels := target_three |} in
   finished s /\ itr <$> workers s = [4%nat]).
Proof.
  split; [reflexivity|]. split; by_compute.
Qed.

(** ** The primal warm start *)

(** C3.  With a primal warm start the serial entry point raises
    [NameError] at line 38, whatever the other arguments are, while the
    parallel driver seeds [v⁰] with the result of [getWarmPrimal] on the
    warm start and [L]. *)
Theorem warm_primal_seeding {V : Type} {AV : Arr V} {CS : Type}
    (check : CS -> list V -> bool * CS)
    (getWarmPrimal : V -> matrix -> list V)
    (new_checker : list V -> CS) (n : nat) (rs : list (resolvent V))
    (W Z L : matrix) (xbar : V) (wd : option (list V)) (itrs0 : int)
    (gamma alpha : Qc) :
  Serial.serial_seed n (Some xbar) wd = Raise NameError /\
  Serial.serial_main check new_checker n rs W Z (Some xbar) wd itrs0
    gamma alpha = Raise NameError /\
  parallel_seed getWarmPrimal n L (Some xbar) None
  = Ok (getWarmPrimal xbar L).
Proof. done. Qed.

(** ** Serial and parallel runs on scenario S1 and on a skew [W] *)

Section Schedule.
Context {V : Type} {AV : Arr V}.

Lemma first_step_sound (W L : matrix) (gamma alpha : Qc) (cands : list nat)
    (s s' : sys (V:=V)) :
  first_step W L gamma alpha cands s = Some s' ->
  sys_step W L gamma alpha s s'.
Proof.
  induction cands as [|i cands IH]; [done|]. simpl.
  destruct (sys_exec W L gamma alpha i s) as [s1| | |e] eqn:Hexec; try done.
  intros [= <-]. by exists i.
Qed.

(** The schedule of [run] is one of the runs of the pool. *)
Lemma run_reachable (W L : matrix) (gamma alpha : Qc) (fuel : nat)
    (s : sys (V:=V)) :
  rtc (sys_step W L gamma alpha) s (run W L gamma alpha fuel s).
Proof.
  revert s. induction fuel as [|fuel IH]; intros s; simpl; [done|].
  destruct (first_step _ _ _ _ _ s) as [s'|] eqn:Hstep; [|done].
  eapply rtc_l; [by eapply first_step_sound|apply IH].
Qed.

End Schedule.

Lemma clear_cut_W_dr : clear_cut 2 W_dr.
Proof.
  intros i j Hi Hj Hclose.
  destruct i as [|[|i]], j as [|[|j]]; try lia;
    vm_compute in Hclose; discriminate.
Qed.

Lemma clear_cut_Z_dr : clear_cut 2 Z_dr.
Proof.
  intros i j Hi Hj Hclose.
  destruct i as [|[|i]], j as [|[|j]]; try lia;
    first [by_compute | vm_compute in Hclose; discriminate].
Qed.



(** With [W = 1e-9·[[1,-1],[-1,1]]], symmetric with zero row sums, the
    planner takes [W[1,0]] for zero and creates no queue, while the
    serial reference multiplies it with the [x] of node 1, which the
    payload [1e10] makes large: the [local_v] of worker 0 is off the
    serial [v₀]. *)
Lemma tolerance_breaks_agreement :
  exists s0 s w,
    parallel_init warm_stub 2 data_big builders_dr W_tiny Z_zero None None
      2 false = Ok s0 /\
    rtc (sys_step W_tiny (mneg (tril1 Z_zero)) half (q 1)) s0 s /\
    workers s !! 0%nat = Some w /\
    ~ agrees 2 (constructed builders_dr data_big) W_tiny Z_zero half (q 1)
        zeros_dr w.
Proof.
  set (s0 := pool0 2 (constructed builders_dr data_big) zeros_dr 2
               [no_comms; no_comms] ∅).
  set (s := run W_tiny (mneg (tril1 Z_zero)) half (q 1) 40 s0).
  exists s0, s, (workers s !!! 0%nat).
  split; [apply pool_without_queues; [reflexivity|vm_compute; reflexivity]|].
  split; [apply run_reachable|]. split.
  - apply list_lookup_lookup_total_lt.
    change (0 < length (workers s))%nat with (0 < 2)%nat. lia.
  - intros (xs & vs & xs' & vs' & Hrun & _ & Hv & _).
    assert (itr (workers s !!! 0%nat) = 2%nat) as Hitr by (by vm_compute).
    assert (node (workers s !!! 0%nat) = 0%nat) as Hnode by (by vm_compute).
    rewrite Hitr in Hrun. rewrite Hnode in Hv.
    assert (this (vs !!! 0%nat).1 <> this (local_v (workers s !!! 0%nat)).1)
      as Hne.
    { vm_compute in Hrun. injection Hrun as _ <-. by vm_compute. }
    apply Hne. by rewrite Hv.
Qed.

Import Examples.

(** * The resolvents of tests/proxs.py *)

(** Statements about the order of floats go through their fractions. *)
Ltac qc_to_q :=
  repeat match goal with
  | H : @eq Qc _ _ |- _ => apply (f_equal this) in H
  | H : ~ @eq Qc _ _ |- _ =>
      let H' := fresh in
      assert (H' := fun E => H (Qc_is_canon _ _ E)); clear H
  | |- @eq Qc _ _ => apply Qc_is_canon
  end;
  unfold Qcle, Qclt, Qcminus, Qcopp, Qcplus, Qcmult, Q2Qc in *;
  simpl this in *; rewrite ?Qred_correct in *.

Section Quadprox.
Context {V : Type} {AV : Arr V}.



End Quadprox.

(** ** traceHalfspaceIndicator *)

Lemma halfspace_scale (A0 : matrix) :
  traceHalfspaceIndicator.scale A0 = Proxs.scale A0.
Proof. done. Qed.


(** ** absprox *)


Lemma abs_cases (u : Qc) :
  (0 <= u /\ absprox.abs u = u) \/ (u < 0 /\ absprox.abs u = - u).
Proof.
  unfold absprox.abs. case_bool_decide; [by left|right].
  split; [|done]. by apply Qcnot_le_lt.
Qed.

(** The three cases of soft thresholding. *)
Lemma prox_cases (self : absprox.t) (y tau : Qc) :
  0 <= tau ->
  (absprox.data self - tau <= y /\ y <= absprox.data self + tau /\
   absprox.prox self y tau = absprox.data self) \/
  (absprox.data self + tau < y /\ absprox.prox self y tau = y - tau) \/
  (y < absprox.data self - tau /\ absprox.prox self y tau = y + tau).
Proof.
  intros Htau. unfold absprox.prox, absprox.max, absprox.abs,
    absprox.sign. set (d := absprox.data self).
  destruct (Qclt_le_dec (d + tau) y) as [Hhi|Hhi];
    [right; left|destruct (Qclt_le_dec y (d - tau)) as [Hlo|Hlo];
                   [right; right|left]];
    repeat split; try done;
    repeat case_bool_decide; qc_to_q; lra.
Qed.

Lemma Qsquare_nonneg (a : Q) : (0 <= a * a)%Q.
Proof. nra. Qed.



(** ** The resolvents at concrete points *)


Definition X_outside : matrix := [[q (-3); q 1]; [q 0; q 1]].





Import Examples.

(** * The trace projection is the nearest point of the plane *)

Lemma sumn_plus (n : nat) (f g : nat -> Qc) :
  sumn n (fun i => f i + g i) = sumn n f + sumn n g.
Proof. induction n as [|n IH]; simpl; [ring|]. rewrite IH. ring. Qed.

Lemma sumn_nonneg (n : nat) (f : nat -> Qc) :
  (forall i, (i < n)%nat -> 0 <= f i) -> 0 <= sumn n f.
Proof.
  induction n as [|n IH]; intros Hf; simpl; [apply Qcle_refl|].
  replace 0 with (0 + 0) by ring. apply Qcplus_le_compat.
  - apply IH. intros i Hi. apply Hf. lia.
  - apply Hf. lia.
Qed.

Lemma sumn_exchange (n m : nat) (f : nat -> nat -> Qc) :
  sumn n (fun i => sumn m (fun j => f i j))
  = sumn m (fun j => sumn n (fun i => f i j)).
Proof.
  induction n as [|n IH]; simpl.
  - induction m as [|m IHm]; simpl; [done|]. rewrite <- IHm. ring.
  - rewrite IH, <- sumn_plus. done.
Qed.

Lemma Qcsquare_nonneg (a : Qc) : 0 <= a * a.
Proof. qc_to_q. nra. Qed.

(** [Σᵢⱼ f i j] over an [n × n] range. *)
Definition ssum (n : nat) (f : nat -> nat -> Qc) : Qc :=
  sumn n (fun i => sumn n (fun j => f i j)).

Lemma ssum_ext (n : nat) (f g : nat -> nat -> Qc) :
  (forall i j, (i < n)%nat -> (j < n)%nat -> f i j = g i j) ->
  ssum n f = ssum n g.
Proof.
  intros Hfg. unfold ssum. apply sumn_ext. intros i Hi.
  apply sumn_ext. intros j Hj. by apply Hfg.
Qed.

Lemma ssum_plus (n : nat) (f g : nat -> nat -> Qc) :
  ssum n (fun i j => f i j + g i j) = ssum n f + ssum n g.
Proof.
  unfold ssum. rewrite <- sumn_plus. apply sumn_ext. intros i _.
  apply sumn_plus.
Qed.

Lemma ssum_scale (n : nat) (c : Qc) (f : nat -> nat -> Qc) :
  ssum n (fun i j => c * f i j) = c * ssum n f.
Proof.
  unfold ssum. rewrite <- sumn_scale. apply sumn_ext. intros i _.
  apply sumn_scale.
Qed.

Lemma ssum_nonneg (n : nat) (f : nat -> nat -> Qc) :
  (forall i j, 0 <= f i j) -> 0 <= ssum n f.
Proof.
  intros Hf. unfold ssum. apply sumn_nonneg. intros i _.
  apply sumn_nonneg. intros j _. apply Hf.
Qed.

(** The trace of [A @ M] is the entrywise product sum for symmetric [A]. *)
Lemma trace_inner (n : nat) (A M : matrix) :
  square n A -> symmetric n A -> square n M ->
  Proxs.trace (Proxs.matmul A M) = ssum n (fun i j => entry A i j * entry M i j).
Proof.
  intros HA Hsym HM. rewrite (trace_matmul n) by done. unfold ssum.
  rewrite sumn_exchange. apply sumn_ext. intros i Hi.
  apply sumn_ext. intros j Hj. by rewrite (Hsym j i).
Qed.

Lemma fro2_msub (n : nat) (X Y : matrix) :
  square n X -> square n Y ->
  Proxs.fro2 (Proxs.msub X Y)
  = ssum n (fun i j => (entry X i j - entry Y i j)
                       * (entry X i j - entry Y i j)).
Proof.
  intros HX HY. rewrite (fro2_sum n) by by apply square_msub.
  apply ssum_ext. intros i j _ _. by rewrite (entry_msub n).
Qed.

(** Cauchy-Schwarz in the form used here: [s²/f ≤ Σ d²] for
    [s = Σ a·d] and [f = Σ a² ≠ 0]. *)
Lemma ssum_cauchy (n : nat) (a d : nat -> nat -> Qc) :
  ssum n (fun i j => a i j * a i j) <> 0 ->
  ssum n (fun i j => a i j * d i j) * ssum n (fun i j => a i j * d i j)
  * / ssum n (fun i j => a i j * a i j)
  <= ssum n (fun i j => d i j * d i j).
Proof.
  intros Hf.
  set (f := ssum n (fun i j => a i j * a i j)) in *.
  set (s := ssum n (fun i j => a i j * d i j)).
  set (D := ssum n (fun i j => d i j * d i j)).
  assert (0 <= ssum n (fun i j => (d i j - s * / f * a i j)
                                  * (d i j - s * / f * a i j))) as Hsq.
  { apply ssum_nonneg. intros i j. apply Qcsquare_nonneg. }
  rewrite (ssum_ext n _
    (fun i j => d i j * d i j
                + ((- (2 * s * / f)) * (a i j * d i j)
                   + (s * / f * (s * / f)) * (a i j * a i j)))) in Hsq
    by (intros; ring).
  rewrite ssum_plus, ssum_plus, !ssum_scale in Hsq.
  fold D s f in Hsq.
  apply Qcle_minus_iff.
  replace (D + - (s * s * / f))
    with (D + (- (2 * s * / f) * s + s * / f * (s * / f) * f))
    by (by field).
  done.
Qed.

(** X10.  The docstring of [traceEqualityIndicator]: [prox] projects.  For a
    symmetric [n × n] matrix [A] that is not the zero matrix, no matrix
    [Y] of the plane [tr(A·Y) = v] is nearer to [X], in the Frobenius
    norm, than [prox(X, t)]. *)
Theorem prox_nearest_on_plane (n : nat) (A0 X Y : matrix) (v0 t : Qc) :
  square n A0 -> symmetric n A0 -> Proxs.fro2 A0 <> 0 ->
  square n X -> square n Y ->
  Proxs.trace (Proxs.matmul A0 Y) = v0 ->
  Proxs.fro2 (Proxs.msub X (Proxs.prox (Proxs.init A0 v0) X t))
  <= Proxs.fro2 (Proxs.msub X Y).
Proof.
  intros HA Hsym Hnz HX HY Hplane.
  rewrite (fro2_msub n X Y) by done.
  unfold Proxs.prox. simpl.
  destruct (decide _) as [Heq|Hne].
  - rewrite (fro2_msub n X X) by done.
    rewrite (ssum_ext n _ (fun _ _ => 0 * 0)) by (intros; ring).
    rewrite ssum_scale.
    replace (0 * ssum n (fun _ _ => 0)) with 0 by ring.
    apply ssum_nonneg. intros i j. apply Qcsquare_nonneg.
  - set (c := Proxs.trace (Proxs.matmul A0 X) - v0).
    assert (square n (Proxs.mscale c (Proxs.scale A0))) as HU
      by (unfold Proxs.scale; by do 2 apply square_mscale).
    rewrite (fro2_msub n) by (done || by apply square_msub).
    pose proof (fro2_sum n A0 HA) as Hf. fold (ssum n
      (fun i j => entry A0 i j * entry A0 i j)) in Hf.
    rewrite (ssum_ext n _
      (fun i j => (c * / Proxs.fro2 A0 * (c * / Proxs.fro2 A0))
                  * (entry A0 i j * entry A0 i j))).
    2:{ intros i j Hi Hj. rewrite (entry_msub n) by done.
        unfold Proxs.scale. rewrite !entry_mscale. ring. }
    rewrite ssum_scale, <- Hf.
    assert (c = ssum n (fun i j => entry A0 i j
                                   * (entry X i j - entry Y i j))) as Hc.
    { unfold c. rewrite <- Hplane, !(trace_inner n) by done.
      rewrite (ssum_ext n (fun i j => entry A0 i j
                                      * (entry X i j - entry Y i j))
                 (fun i j => entry A0 i j * entry X i j
                             + (- (1)) * (entry A0 i j * entry Y i j)))
        by (intros; ring).
      rewrite ssum_plus, ssum_scale. ring. }
    pose proof (ssum_cauchy n (fun i j => entry A0 i j)
                  (fun i j => entry X i j - entry Y i j)) as Hcs.
    simpl in Hcs. rewrite <- Hf, <- Hc in Hcs. specialize (Hcs Hnz).
    replace (c * / Proxs.fro2 A0 * (c * / Proxs.fro2 A0) * Proxs.fro2 A0)
      with (c * c * / Proxs.fro2 A0) by (by field).
    done.
Qed.

Lemma prox_nearest_on_plane_witness :
  Proxs.fro2 (Proxs.msub Z_full (Proxs.prox (Proxs.init A_id (q 1)) Z_full (q 1)))
  <= Proxs.fro2 (Proxs.msub Z_full [[q 1; q 4]; [q 2; q 0]]).
Proof.
  apply (prox_nearest_on_plane 2 A_id Z_full [[q 1; q 4]; [q 2; q 0]]
           (q 1) (q 1)).
  - square2.
  - intros i j Hi Hj.
    destruct i as [|[|i]], j as [|[|j]]; try lia; reflexivity.
  - by_compute.
  - square2.
  - square2.
  - by_compute.
Defined.

Import Examples.

(** * sumOne *)

Lemma mget_shape (r c : nat) (M : matrix) (i j : nat) :
  has_shape r c M -> (i < r)%nat -> (j < c)%nat ->
  mget M i j = Ok (entry M i j).
Proof.
  intros [Hlen Hrows] Hi Hj. unfold mget, entry.
  destruct (lookup_lt_is_Some_2 M i) as [row Hrow]; [lia|].
  rewrite (index_Ok _ _ _ Hrow), Hrow. simpl.
  eapply Forall_lookup_1 in Hrows; [|done]. simpl in Hrows.
  destruct (lookup_lt_is_Some_2 row j) as [x Hx]; [lia|].
  by rewrite (index_Ok _ _ _ Hx), Hx.
Qed.

Lemma foldl_sumn (n : nat) (f : nat -> Qc) :
  foldl Qcplus 0 (f <$> seq 0 n) = sumn n f.
Proof.
  induction n as [|n IH]; [done|].
  rewrite seq_S, fmap_app, foldl_app. simpl. by rewrite IH.
Qed.

Lemma of_nat_0 : of_nat 0 = 0.
Proof. by apply Qc_is_canon. Qed.

Lemma of_nat_S (n : nat) : of_nat (S n) = of_nat n + 1.
Proof.
  unfold of_nat. rewrite Nat2Z.inj_succ. unfold Z.succ.
  apply Qc_is_canon. simpl. rewrite !Qred_correct.
  rewrite inject_Z_plus. reflexivity.
Qed.

Lemma sumn_const (n : nat) (c : Qc) : sumn n (fun _ => c) = of_nat n * c.
Proof.
  induction n as [|n IH]; simpl.
  - rewrite of_nat_0. ring.
  - rewrite IH, of_nat_S. ring.
Qed.

Lemma of_nat_pos (n : nat) : (0 < n)%nat -> 0 < of_nat n.
Proof.
  intros Hn. unfold of_nat, Qclt. simpl. rewrite !Qred_correct.
  unfold Qlt. simpl. lia.
Qed.

Lemma of_nat_nonzero (n : nat) : (0 < n)%nat -> of_nat n <> 0.
Proof.
  intros Hn Heq. pose proof (of_nat_pos n Hn) as Hpos.
  rewrite Heq in Hpos. by apply Qclt_not_eq in Hpos.
Qed.

Lemma shape_of_shape (r c : nat) (M : matrix) :
  has_shape r c M -> (0 < r)%nat -> sumOne.shape_of M = (r, c).
Proof.
  intros [Hlen Hrows] Hr. unfold sumOne.shape_of. rewrite Hlen. f_equal.
  destruct M as [|row M]; simpl in *; [lia|]. by inversion Hrows.
Qed.

Lemma has_shape_zeros (r c : nat) : has_shape r c (sumOne.zeros (r, c)).
Proof.
  unfold sumOne.zeros. simpl. split.
  - by rewrite length_replicate.
  - apply Forall_replicate. by rewrite length_replicate.
Qed.

Lemma entry_zeros (r c i j : nat) : entry (sumOne.zeros (r, c)) i j = 0.
Proof.
  unfold entry, sumOne.zeros. simpl.
  destruct (decide (i < r)%nat) as [Hi|Hi].
  - rewrite lookup_replicate_2 by done. simpl.
    destruct (decide (j < c)%nat) as [Hj|Hj].
    + by rewrite lookup_replicate_2.
    + by rewrite (lookup_ge_None_2 _ j) by (rewrite length_replicate; lia).
  - by rewrite (lookup_ge_None_2 _ i) by (rewrite length_replicate; lia).
Qed.

(** [M[i,j] = x] on an array of shape [(r, c)]. *)
Lemma mset_shape (r c : nat) (M : matrix) (i j : nat) (x : Qc) :
  has_shape r c M -> (i < r)%nat -> (j < c)%nat ->
  exists M', sumOne.mset M i j x = Ok M' /\ has_shape r c M' /\
    forall a b, entry M' a b
                = if decide (a = i /\ b = j) then x else entry M a b.
Proof.
  intros [Hlen Hrows] Hi Hj. unfold sumOne.mset.
  destruct (lookup_lt_is_Some_2 M i) as [row Hrow]; [lia|].
  rewrite (index_Ok _ _ _ Hrow). simpl.
  pose proof (Forall_lookup_1 _ _ _ _ Hrows Hrow) as Hlrow. simpl in Hlrow.
  rewrite assign_Ok by lia. simpl. rewrite assign_Ok by lia.
  eexists. split; [done|]. split.
  - split; [by rewrite length_insert|].
    apply Forall_insert; [done|]. by rewrite length_insert.
  - intros a b. unfold entry. destruct (decide (a = i)) as [->|Ha].
    + rewrite list_lookup_insert_eq by lia. simpl. rewrite Hrow. simpl.
      destruct (decide (b = j)) as [->|Hb].
      * rewrite list_lookup_insert_eq by lia.
        by rewrite decide_True.
      * rewrite list_lookup_insert_ne by done.
        by rewrite decide_False by naive_solver.
    + rewrite list_lookup_insert_ne by done.
      by rewrite decide_False by naive_solver.
Qed.

(** Lines 147-149: the diagonal of [Y]. *)
Lemma diagonal_loop (r c n : nat) (x : Qc) :
  (n <= r)%nat -> (n <= c)%nat ->
  exists Y,
    for_range n (fun i Y => sumOne.mset Y i i x) (sumOne.zeros (r, c)) = Ok Y /\
    has_shape r c Y /\
    forall a b, entry Y a b
                = if decide (a = b /\ (a < n)%nat) then x else 0.
Proof.
  intros Hr Hc.
  destruct (for_range_inv
    (fun k Y => has_shape r c Y /\
                forall a b, entry Y a b
                            = if decide (a = b /\ (a < k)%nat) then x else 0)
    n (fun i Y => sumOne.mset Y i i x) (sumOne.zeros (r, c)))
    as (Y & Hrun & Hshape & Hentries).
  - split; [apply has_shape_zeros|]. intros a b. rewrite entry_zeros.
    by rewrite decide_False by lia.
  - intros i Y0 Hi [Hshape Hentries].
    destruct (mset_shape r c Y0 i i x Hshape) as (Y1 & Hset & Hshape1 & He);
      [lia..|].
    exists Y1. split; [done|]. split; [done|]. intros a b.
    rewrite He, Hentries.
    destruct (decide (a = i /\ b = i)) as [[-> ->]|Hne].
    + by rewrite decide_True by lia.
    + destruct (decide (a = b /\ (a < i)%nat)) as [[-> Hlt]|Hn1].
      * by rewrite decide_True by lia.
      * rewrite decide_False; [done|]. intros [-> Hlt].
        destruct (decide (b = i)) as [->|]; [by apply Hne|]. apply Hn1. lia.
  - by exists Y.
Qed.

Lemma entry_mdiv (X : matrix) (s : Qc) (i j : nat) :
  entry (sumOne.mdiv X s) i j = entry X i j / s.
Proof.
  unfold entry, sumOne.mdiv. rewrite list_lookup_fmap.
  destruct (X !! i) as [row|]; simpl.
  - rewrite list_lookup_fmap. destruct (row !! j); simpl; [done|].
    unfold Qcdiv. ring.
  - unfold Qcdiv. ring.
Qed.

Lemma has_shape_mdiv (r c : nat) (X : matrix) (s : Qc) :
  has_shape r c X -> has_shape r c (sumOne.mdiv X s).
Proof.
  intros [Hl Hr]. split; unfold sumOne.mdiv.
  - by rewrite length_fmap.
  - apply Forall_fmap. eapply Forall_impl; [done|].
    intros row Hrow. simpl. by rewrite length_fmap.
Qed.

(** [X + Y] for two arrays of one shape. *)
Lemma madd_shape (r c : nat) (X Y : matrix) :
  has_shape r c X -> has_shape r c Y -> (1 < r)%nat ->
  exists S, sumOne.madd X Y = Ok S /\ has_shape r c S /\
    forall i j, (i < r)%nat -> (j < c)%nat ->
      entry S i j = entry X i j + entry Y i j.
Proof.
  intros HX HY Hr. unfold sumOne.madd.
  rewrite (shape_of_shape r c X), (shape_of_shape r c Y) by (done || lia).
  unfold sumOne.bdim. rewrite !decide_True by done. simpl.
  eexists. split; [done|]. split.
  - split; [by rewrite length_fmap, length_seq|].
    apply Forall_fmap, Forall_forall. intros i _. simpl.
    by rewrite length_fmap, length_seq.
  - intros i j Hi Hj. unfold entry at 1.
    rewrite list_lookup_fmap, lookup_seq_lt by done. simpl.
    rewrite list_lookup_fmap, lookup_seq_lt by done. simpl.
    unfold sumOne.bidx. rewrite (decide_False (P:=r = 1%nat)) by lia.
    destruct (decide (c = 1%nat)) as [->|]; [|done].
    by replace j with O by lia.
Qed.



Import Examples.

(** * The serial engine: early exit and edge cases *)

(** A comprehension raises what its first failing item raises. *)
Lemma comprehension_raise {A B : Type} (pre post : list A) (a : A)
    (f : A -> res B) (e : exn) :
  (forall b, b ∈ pre -> exists v, f b = Ok v) -> f a = Raise e ->
  comprehension (pre ++ a :: post) f = Raise e.
Proof.
  intros Hpre Ha. induction pre as [|b pre IH]; simpl.
  - by rewrite Ha.
  - destruct (Hpre b) as [v ->]; [by left|]. simpl.
    rewrite IH; [done|]. intros b' Hb'. apply Hpre. by right.
Qed.

Section SerialEdges.
Context {V : Type} {AV : Arr V} {CS : Type}.
Variable check : CS -> list V -> bool * CS.

(** The iterates, with the first iteration in front. *)
Lemma serial_iterates_front (k n : nat) (rs : list (resolvent V))
    (W Z : matrix) (gamma alpha : Qc) (st : list V * list V) :
  serial_iterates (S k) n rs W Z gamma alpha st
  = st1 ← serial_iteration n rs W Z gamma alpha st;
    serial_iterates k n rs W Z gamma alpha st1.
Proof.
  induction k as [|k IH].
  - simpl. by destruct (serial_iteration n rs W Z gamma alpha st).
  - change (serial_iterates (S (S k)) n rs W Z gamma alpha st)
      with (st' ← serial_iterates (S k) n rs W Z gamma alpha st;
            serial_iteration n rs W Z gamma alpha st').
    rewrite IH.
    destruct (serial_iteration n rs W Z gamma alpha st) as [st1|e]; done.
Qed.

(** X7.  The loop of lines 57-85 leaves after whole iterations only:
    whatever the checker answers and whether or not an iteration raises,
    its outcome is that of [j] iterations for some [j] up to [itrs]. *)
Theorem serial_loop_whole_iterations (todo n : nat)
    (rs : list (resolvent V)) (W Z : matrix) (gamma alpha : Qc) (cs : CS)
    (st : list V * list V) :
  exists j, (j <= todo)%nat /\
    serial_loop check todo n rs W Z gamma alpha cs st
    = serial_iterates j n rs W Z gamma alpha st.
Proof.
  revert cs st. induction todo as [|todo IH]; intros cs st.
  - by exists O.
  - cbn [serial_loop].
    destruct (serial_iteration n rs W Z gamma alpha st) as [st1|e] eqn:Hit.
    + simpl. destruct (check cs st1.1) as [[] cs'].
      * exists 1%nat. split; [lia|]. simpl. by rewrite Hit.
      * destruct (IH cs' st1) as (j & Hj & ->).
        exists (S j). split; [lia|].
        by rewrite serial_iterates_front, Hit.
    + exists 1%nat. split; [lia|]. simpl. by rewrite Hit.
Qed.

(** Without nodes every iteration is empty. *)
Lemma serial_loop_no_node (todo : nat) (rs : list (resolvent V))
    (W Z : matrix) (gamma alpha : Qc) (cs : CS) (st : list V * list V) :
  serial_loop check todo 0 rs W Z gamma alpha cs st = Ok st.
Proof.
  revert cs. induction todo as [|todo IH]; intros cs; [done|].
  cbn [serial_loop]. unfold serial_iteration, for_range. simpl.
  destruct st as [xs vs]. simpl.
  destruct (check cs xs) as [[] cs']; [done|apply IH].
Qed.

(** X8.  With [n = 0] and no primal warm start the call runs its empty
    iterations and raises [ZeroDivisionError] at line 89, [sum([])/0]. *)
Theorem serial_no_node_raises (new_checker : list V -> CS)
    (rs : list (resolvent V)) (W Z : matrix) (wd : option (list V))
    (itrs : int) (gamma alpha : Qc) :
  serial_main check new_checker 0 rs W Z None wd itrs gamma alpha
  = Raise ZeroDivisionError.
Proof.
  unfold serial_main.
  assert (serial_seed 0 None wd = Ok ([] : list V)) as ->
    by by destruct wd.
  simpl. by rewrite serial_loop_no_node.
Qed.

(** X9.  A [W] with fewer than [n] rows and columns is found out by the
    first consensus update, not before: the sweep runs, and the
    iteration raises [IndexError] at line 71. *)
Theorem serial_short_W_raises (n m : nat) (rs : list (resolvent V))
    (W Z : matrix) (gamma alpha : Qc) (all_x all_v : list V) :
  (m < n)%nat -> square m W -> square n Z -> length rs = n ->
  length all_x = n -> length all_v = n ->
  (exists all_x', for_range n (sweep_node Z rs alpha all_v) all_x = Ok all_x') /\
  serial_iteration n rs W Z gamma alpha (all_x, all_v) = Raise IndexError.
Proof.
  intros Hm HW HZ Hrs Hx Hv.
  destruct (sweep_ok n Z rs alpha all_v all_x HZ Hrs Hv Hx)
    as (xs & Hsweep & Hlen & _).
  split; [by exists xs|].
  unfold serial_iteration. simpl. rewrite Hsweep. simpl.
  assert (for_range n (consensus_node W gamma n xs) all_v = Raise IndexError)
    as ->; [|done].
  unfold for_range. destruct n as [|n]; [lia|]. cbn [seq for_each].
  assert (consensus_node W gamma (S n) xs 0 all_v = Raise IndexError)
    as ->; [|done].
  unfold consensus_node.
  assert (seq 0 (S n) = seq 0 m ++ m :: seq (S m) (n - m)) as ->.
  { replace (S n) with (m + S (n - m))%nat at 1 by lia.
    by rewrite seq_app. }
  rewrite (comprehension_raise _ _ _ _ IndexError); [done| |].
  - intros j Hj. apply elem_of_seq in Hj.
    rewrite (mget_entry m W 0 j HW) by lia. simpl.
    rewrite index_total by lia. by eexists.
  - unfold mget. destruct HW as [HlW HrW].
    destruct (W !! 0%nat) as [row|] eqn:Hrow.
    + rewrite (index_Ok _ _ _ Hrow). simpl.
      eapply Forall_lookup_1 in HrW; [|done]. simpl in HrW.
      unfold index. by rewrite (lookup_ge_None_2 row m) by lia.
    + unfold index. by rewrite Hrow.
Qed.

End SerialEdges.

Lemma serial_short_W_raises_witness :
  (exists all_x',
     for_range 2 (sweep_node Z_dr rs_dr (q 1) zeros_dr) zeros_dr
     = Ok all_x') /\
  serial_iteration 2 rs_dr [[q 1]] Z_dr half (q 1) (zeros_dr, zeros_dr)
  = Raise IndexError.
Proof.
  apply (serial_short_W_raises 2 1 rs_dr [[q 1]] Z_dr half (q 1)
           zeros_dr zeros_dr); [lia|split; [reflexivity|repeat constructor]
                               |square2|reflexivity..].
Defined.

Import Examples.

(** * What the parallel driver returns *)

Section Returns.
Context {V : Type} {AV : Arr V} {D : Type}.
Variable getWarmPrimal : V -> matrix -> list V.

(** Under the invariant of the pool, the workers that have returned
    hold the serial iterates of the last iteration. *)
Lemma inv_results (n : nat) (W Z : matrix) (gamma alpha : Qc)
    (rs : list (resolvent V)) (v0 : list V) (itrs0 : int) (C : list comms)
    (s : sys) :
  square n W -> square n Z -> length rs = n -> length v0 = n ->
  (0 < n)%nat ->
  inv n W Z gamma alpha rs v0 itrs0 C s -> finished s ->
  serial_results n (ref n rs W Z gamma alpha v0 (Z.to_nat itrs0))
  = Ok (parallel_results n s).
Proof.
  intros HW HZ Hrs Hv0 Hn (Hlen & _ & Hws & _ & _) Hfin.
  set (k := Z.to_nat itrs0).
  destruct (ref_length n rs W Z gamma alpha v0 HW HZ Hrs Hv0 k) as [Hlx Hlv].
  destruct (ref n rs W Z gamma alpha v0 k) as [xs vs] eqn:Href.
  simpl in Hlx, Hlv.
  rewrite (serial_results_ok n xs vs Hn Hlx Hlv).
  assert (worker_result <$> workers s
          = (fun i => {| res_x := xs !!! i; res_v := vs !!! i |}) <$> seq 0 n)
    as Hres.
  { apply list_eq. intros i. rewrite !list_lookup_fmap.
    destruct (decide (i < n)%nat) as [Hi|Hi].
    - rewrite lookup_seq_lt by done. simpl.
      destruct (lookup_lt_is_Some_2 (workers s) i) as [w Hw]; [lia|].
      rewrite Hw. simpl. f_equal.
      pose proof (list_lookup_total_correct _ _ _ Hw) as Hwi.
      pose proof (Hws i Hi) as Hinv. rewrite Hwi in Hinv.
      destruct Hinv as (_ & _ & _ & _ & Hv & Hx & Hrange & Hpc).
      assert (pc_ w = Done) as Hdone.
      { eapply (proj1 (Forall_forall _ _) Hfin).
        by eapply list_elem_of_lookup_2. }
      rewrite Hdone in Hpc.
      assert (itr w = k) as Hitr by (unfold k; lia).
      unfold worker_result. rewrite Hv, Hx. unfold prefix. rewrite Hdone.
      rewrite bool_decide_eq_false_2 by apply not_elem_of_nil.
      unfold X, Vr. rewrite Hitr. fold k. by rewrite Href.
    - rewrite lookup_seq_ge by lia.
      by rewrite (lookup_ge_None_2 (workers s) i) by lia. }
  unfold parallel_results. rewrite Hres. do 2 f_equal.
  unfold mean, vdiv, vsumn. do 2 f_equal.
  rewrite <- list_fmap_compose. done.
Qed.

(** X1.  When the workers have returned, [parallelAlgorithm] has the values
    to return that the serial engine computes in [itrs] iterations from
    the same [v⁰]: the same mean and, node by node, the same record
    of [x] and [v].  This holds for a symmetric [W] and for entries of
    [W] and [Z] that are zero or beyond the tolerance of the planner, in
    whatever order the workers ran. *)
Theorem parallel_returns_serial (n : nat) (data : list D)
    (resolvents : list (D -> resolvent V)) (W Z : matrix)
    (wp : option V) (wd : option (list V)) (itrs0 : int)
    (gamma alpha : Qc) (v0 : list V) (s0 s : sys) :
  (0 < n)%nat -> square n W -> square n Z ->
  symmetric n W -> clear_cut n W -> clear_cut n Z ->
  length data = n -> length resolvents = n ->
  parallel_seed getWarmPrimal n (mneg (tril1 Z)) wp wd = Ok v0 ->
  length v0 = n ->
  parallel_init getWarmPrimal n data resolvents W Z wp wd itrs0 false
  = Ok s0 ->
  rtc (sys_step W (mneg (tril1 Z)) gamma alpha) s0 s -> finished s ->
  (st ← serial_iterates (Z.to_nat itrs0) n (constructed resolvents data)
          W Z gamma alpha (replicate n vzero, v0);
   serial_results n st)
  = Ok (parallel_results n s).
Proof.
  intros Hn HW HZ Hsym HcW HcZ Hdata Hres Hseed Hv0 Hinit Hreach Hfin.
  set (L := mneg (tril1 Z)) in *. set (rs := constructed resolvents data).
  pose proof (square_L n Z HZ) as HL. fold L in HL.
  destruct (requiredQueues_facts (V:=V) n W L HW HL)
    as (Q & C & Hplan & HC & HQ & Hmem & Hnd & Hempty).
  assert (length rs = n) as Hrs
    by (unfold rs, constructed; rewrite length_zip_with; lia).
  rewrite (parallel_init_ok getWarmPrimal n data resolvents W Z wp wd itrs0
             v0 Q C Hn Hdata Hres Hv0 HC Hplan Hseed) in Hinit.
  injection Hinit as <-.
  pose proof (pool0_inv n W Z gamma alpha rs v0 itrs0 C Hrs Hv0 HC Q HQ Hempty)
    as Hinv0.
  pose proof (reachable_inv n W Z gamma alpha rs v0 itrs0 C HW HZ Hrs Hv0
                Hsym HcW HcZ HC Hmem Hnd _ _ Hinv0 Hreach) as Hinv.
  rewrite (ref_iterates n rs W Z gamma alpha v0 HW HZ Hrs Hv0). simpl.
  by apply (inv_results n W Z gamma alpha rs v0 itrs0 C).
Qed.

End Returns.

(** The plan of scenario S1: node 1 takes [x₀] for both [L] and [W],
    node 0 takes [x₁] for [W]. *)
Definition Q_dr : gmap (nat * nat) (list (Qc * Qc)) :=
  <[(0%nat, 1%nat) := []]> (<[(1%nat, 0%nat) := []]> ∅).
Definition C_dr : list comms :=
  [append_down_BQ 1 no_comms; append_up_BQ 0 no_comms].

Lemma plan_dr :
  requiredQueues (V:=Qc * Qc) W_dr (mneg (tril1 Z_dr)) = Ok (Q_dr, C_dr).
Proof. vm_compute. reflexivity. Qed.

Lemma parallel_returns_serial_witness :
  let s := run W_dr (mneg (tril1 Z_dr)) half (q 1) 60
             (pool0 2 rs_dr zeros_dr 2 C_dr Q_dr) in
  (st ← serial_iterates (Z.to_nat 2) 2 (constructed builders_dr data_dr)
          W_dr Z_dr half (q 1) (replicate 2 vzero, zeros_dr);
   serial_results 2 st)
  = Ok (parallel_results 2 s).
Proof.
  apply (parallel_returns_serial warm_stub 2 data_dr builders_dr W_dr Z_dr
           None None 2%Z half (q 1) zeros_dr
           (pool0 2 rs_dr zeros_dr 2 C_dr Q_dr)).
  - lia.
  - square2.
  - square2.
  - exact symmetric_W_dr.
  - exact clear_cut_W_dr.
  - exact clear_cut_Z_dr.
  - reflexivity.
  - reflexivity.
  - reflexivity.
  - reflexivity.
  - apply (parallel_init_ok warm_stub 2 data_dr builders_dr W_dr Z_dr
             None None 2%Z zeros_dr Q_dr C_dr);
      [lia|reflexivity..|exact plan_dr|reflexivity].
  - apply run_reachable.
  - by_compute.
Defined.

Import Examples.

(** * The plan and the rounds of the workers *)

(** The report to the monitor is no queue operation between nodes. *)
Lemma round_prog_monitored (c : comms) (monitored : bool) (A : action) :
  A <> Tele -> A ∈ round_prog c monitored <-> A ∈ round_prog c false.
Proof.
  intros HA. destruct monitored; [|done]. unfold round_prog.
  rewrite !elem_of_app, !elem_of_cons, !elem_of_nil. naive_solver.
Qed.

Lemma NoDup_middle {A : Type} (l1 l2 : list A) (x : A) :
  NoDup (l1 ++ l2) -> x ∉ l1 ++ l2 -> NoDup (l1 ++ x :: l2).
Proof.
  intros Hnd Hx. rewrite <- Permutation_middle. by apply NoDup_cons.
Qed.

Lemma round_prog_NoDup (n : nat) (W L : matrix) (C : list comms)
    (i : nat) (monitored : bool) :
  (forall a b k, b ∈ peers k (C !!! a) <->
     (a < n)%nat /\ (b < n)%nat /\ cls_of W L a b = Some k) ->
  (forall a k, NoDup (peers k (C !!! a))) ->
  NoDup (round_prog (C !!! i) monitored).
Proof.
  intros Hmem Hnd. pose proof (prog_NoDup n W L C Hmem Hnd i) as Hprog.
  destruct monitored; [|done].
  pose proof (Tele_not_in_prog C i) as Htele.
  unfold prog, round_prog in *. simpl in *.
  set (c := C !!! i) in *.
  set (rest := (Put <$> down_LQ c ++ down_BQ c ++ WQ c ++ up_BQ c)
               ++ (GetW <$> WQ c ++ down_BQ c)) in *.
  replace ((GetL <$> up_LQ c) ++ (GetB <$> up_BQ c) ++ ProxA :: Tele :: rest)
    with (((GetL <$> up_LQ c) ++ (GetB <$> up_BQ c) ++ [ProxA])
          ++ Tele :: rest)
    by (by rewrite <- !app_assoc).
  replace ((GetL <$> up_LQ c) ++ (GetB <$> up_BQ c) ++ ProxA :: rest)
    with (((GetL <$> up_LQ c) ++ (GetB <$> up_BQ c) ++ [ProxA]) ++ rest)
    in Hprog, Htele by (by rewrite <- !app_assoc).
  by apply NoDup_middle.
Qed.


(** X3.  The classes of the plan mirror each other: a pure-[W] pair holds
    each other in [WQ], the [up] peers of a node hold it as their [down]
    peer; no node is its own peer, no queue leads from a node to itself,
    and every queue starts empty. *)
Theorem plan_mirrors {V : Type} (n : nat) (W L : matrix)
    (Q : gmap (nat * nat) (list V)) (C : list comms) :
  square n W -> square n L -> requiredQueues W L = Ok (Q, C) ->
  (forall a b,
     (b ∈ WQ (C !!! a) <-> a ∈ WQ (C !!! b)) /\
     (b ∈ up_LQ (C !!! a) <-> a ∈ down_LQ (C !!! b)) /\
     (b ∈ up_BQ (C !!! a) <-> a ∈ down_BQ (C !!! b))) /\
  (forall a k, a ∉ peers k (C !!! a)) /\
  (forall a, Q !! (a, a) = None) /\
  (forall key q, Q !! key = Some q -> q = []).
Proof.
  intros HW HL Hplan.
  destruct (requiredQueues_facts (V:=V) n W L HW HL)
    as (Q' & C' & Hplan' & HC & HQ & Hmem & Hnd & Hempty).
  rewrite Hplan in Hplan'. injection Hplan' as <- <-.
  assert (forall a b k k',
            (cls_of W L a b = Some k <-> cls_of W L b a = Some k') ->
            b ∈ peers k (C !!! a) <-> a ∈ peers k' (C !!! b)) as Hmirror.
  { intros a b k k' Hcls. rewrite (Hmem a b k), (Hmem b a k'). naive_solver. }
  split; [|split; [|split]].
  - intros a b. split; [|split].
    + apply (Hmirror a b cWQ cWQ). unfold cls_of.
      repeat case_bool_decide; try lia; try done;
        destruct (classify W L _ _); naive_solver.
    + apply (Hmirror a b cUpL cDownL). unfold cls_of.
      repeat case_bool_decide; try lia; try done;
        destruct (classify W L _ _); naive_solver.
    + apply (Hmirror a b cUpB cDownB). unfold cls_of.
      repeat case_bool_decide; try lia; try done;
        destruct (classify W L _ _); naive_solver.
  - intros a k Hin. apply Hmem in Hin as (_ & _ & Hcls).
    unfold cls_of in Hcls. repeat case_bool_decide; (lia || done).
  - intros a. apply eq_None_not_Some. rewrite (HQ a a).
    intros (_ & _ & Hch). unfold channel in Hch.
    repeat case_bool_decide; (lia || done).
  - done.
Qed.


Lemma plan_mirrors_witness :
  (forall a b,
     (b ∈ WQ (C_dr !!! a) <-> a ∈ WQ (C_dr !!! b)) /\
     (b ∈ up_LQ (C_dr !!! a) <-> a ∈ down_LQ (C_dr !!! b)) /\
     (b ∈ up_BQ (C_dr !!! a) <-> a ∈ down_BQ (C_dr !!! b))) /\
  (forall a k, a ∉ peers k (C_dr !!! a)) /\
  (forall a, Q_dr !! (a, a) = None) /\
  (forall key q, Q_dr !! key = Some q -> q = []).
Proof.
  apply (plan_mirrors 2 W_dr (mneg (tril1 Z_dr)) Q_dr C_dr).
  - square2.
  - square2.
  - exact plan_dr.
Defined.

Import Examples.

(** * The monitor: the range of its target, and waiting *)

Section MonitorEdges.
Context {V : Type} {AV : Arr V}.
Variable norm : V -> Qc.

(** From a pass at round [itr0] with a streak of [varcounter], the loop
    can only set a target that lies ten past a round at which the streak
    is complete. *)
Lemma monitor_loop_range (todo : nat) (vartol : Qc) (n : nat) (itr0 : int)
    (varcounter : nat) (w : list V) (tq tq' : list (list V))
    (terminate t : int) :
  monitor_loop norm todo vartol n itr0 varcounter w tq terminate
  = Stepped (t, tq') ->
  t = terminate \/
  (itr0 + 10 + Z.of_nat (9 - varcounter) <= t < itr0 + 10 + Z.of_nat todo)%Z.
Proof.
  revert itr0 varcounter w tq.
  induction todo as [|todo IH]; intros itr0 c w tq; simpl.
  - intros [= <- _]. by left.
  - destruct (get_round n tq) as [[w1 tq1]| | |]; try done.
    destruct (bool_decide (delta norm w1 w < vartol)).
    + destruct (bool_decide (10 <= S c)%nat) eqn:Hten.
      * intros [= <- _]. right. apply bool_decide_eq_true in Hten. lia.
      * apply bool_decide_eq_false in Hten. intros Hrun.
        destruct (IH _ _ _ _ Hrun) as [->|Hrange]; [by left|right]. lia.
    + intros Hrun.
      destruct (IH _ _ _ _ Hrun) as [->|Hrange]; [by left|right]. lia.
Qed.

(** X4.  Whatever the samples are, when [evaluate] returns it has left the
    target as it was or has set it to a round [t] with
    [19 <= t < itrs]: a streak takes ten rounds, and the loop stops ten
    rounds short of [itrs]. *)
Theorem evaluate_target_range (n : nat) (tq tq' : list (list V))
    (terminate t : int) (vartol : Qc) (itrs0 : int) :
  evaluate norm n tq terminate vartol itrs0 = Stepped (t, tq') ->
  t = terminate \/ (19 <= t < itrs0)%Z.
Proof.
  unfold evaluate. destruct (get_round n tq) as [[w tq1]| | |]; try done.
  intros Hrun. apply monitor_loop_range in Hrun as [->|Hrange]; [by left|].
  right. lia.
Qed.

Lemma get_round_blocks (n : nat) (tq : list (list V)) :
  [] ∈ take n tq -> get_round n tq = Blocked.
Proof.
  revert tq. induction n as [|n IH]; intros tq Hin.
  - rewrite take_0 in Hin. by apply not_elem_of_nil in Hin.
  - destruct tq as [|q tq]; [by apply not_elem_of_nil in Hin|].
    simpl in Hin. apply elem_of_cons in Hin as [<-|Hin]; [done|].
    simpl. destruct q as [|x q]; [done|]. by rewrite (IH tq Hin).
Qed.

(** X5.  While one of the [n] nodes has not published its first sample,
    [evaluate] waits on the baseline and sets no target. *)
Theorem evaluate_waits_for_baseline (n : nat) (tq : list (list V))
    (terminate : int) (vartol : Qc) (itrs0 : int) :
  [] ∈ take n tq -> evaluate norm n tq terminate vartol itrs0 = Blocked.
Proof. intros Hin. unfold evaluate. by rewrite get_round_blocks. Qed.

End MonitorEdges.

Lemma evaluate_target_range_witness :
  (19%Z = 0%Z \/ (19 <= 19 < 25)%Z).
Proof.
  apply (evaluate_target_range abs_norm 1 still [replicate 6 (q 0)]
           0%Z 19%Z (q 1) 25%Z).
  vm_compute. reflexivity.
Defined.

Lemma evaluate_waits_for_baseline_witness :
  evaluate abs_norm 2 [[q 0]; []] 0 (q 1) 25 = Blocked.
Proof.
  apply (evaluate_waits_for_baseline abs_norm 2 [[q 0]; []] 0%Z (q 1) 25%Z).
  simpl. apply elem_of_cons. right. apply list_elem_of_singleton. reflexivity.
Defined.

Section MonitorFrame.
Context {V : Type} {AV : Arr V}.

(** X18.  A step of a worker never changes the termination target, and
    it leaves the queues of the monitor alone unless it is the report
    of line 198, which appends the worker's [w_value] to the queue of
    its own node. *)
Theorem worker_step_monitor (W L : matrix) (gamma alpha : Qc)
    (w w' : wstate (V:=V)) (s s' : shared (V:=V)) :
  worker_step W L gamma alpha w s = Stepped (w', s') ->
  monitor s' = monitor s \/
  exists tq t q,
    monitor s = Some (tq, t) /\ tq !! node w = Some q /\
    monitor s' = Some (<[node w := q ++ [w_value w]]> tq, t).
Proof.
  unfold worker_step. destruct (pc_ w) as [|pos|]; [|  |done].
  { intros [= _ <-]. by left. }
  destruct (round_prog _ _ !! pos) as [[k|k| | |k|k]|];
    unfold get, lift; intros Hstep.
  - destruct (mget L (node w) k); [|done].
    destruct (queue s !! (k, node w)) as [[|x q]|]; try done.
    injection Hstep as _ <-. by left.
  - destruct (queue s !! (k, node w)) as [[|x q]|]; try done.
    destruct (mget L (node w) k); [|done].
    destruct (mget W (node w) k); [|done].
    injection Hstep as _ <-. by left.
  - injection Hstep as _ <-. by left.
  - destruct (monitor s) as [[tq t]|] eqn:Hmon; [|done].
    unfold index in Hstep.
    destruct (tq !! node w) as [q|] eqn:Hq; [|done].
    injection Hstep as _ <-. right. by exists tq, t, q.
  - destruct (queue s !! (node w, k)); [|done].
    injection Hstep as _ <-. by left.
  - destruct (mget W (node w) k); [|done].
    destruct (queue s !! (k, node w)) as [[|x q]|]; try done.
    injection Hstep as _ <-. by left.
  - destruct (mget W (node w) (node w)); [|done].
    injection Hstep as _ <-. by left.
Qed.

(** X19.  A step of a worker leaves every queue alone but one at most:
    a queue that ends at its node, from which it takes the oldest
    message, or a queue that starts at its node, to which it appends its
    [w_value]. *)
Theorem worker_step_queues (W L : matrix) (gamma alpha : Qc)
    (w w' : wstate (V:=V)) (s s' : shared (V:=V)) :
  worker_step W L gamma alpha w s = Stepped (w', s') ->
  queue s' = queue s \/
  (exists k x q, queue s !! (k, node w) = Some (x :: q) /\
     queue s' = <[(k, node w) := q]> (queue s)) \/
  (exists k q, queue s !! (node w, k) = Some q /\
     queue s' = <[(node w, k) := q ++ [w_value w]]> (queue s)).
Proof.
  unfold worker_step. destruct (pc_ w) as [|pos|]; [|  |done].
  { intros [= _ <-]. by left. }
  destruct (round_prog _ _ !! pos) as [[k|k| | |k|k]|];
    unfold get, lift; intros Hstep.
  - destruct (mget L (node w) k); [|done].
    destruct (queue s !! (k, node w)) as [[|x q]|] eqn:Hq; try done.
    injection Hstep as _ <-. right. left. by exists k, x, q.
  - destruct (queue s !! (k, node w)) as [[|x q]|] eqn:Hq; try done.
    destruct (mget L (node w) k); [|done].
    destruct (mget W (node w) k); [|done].
    injection Hstep as _ <-. right. left. by exists k, x, q.
  - injection Hstep as _ <-. by left.
  - destruct (monitor s) as [[tq t]|]; [|done].
    destruct (index tq (node w)); [|done].
    injection Hstep as _ <-. by left.
  - destruct (queue s !! (node w, k)) as [q|] eqn:Hq; [|done].
    injection Hstep as _ <-. right. right. by exists k, q.
  - destruct (mget W (node w) k); [|done].
    destruct (queue s !! (k, node w)) as [[|x q]|] eqn:Hq; try done.
    injection Hstep as _ <-. right. left. by exists k, x, q.
  - destruct (mget W (node w) (node w)); [|done].
    injection Hstep as _ <-. by left.
Qed.

End MonitorFrame.

(** A monitored worker at its report. *)
Definition at_report : wstate (V:=Qc) :=
  {| node := 0; resolvent_ := quadprox (q 1); comms_data := no_comms;
     itr := 0; itrs := 10; pc_ := At 1;
     local_v := q 0; local_r := q 0; v_temp := q 0; w_value := q 7 |}.

Lemma worker_step_monitor_witness :
  monitor {| queue := ∅; monitor := Some ([[q 7]], 3%Z) |}
  = monitor target_three \/
  exists tq t q0,
    monitor target_three = Some (tq, t) /\ tq !! node at_report = Some q0 /\
    monitor {| queue := ∅; monitor := Some ([[q 7]], 3%Z) |}
    = Some (<[node at_report := q0 ++ [w_value at_report]]> tq, t).
Proof.
  apply (worker_step_monitor [[q 0]] [[q 0]] half (q 1) at_report
           (advance at_report 1 (q 0) (q 0) (q 7)) target_three
           {| queue := ∅; monitor := Some ([[q 7]], 3%Z) |}).
  reflexivity.
Defined.

(** A worker about to put its [w_value] on the queue to node 1. *)
Definition at_put : wstate (V:=Qc) :=
  {| node := 0; resolvent_ := quadprox (q 1);
     comms_data := append_WQ 1 no_comms;
     itr := 0; itrs := 10; pc_ := At 1;
     local_v := q 0; local_r := q 0; v_temp := q 0; w_value := q 7 |}.
Definition one_queue (l : list Qc) : shared (V:=Qc) :=
  {| queue := {[ (0%nat, 1%nat) := l ]}; monitor := None |}.

Lemma worker_step_queues_witness :
  queue (one_queue [q 5; q 7]) = queue (one_queue [q 5]) \/
  (exists k x q0, queue (one_queue [q 5]) !! (k, node at_put) = Some (x :: q0) /\
     queue (one_queue [q 5; q 7])
     = <[(k, node at_put) := q0]> (queue (one_queue [q 5]))) \/
  (exists k q0, queue (one_queue [q 5]) !! (node at_put, k) = Some q0 /\
     queue (one_queue [q 5; q 7])
     = <[(node at_put, k) := q0 ++ [w_value at_put]]>
         (queue (one_queue [q 5]))).
Proof.
  apply (worker_step_queues [[q 0; q 1]; [q 1; q 0]] [[q 0; q 0]; [q 0; q 0]]
           half (q 1) at_put (advance at_put 1 (q 0) (q 0) (q 7))
           (one_queue [q 5]) (one_queue [q 5; q 7])).
  reflexivity.
Defined.

(** A worker at the test of the loop with its rounds done. *)
Definition rounds_done : wstate (V:=Qc) :=
  {| node := 0; resolvent_ := quadprox (q 1); comms_data := no_comms;
     itr := 3; itrs := 3; pc_ := Head;
     local_v := q 0; local_r := q 0; v_temp := q 0; w_value := q 0 |}.
Definition no_monitor : shared (V:=Qc) := {| queue := ∅; monitor := None |}.

Lemma worker_returns_at_head_witness : pc_ rounds_done = Head.
Proof.
  apply (worker_returns_at_head [[q 0]] [[q 0]] half (q 1) rounds_done
           no_monitor (set_pc rounds_done Done) no_monitor).
  - reflexivity.
  - reflexivity.
Defined.
